(** * python_data_parsers: rosbag record accumulation and table post-processing

    A shallow embedding of [rosbag_parser.py], [dict_utils.py] and
    [units.py].  Python values are modelled as follows.

    - [str] is [string]; the methods used by the code ([in], [replace],
      [rsplit]) are defined in module [Str].
    - a numpy array is a [shape] and its row-major [data]; the elements are
      IEEE binary64 numbers (primitive floats), the dtype numpy gives to
      Python floats and to the sentinel slices.  An integer or boolean field
      is represented by its float64 value.
    - a [dict] keeps its insertion order: an association list with unique
      keys ([Dict]).
    - the tables built by [parse_message] are mutable objects that the code
      updates in place and passes around by reference, so they live in a
      [heap] and a table's entry may be a reference to a nested table.
      The value such a table stands for, once its references are
      followed, is a [tree]; [repr] ties a tree-shaped part of the heap
      to that value.
    - a raised exception is the [Raise] outcome of a [result]. *)

From Stdlib Require Import ZArith Ascii String Floats Uint63 Lia.
From stdpp Require Import base option list strings gmap.

Set Warnings "-inexact-float".
Set Warnings "-clear-no-such-hyp".
Local Open Scope Z_scope.
Local Open Scope nat_scope.

(** ** Exceptions and results *)

Inductive exn : Type :=
| AttributeError
| ValueError
| IndexError
| TypeError
| KeyError
| SharedKeyError
| OtherError (tag : nat)
(** [OutsideModel] is not a Python exception.  It marks the two places where
    numpy would go on with an array of Python objects (a table handed to
    [np.append] or [np.row_stack] as if it were an array) and a reference
    to a table that the heap does not hold. *)
| OutsideModel.

Inductive result (A : Type) : Type :=
| Ok (a : A)
| Raise (e : exn).
Arguments Ok {A} a.
Arguments Raise {A} e.

Definition is_ok {A} (r : result A) : bool :=
  match r with Ok _ => true | Raise _ => false end.

Definition rbind {A B} (r : result A) (k : A -> result B) : result B :=
  match r with Ok a => k a | Raise e => Raise e end.

#[global] Instance exn_eq_dec : EqDecision exn.
Proof. solve_decision. Defined.

(** ** Python [str] methods *)

Module Str.

(** [s.startswith(p)] *)
Fixpoint startswith (p s : string) : bool :=
  match p, s with
  | EmptyString, _ => true
  | String _ _, EmptyString => false
  | String a p', String b s' => if Ascii.eqb a b then startswith p' s' else false
  end.

(** [sub in s] *)
Fixpoint contains (sub s : string) : bool :=
  startswith sub s ||
  match s with
  | EmptyString => false
  | String _ s' => contains sub s'
  end.

(** The scan of [s.replace(old, new)] for a non-empty [old]: left to right,
    every occurrence that does not overlap an earlier one is replaced.
    [skip] counts the characters of a matched occurrence still to pass. *)
Fixpoint replace_go (old new : string) (skip : nat) (s : string) : string :=
  match s with
  | EmptyString => EmptyString
  | String c s' =>
      match skip with
      | S k => replace_go old new k s'
      | O =>
          if startswith old s
          then String.append new (replace_go old new (String.length old - 1) s')
          else String c (replace_go old new 0 s')
      end
  end.

Fixpoint intersperse_after (new s : string) : string :=
  match s with
  | EmptyString => EmptyString
  | String c s' => String c (String.append new (intersperse_after new s'))
  end.

(** [s.replace(old, new)]; with an empty [old] Python puts [new] before
    every character and at the end. *)
Definition replace (s old new : string) : string :=
  match old with
  | EmptyString => String.append new (intersperse_after new s)
  | String _ _ => replace_go old new 0 s
  end.

(** The scan of [s.split(sep)] for a non-empty [sep]: the piece being read
    and the pieces after it. *)
Fixpoint split_go (sep : string) (skip : nat) (s : string) : string * list string :=
  match s with
  | EmptyString => (EmptyString, [])
  | String c s' =>
      match skip with
      | S k => split_go sep k s'
      | O =>
          if startswith sep s
          then (EmptyString,
                let '(p, ps) := split_go sep (String.length sep - 1) s' in p :: ps)
          else let '(p, ps) := split_go sep 0 s' in (String c p, ps)
      end
  end.

(** [s.split(sep)], [sep] not empty. *)
Definition split (s sep : string) : list string :=
  let '(p, ps) := split_go sep 0 s in p :: ps.

(** [s.rsplit(sep)], [sep] not empty: the separators are looked for from
    the right end, which is the left-to-right split of the mirrored
    string; the pieces come back in reading order. *)
Definition rsplit (s sep : string) : list string :=
  rev (map String.rev (split (String.rev s) (String.rev sep))).

(** [s[n:]] *)
Fixpoint drop (n : nat) (s : string) : string :=
  match n, s with
  | O, _ => s
  | S _, EmptyString => EmptyString
  | S k, String _ s' => drop k s'
  end.

(** [s.partition(sep)] without its middle component: what stands before
    and after the first occurrence of [sep], if there is one. *)
Fixpoint partition (sep s : string) : option (string * string) :=
  if startswith sep s then Some (EmptyString, drop (String.length sep) s)
  else
    match s with
    | EmptyString => None
    | String c s' =>
        match partition sep s' with
        | Some (a, b) => Some (String c a, b)
        | None => None
        end
    end.

(** The removal of the first occurrence only, [s.replace(old, "", 1)]:
    what the specification says of the SI token. *)
Definition remove_first (s old : string) : string :=
  match partition old s with
  | Some (a, b) => String.append a b
  | None => s
  end.

End Str.

(** ** numpy arrays *)

Record ndarray : Type := mk_ndarray {
  shape : list nat;
  data : list float
}.

Module Np.

(** [a.size] *)
Definition size (a : ndarray) : nat := foldr Nat.mul 1 (shape a).

(** [a.ndim] *)
Definition ndim (a : ndarray) : nat := length (shape a).

(** The data of an array has as many elements as its shape says. *)
Definition well_formed (a : ndarray) : Prop := length (data a) = size a.

(** [np.array([value])] *)
Definition array1 (value : float) : ndarray := mk_ndarray [1] [value].

(** [np.array(value_array)] for a flat sequence *)
Definition array (values : list float) : ndarray :=
  mk_ndarray [length values] values.

(** [np.append(arr, value)] with no axis: [arr] is flattened first. *)
Definition append_flat (arr : ndarray) (value : float) : ndarray :=
  mk_ndarray [size arr + 1] (data arr ++ [value]).

(** [c * np.ones(shp)] *)
Definition full (shp : list nat) (c : float) : ndarray :=
  mk_ndarray shp (replicate (foldr Nat.mul 1 shp) (PrimFloat.mul c 1%float)).

(** [a[np.newaxis, ...]] *)
Definition newaxis (a : ndarray) : ndarray :=
  mk_ndarray (1 :: shape a) (data a).

(** [np.atleast_2d(a)] *)
Definition atleast_2d (a : ndarray) : ndarray :=
  match shape a with
  | [] => mk_ndarray [1; 1] (data a)
  | [n] => mk_ndarray [1; n] (data a)
  | _ => a
  end.

(** [np.concatenate((a, b), axis=0)]: the arrays must have the same number
    of dimensions, at least one, and agree on every axis but the first. *)
Definition concatenate0 (a b : ndarray) : result ndarray :=
  match shape a, shape b with
  | m :: ta, n :: tb =>
      if decide (ta = tb)
      then Ok (mk_ndarray ((m + n) :: ta) (data a ++ data b))
      else Raise ValueError
  | _, _ => Raise ValueError
  end.

(** [np.row_stack((a, b))], numpy's [vstack] *)
Definition row_stack (a b : ndarray) : result ndarray :=
  concatenate0 (atleast_2d a) (atleast_2d b).

(** [np.append(a, b, axis=0)] *)
Definition append0 (a b : ndarray) : result ndarray := concatenate0 a b.

(** The first [take] elements of each of [rows] consecutive chunks of
    [chunk] elements. *)
Fixpoint heads (rows chunk take : nat) (l : list float) : list float :=
  match rows with
  | O => []
  | S r => firstn take l ++ heads r chunk take (skipn chunk l)
  end.

(** [val[:, 0]]: index 0 on the second axis.  numpy raises [IndexError]
    when the array has fewer than two axes or the second one is empty. *)
Definition column0 (val : ndarray) : result ndarray :=
  match shape val with
  | d0 :: d1 :: rest =>
      if decide (d1 = 0) then Raise IndexError
      else
        let inner := foldr Nat.mul 1 rest in
        Ok (mk_ndarray (d0 :: rest) (heads d0 (d1 * inner) inner (data val)))
  | _ => Raise IndexError
  end.

(** [a.reshape((-1, 1))] *)
Definition reshape_col (a : ndarray) : ndarray :=
  mk_ndarray [size a; 1] (data a).

(** [val[0]], the first slice along the leading axis *)
Definition slice0 (val : ndarray) : result ndarray :=
  match shape val with
  | d0 :: rest =>
      if decide (d0 = 0) then Raise IndexError
      else Ok (mk_ndarray rest (firstn (foldr Nat.mul 1 rest) (data val)))
  | [] => Raise IndexError
  end.

(** [arr * c] *)
Definition scale (arr : ndarray) (c : float) : ndarray :=
  mk_ndarray (shape arr) (map (fun x => PrimFloat.mul x c) (data arr)).

(** [180.0 / pi], the factor of [np.degrees] *)
Definition rad2deg : float :=
  PrimFloat.div 180%float 0x1.921fb54442d18p+1%float.

(** [np.degrees(arr)] *)
Definition degrees (arr : ndarray) : ndarray := scale arr rad2deg.

(** [arr / c] *)
Definition divide (arr : ndarray) (c : float) : ndarray :=
  mk_ndarray (shape arr) (map (fun x => PrimFloat.div x c) (data arr)).

(** [a.squeeze()]: the axes of length one are removed. *)
Definition squeeze (a : ndarray) : ndarray :=
  mk_ndarray (filter (fun d => d <> 1) (shape a)) (data a).

(** The multi-index of the row-major position [i] in an array of shape
    [shp], and the position of a multi-index. *)
Fixpoint unravel (shp : list nat) (i : nat) : list nat :=
  match shp with
  | [] => []
  | _ :: rest =>
      let inner := foldr Nat.mul 1 rest in
      (i / inner) :: unravel rest (i mod inner)
  end.

Fixpoint ravel (shp idx : list nat) : nat :=
  match shp, idx with
  | _ :: rest, i :: idx' => i * foldr Nat.mul 1 rest + ravel rest idx'
  | _, _ => 0
  end.

(** [a.T]: the axes in reverse order; the element at a multi-index is the
    element of [a] at the mirrored multi-index. *)
Definition transpose (a : ndarray) : ndarray :=
  let shp := rev (shape a) in
  mk_ndarray shp
    (map (fun j => nth (ravel (shape a) (rev (unravel shp j))) (data a) 0%float)
         (seq 0 (foldr Nat.mul 1 shp))).

(** [np.expand_dims(a, axis=0)] *)
Definition expand_dims0 (a : ndarray) : ndarray :=
  mk_ndarray (1 :: shape a) (data a).

(** [np.concatenate(arrays, axis=0)] for a list: it needs at least one
    array, none of them zero-dimensional, and all of the same shape apart
    from the first axis. *)
Definition concatenate (arrays : list ndarray) : result ndarray :=
  match arrays with
  | [] => Raise ValueError
  | a :: rest =>
      match shape a with
      | [] => Raise ValueError
      | _ :: _ => foldl (fun acc b => rbind acc (fun x => concatenate0 x b)) (Ok a) rest
      end
  end.

End Np.

(** ** Python [dict]: insertion-ordered, unique keys *)

Module Dict.
Section dict.
Context {V : Type}.

(** [d.get(k)] *)
Fixpoint get (k : string) (d : list (string * V)) : option V :=
  match d with
  | [] => None
  | (k', v) :: d' => if decide (k' = k) then Some v else get k d'
  end.

(** [d[k] = v]: an existing key keeps its place, a new one goes last. *)
Fixpoint set (k : string) (v : V) (d : list (string * V)) : list (string * V) :=
  match d with
  | [] => [(k, v)]
  | (k', v') :: d' =>
      if decide (k' = k) then (k, v) :: d' else (k', v') :: set k v d'
  end.

(** [d.keys()] *)
Definition keys (d : list (string * V)) : list string := fst <$> d.

(** [a | b]: a copy of [a] updated with the items of [b] in their order. *)
Definition union (a b : list (string * V)) : list (string * V) :=
  foldl (fun acc kv => set (fst kv) (snd kv) acc) a b.

End dict.
End Dict.

(** ** Objects and the heap *)

Abbreviation loc := nat (only parsing).

(** What a table entry or an [in_array] argument can be: [None], an array,
    or a reference to a table. *)
Inductive pyobj : Type :=
| VNone
| VArr (a : ndarray)
| VDict (l : loc).

Abbreviation table := (list (string * pyobj)) (only parsing).
Abbreviation heap := (list (list (string * pyobj))) (only parsing).

(** Computations that read and update the heap and may raise; the heap
    survives a raise. *)
Definition M (A : Type) : Type := heap -> heap * result A.

Definition ret {A} (a : A) : M A := fun h => (h, Ok a).
Definition raise {A} (e : exn) : M A := fun h => (h, Raise e).
Definition lift {A} (r : result A) : M A := fun h => (h, r).
Definition bind {A B} (m : M A) (k : A -> M B) : M B :=
  fun h =>
    match m h with
    | (h', Ok a) => k a h'
    | (h', Raise e) => (h', Raise e)
    end.

Notation "'let*' x ':=' m 'in' k" := (bind m (fun x => k))
  (at level 10, x pattern, m at level 100, k at level 200).

(** [{}]: a new empty table *)
Definition new_dict : M pyobj :=
  fun h => (h ++ [[]], Ok (VDict (length h))).

(** [in_dict.get(field, None)]; an array has no [get]. *)
Definition obj_get (in_dict : pyobj) (field : string) : M pyobj :=
  fun h =>
    match in_dict with
    | VDict l =>
        match h !! l with
        | Some d => (h, Ok (default VNone (Dict.get field d)))
        | None => (h, Raise OutsideModel)
        end
    | _ => (h, Raise AttributeError)
    end.

(** [in_dict[field] = val]: the table is updated in place. *)
Definition obj_set (in_dict : pyobj) (field : string) (val : pyobj) : M unit :=
  fun h =>
    match in_dict with
    | VDict l =>
        match h !! l with
        | Some d => (<[l := Dict.set field val d]> h, Ok tt)
        | None => (h, Raise OutsideModel)
        end
    | VArr _ => (h, Raise IndexError)
    | VNone => (h, Raise TypeError)
    end.

(** [try: body except KeyError: handler] *)
Definition try_except_KeyError {A} (body handler : M A) : M A :=
  fun h =>
    match body h with
    | (h', Raise KeyError) => handler h'
    | r => r
    end.

(** ** Records

    A decoded message lists its fields in schema order
    ([get_fields_and_field_types().keys()]) with the value [getattr]
    gives for each.  [FNDArray] carries the outcome of
    [conversion.msg_to_array], which belongs to another package; [FOther]
    is a value of any other kind (a [str], a list, ...), which has no
    [get_fields_and_field_types]. *)

Inductive fields : Type :=
| FNil
| FCons (field : string) (raw_val : field_val) (rest : fields)
with field_val : Type :=
| FHeader (sec nanosec : Z)
| FNumber (v : float)
| FArray (vals : list float)
| FNDArray (decoded : result ndarray)
| FMessage (m : fields)
| FOther.

Scheme fields_mut := Induction for fields Sort Prop
  with field_val_mut := Induction for field_val Sort Prop.

Fixpoint mk_msg (l : list (string * field_val)) : fields :=
  match l with
  | [] => FNil
  | (f, v) :: l' => FCons f v (mk_msg l')
  end.

(** ** rosbag_parser.py *)

(** The conversion Python applies to an [int] operand of a float operation;
    exact for the 32-bit [sec] and [nanosec] of a time stamp. *)
Definition float_of_Z (z : Z) : float :=
  if (z <? 0)%Z
  then PrimFloat.opp (PrimFloat.of_uint63 (Uint63.of_Z (- z)))
  else PrimFloat.of_uint63 (Uint63.of_Z z).

Definition sentinel : float := (-1717)%float.

Definition parse_scalar (value : float) (in_array : pyobj) : result pyobj :=
  match in_array with
  | VNone => Ok (VArr (Np.array1 value))
  | VArr a => Ok (VArr (Np.append_flat a value))
  | VDict _ => Raise OutsideModel
  end.

Definition parse_time_stamp (sec nanosec : Z) (in_array : pyobj) : result pyobj :=
  let secs := sec in
  let nsecs := nanosec in
  let stamp := PrimFloat.add (float_of_Z secs) (PrimFloat.mul (float_of_Z nsecs) 1e-9%float) in
  parse_scalar stamp in_array.

Definition parse_array (value_array : list float) (in_array : pyobj) : result pyobj :=
  let np_array := Np.array value_array in
  match in_array with
  | VNone =>
      if decide (Np.size np_array = 0) then Ok VNone else Ok (VArr np_array)
  | VArr a =>
      let np_array :=
        if decide (Np.size np_array = 0)
        then Np.full (tail (shape a)) sentinel
        else np_array in
      rbind (Np.row_stack a np_array) (fun r => Ok (VArr r))
  | VDict _ =>
      (* a table has no [shape]; stacked with an array it is a 1x1 block *)
      if decide (Np.size np_array = 0) then Raise AttributeError
      else if decide (Np.size np_array = 1) then Raise OutsideModel
      else Raise ValueError
  end.

Definition parse_ndarray (value_ndarray : result ndarray) (in_ndarray : pyobj) : result pyobj :=
  rbind value_ndarray (fun np_array =>
  match in_ndarray with
  | VNone =>
      if decide (Np.size np_array = 0) then Ok VNone
      else Ok (VArr (Np.newaxis np_array))
  | VArr a =>
      let np_array :=
        if decide (Np.size np_array = 0)
        then Np.full (tail (shape a)) sentinel
        else np_array in
      rbind (Np.append0 a (Np.newaxis np_array)) (fun r => Ok (VArr r))
  | VDict _ =>
      (* a table has no [shape], and is zero-dimensional for [np.append] *)
      if decide (Np.size np_array = 0) then Raise AttributeError
      else Raise ValueError
  end).

(** [if in_dict is None: in_dict = {}] *)
Definition init_dict (in_dict : pyobj) : M pyobj :=
  match in_dict with
  | VNone => new_dict
  | _ => ret in_dict
  end.

(** The loop of [parse_message] over the fields, and the dispatch on the
    kind of one field's value, which gives the key and the value to store.
    The last branch is the recursive call [parse_message(raw_val, old_entry)]. *)
Fixpoint message_loop (fs : fields) (in_dict : pyobj) : M pyobj :=
  match fs with
  | FNil => ret in_dict
  | FCons field raw_val rest =>
      let* old_entry := obj_get in_dict field in
      let* (field', val) := parse_field raw_val field old_entry in_dict in
      let* _ := obj_set in_dict field' val in
      message_loop rest in_dict
  end
with parse_field (raw_val : field_val) (field : string) (old_entry in_dict : pyobj)
  : M (string * pyobj) :=
  match raw_val with
  | FHeader sec nanosec =>
      let* old_entry := obj_get in_dict "stamp_s" in
      let* val := lift (parse_time_stamp sec nanosec old_entry) in
      ret ("stamp_s", val)
  | FNumber v =>
      let* val := lift (parse_scalar v old_entry) in
      ret (field, val)
  | FArray vals =>
      let* val := lift (parse_array vals old_entry) in
      ret (field, val)
  | FNDArray decoded =>
      let* val := lift (parse_ndarray decoded old_entry) in
      ret (field, val)
  | FMessage m =>
      let* sub_dict := init_dict old_entry in
      let* val := message_loop m sub_dict in
      ret (field, val)
  | FOther =>
      let* _ := init_dict old_entry in
      raise AttributeError
  end.

Definition parse_message (msg : fields) (in_dict : pyobj) : M pyobj :=
  let* in_dict' := init_dict in_dict in
  message_loop msg in_dict'.

(** One entry of the bag: the topic and the outcome of looking up its type
    and deserializing the data, both done by the ROS libraries. *)
Definition bag_record : Type := string * result fields.

(** [ros_data_dict[topic]] *)
Definition getitem (d : list (string * pyobj)) (k : string) : result pyobj :=
  match Dict.get k d with
  | Some v => Ok v
  | None => Raise KeyError
  end.

(** The [while reader.has_next()] loop of [parse_topics]. *)
Fixpoint read_loop (bag : list bag_record) (ros_data_dict : list (string * pyobj))
  : M (list (string * pyobj)) :=
  match bag with
  | [] => ret ros_data_dict
  | (topic, decoded) :: rest =>
      let* msg := lift decoded in
      let* val := try_except_KeyError
               (let* in_dict := lift (getitem ros_data_dict topic) in
                parse_message msg in_dict)
               (let* in_dict := new_dict in
                parse_message msg in_dict) in
      read_loop rest (Dict.set topic val ros_data_dict)
  end.

Definition parse_topics (bag : list bag_record) : M (list (string * pyobj)) :=
  read_loop bag [].

(** [value.squeeze()]: only an array has the method. *)
Definition obj_squeeze (value : pyobj) : result pyobj :=
  match value with
  | VArr a => Ok (VArr (Np.squeeze a))
  | VNone | VDict _ => Raise AttributeError
  end.

(** [in_dict.items()]: [None] and an array have no [items]. *)
Definition obj_items (in_dict : pyobj) : M (list (string * pyobj)) :=
  fun h =>
    match in_dict with
    | VDict l =>
        match h !! l with
        | Some d => (h, Ok d)
        | None => (h, Raise OutsideModel)
        end
    | _ => (h, Raise AttributeError)
    end.

(** The loop of [squeeze_numpy_fields].  Each turn assigns to the key it
    is visiting, so the table keeps its size and order while it is walked,
    and the item of a later turn is the one the table had at the start. *)
Fixpoint squeeze_loop (items : list (string * pyobj)) (in_dict : pyobj) : M unit :=
  match items with
  | [] => ret tt
  | (key, value) :: rest =>
      let* squeezed := lift (obj_squeeze value) in
      let* _ := obj_set in_dict key squeezed in
      squeeze_loop rest in_dict
  end.

Definition squeeze_numpy_fields (in_dict : pyobj) : M pyobj :=
  let* items := obj_items in_dict in
  let* _ := squeeze_loop items in_dict in
  ret in_dict.

(** ** units.py *)

Inductive SI_PREFIX : Type :=
| GIGA | MEGA | KILO | HECTO | DEKA | DECI | CENTI | MILI | MICRO | NANO.

(** The members in definition order, the order in which [for item in
    SI_PREFIX] visits them. *)
Definition SI_PREFIX_members : list SI_PREFIX :=
  [GIGA; MEGA; KILO; HECTO; DEKA; DECI; CENTI; MILI; MICRO; NANO].

(** [item.name.lower()] *)
Definition name_lower (item : SI_PREFIX) : string :=
  match item with
  | GIGA => "giga" | MEGA => "mega" | KILO => "kilo" | HECTO => "hecto"
  | DEKA => "deka" | DECI => "deci" | CENTI => "centi" | MILI => "mili"
  | MICRO => "micro" | NANO => "nano"
  end.

(** [item.value] *)
Definition prefix_value (item : SI_PREFIX) : float :=
  match item with
  | GIGA => 1e9 | MEGA => 1e6 | KILO => 1e3 | HECTO => 1e2 | DEKA => 1e1
  | DECI => 1e-1 | CENTI => 1e-2 | MILI => 1e-3 | MICRO => 1e-6 | NANO => 1e-9
  end%float.

(** The loop of [si_prefix_to_base_from_str]: the state is
    [(prefix, multiplier)]. *)
Definition si_scan_step (name : string) (st : option string * float) (item : SI_PREFIX)
  : option string * float :=
  if negb (Str.contains (name_lower item) name) then st
  else (Some (name_lower item), prefix_value item).

Definition si_scan (name : string) : option string * float :=
  foldl (si_scan_step name) (None, 1%float) SI_PREFIX_members.

Definition si_prefix_to_base_from_str (name : string) (value : ndarray)
  : ndarray * string :=
  let '(prefix, multiplier) := si_scan name in
  match prefix with
  | None => (value, name)
  | Some prefix => (Np.scale value multiplier, Str.replace name prefix "")
  end.

(** What a caller can pass as [prefix]: a member of [SI_PREFIX], or an
    object of another type (the member's name, its factor, ...). *)
Inductive prefix_arg : Type :=
| Member (item : SI_PREFIX)
| NotMember.

Definition si_prefix_to_base (prefix : prefix_arg) (value : ndarray) : result ndarray :=
  match prefix with
  | Member item => Ok (Np.scale value (prefix_value item))
  | NotMember => Raise ValueError
  end.

Definition si_base_to_prefix (prefix : prefix_arg) (value : ndarray) : result ndarray :=
  match prefix with
  | Member item => Ok (Np.divide value (prefix_value item))
  | NotMember => Raise ValueError
  end.

(** ** dict_utils.py *)

Definition _RAD_STR : string := "_rad".
Definition _DEG_STR : string := "_deg".

Definition dict_to_3d_array (results : list (string * ndarray)) : result ndarray :=
  let val_list :=
    foldl (fun val_list kv =>
             val_list ++ [Np.expand_dims0 (Np.transpose (snd kv))]) [] results in
  Np.concatenate val_list.

(** The loop of [add_first_timestamps]; unpacking [base, idx = elems]
    raises [ValueError] unless there are exactly two pieces. *)
Fixpoint first_timestamps_loop (items out_dict : list (string * ndarray))
  : result (list (string * ndarray)) :=
  match items with
  | [] => Ok out_dict
  | (key, val) :: rest =>
      let elems := Str.rsplit key "__" in
      if decide (length elems = 1)
      then
        rbind (Np.column0 val) (fun col =>
        first_timestamps_loop rest
          (Dict.set (String.append key "0") (Np.reshape_col col) out_dict))
      else
        match elems with
        | [base; idx] =>
            rbind (Np.column0 val) (fun col =>
            first_timestamps_loop rest
              (Dict.set (String.append base (String.append "0__" idx))
                        (Np.reshape_col col) out_dict))
        | _ => Raise ValueError
        end
  end.

Definition add_first_timestamps (data : list (string * ndarray))
  : result (list (string * ndarray)) :=
  rbind (first_timestamps_loop data []) (fun out_dict =>
  Ok (Dict.union out_dict data)).

Definition add_si_base_keys_to_dict (data : list (string * ndarray))
  : list (string * ndarray) :=
  let out_dict :=
    foldl (fun out_dict kv =>
             let '(new_val, new_key) := si_prefix_to_base_from_str (fst kv) (snd kv) in
             Dict.set new_key new_val out_dict) [] data in
  Dict.union out_dict data.

Definition add_deg_keys_from_rad (data : list (string * ndarray))
  : list (string * ndarray) :=
  let out_dict :=
    foldl (fun out_dict kv =>
             if Str.contains _RAD_STR (fst kv)
             then Dict.set (Str.replace (fst kv) _RAD_STR _DEG_STR)
                           (Np.degrees (snd kv)) out_dict
             else out_dict) [] data in
  Dict.union out_dict data.

Definition preprocess_data (data_tuple : list (list (string * ndarray)))
  : list (list (string * ndarray)) :=
  foldl (fun new_data elem =>
           let new_elem := add_si_base_keys_to_dict elem in
           let new_elem := add_deg_keys_from_rad elem in
           new_data ++ [new_elem]) [] data_tuple.

(** An [Iterable]: a tuple or list can be walked again, a generator is
    used up by the first walk. *)
Inductive iterable (A : Type) : Type :=
| Sequence (items : list A)
| Generator (items : list A).
Arguments Sequence {A} items.
Arguments Generator {A} items.

(** One [for] loop over the iterable: what it yields and what is left. *)
Definition iterate {A} (it : iterable A) : list A * iterable A :=
  match it with
  | Sequence l => (l, Sequence l)
  | Generator l => (l, Generator [])
  end.

(** [set.union] applied to the unpacked [set_list]: it needs at least
    one set. *)
Definition set_union_star (set_list : list (gset string)) : result (gset string) :=
  match set_list with
  | [] => Raise TypeError
  | s :: rest => Ok (foldl union s rest)
  end.

Definition merge_dictionaries (dict_tuple : iterable (list (string * ndarray)))
  : result (list (string * ndarray)) :=
  let '(elems, dict_tuple) := iterate dict_tuple in
  let set_list := map (fun elem => list_to_set (Dict.keys elem) : gset string) elems in
  let set_lengths := map (fun elem : gset string => size elem) set_list in
  rbind (set_union_star set_list) (fun u =>
  if negb (bool_decide (size u = sum_list set_lengths))
  then Raise SharedKeyError
  else
    let '(elems, _) := iterate dict_tuple in
    Ok (foldl (fun out_dict elem => Dict.union out_dict elem) [] elems)).


(** * Vocabulary of the properties *)

(** ** Records and their keys *)

Fixpoint to_list (fs : fields) : list (string * field_val) :=
  match fs with
  | FNil => []
  | FCons f v rest => (f, v) :: to_list rest
  end.

(** The key under which [parse_message] stores a field. *)
Definition key_of (field : string) (raw_val : field_val) : string :=
  match raw_val with
  | FHeader _ _ => "stamp_s"
  | _ => field
  end.

Definition keys_of (l : list (string * field_val)) : list string :=
  (fun fv => key_of (fst fv) (snd fv)) <$> l.

Definition field_keys (fs : fields) : list string :=
  (fun fv => key_of (fst fv) (snd fv)) <$> to_list fs.

Definition is_leaf (x : field_val) : bool :=
  match x with
  | FHeader _ _ | FNumber _ | FArray _ | FNDArray _ => true
  | FMessage _ | FOther => false
  end.

(** The accumulation of one leaf value onto the prior entry of its key. *)
Definition accumulate (x : field_val) (prior : pyobj) : result pyobj :=
  match x with
  | FHeader sec nanosec => parse_time_stamp sec nanosec prior
  | FNumber v => parse_scalar v prior
  | FArray vals => parse_array vals prior
  | FNDArray decoded => parse_ndarray decoded prior
  | FMessage _ | FOther => Raise TypeError
  end.

(** ** Heaps *)

(** A reference is valid when the heap holds its table. *)
Definition valid (h : heap) (v : pyobj) : Prop :=
  match v with
  | VDict l => l < length h
  | _ => True
  end.

(** The lowest location a call working on [v] can write to. *)
Definition lo (h : heap) (v : pyobj) : nat :=
  match v with
  | VDict l => l
  | _ => length h
  end.

(** Nested tables are allocated after the table that holds them, so in the
    heaps the parser builds every reference points to a younger table. *)
Definition upward (h : heap) : Prop :=
  forall l t k l', h !! l = Some t -> Dict.get k t = Some (VDict l') ->
    l < l' /\ l' < length h.

(** Tables stay and only gain keys. *)
Definition grows (h h' : heap) : Prop :=
  forall l t, h !! l = Some t ->
    exists t', h' !! l = Some t' /\ Dict.keys t ⊆ Dict.keys t'.

(** The tables older than [n] are the same in both heaps. *)
Definition same_below (n : nat) (h h' : heap) : Prop :=
  forall l, l < n -> h' !! l = h !! l.

(** What a call of [parse_field] on the entry [old] leaves behind, and the
    same for [message_loop] on the table [d]: only younger tables are
    written, and references still point upward. *)
Definition field_frame (x : field_val) : Prop :=
  forall f old d h h' r,
    upward h -> valid h old ->
    parse_field x f old d h = (h', r) ->
    grows h h' /\ same_below (lo h old) h h' /\ upward h' /\
    forall f' v, r = Ok (f', v) ->
      f' = key_of f x /\ forall l', v = VDict l' -> lo h old <= l' /\ l' < length h'.

Definition loop_frame (fs : fields) : Prop :=
  forall d h h' r,
    upward h -> valid h d ->
    message_loop fs d h = (h', r) ->
    grows h h' /\ same_below (lo h d) h h' /\ upward h' /\
    forall v, r = Ok v -> v = d.

(** The table [t'] at [l] after the fields [done] were processed on the
    prior table [t]: its keys, the entries left alone, the leaves, and
    the nested records. *)
Definition table_post (l : loc) (t : table) (h' : heap) (t' : table)
    (done : list (string * field_val)) : Prop :=
  (forall k, k ∈ Dict.keys t' <-> k ∈ Dict.keys t \/ k ∈ keys_of done) /\
  (forall k, k ∉ keys_of done -> Dict.get k t' = Dict.get k t) /\
  (forall f x, (f, x) ∈ done -> is_leaf x = true ->
     exists v, Dict.get (key_of f x) t' = Some v /\
       accumulate x (default VNone (Dict.get (key_of f x) t)) = Ok v) /\
  (forall f m, (f, FMessage m) ∈ done -> m <> FNil ->
     exists l' tm, Dict.get f t' = Some (VDict l') /\ l < l' /\
       h' !! l' = Some tm /\ field_keys m ⊆ Dict.keys tm).

(** ** The reader *)

(** The reader as the specification words it: the channel's current
    table, or an empty one on the channel's first record, goes to the
    flattener, and any failure ends the read. *)
Fixpoint read_loop_spec (bag : list bag_record) (ros_data_dict : list (string * pyobj))
  : M (list (string * pyobj)) :=
  match bag with
  | [] => ret ros_data_dict
  | (topic, decoded) :: rest =>
      let* msg := lift decoded in
      let* in_dict :=
        match Dict.get topic ros_data_dict with
        | Some current => ret current
        | None => new_dict
        end in
      let* val := parse_message msg in_dict in
      read_loop_spec rest (Dict.set topic val ros_data_dict)
  end.

Definition parse_topics_spec (bag : list bag_record) : M (list (string * pyobj)) :=
  read_loop_spec bag [].

(** [code] lets through what [spec] does: the same tables, or a failure
    whenever [spec] fails. *)
Definition surfaces {A} (spec code : list (list (string * pyobj)) * result A) : Prop :=
  match spec with
  | (h1, Ok a) => code = (h1, Ok a)
  | (_, Raise _) => exists h2 e, code = (h2, Raise e)
  end.

Definition raises {A} (run : list (list (string * pyobj)) * result A) : Prop :=
  exists h e, run = (h, Raise e).

(** A [KeyError] raised while a record is accumulated comes from decoding
    one of its tensors, so it is raised again whatever table the same
    record is accumulated onto. *)
Definition loop_reraises (fs : fields) : Prop :=
  forall d h h', message_loop fs d h = (h', Raise KeyError) ->
    forall d2 h2, raises (message_loop fs d2 h2).

Definition field_reraises (x : field_val) : Prop :=
  forall f old d h h', parse_field x f old d h = (h', Raise KeyError) ->
    forall f2 old2 d2 h2, raises (parse_field x f2 old2 d2 h2).

(** One turn of the reader: the [try] statement of [parse_topics]. *)
Definition accumulate_try (ros_data_dict : list (string * pyobj)) (topic : string)
    (msg : fields) : M pyobj :=
  try_except_KeyError
    (let* in_dict := lift (getitem ros_data_dict topic) in
     parse_message msg in_dict)
    (let* in_dict := new_dict in
     parse_message msg in_dict).

(** ** Table post-processing *)

(** The number of separators [rsplit] finds in a key. *)
Definition separators (key : string) : nat := length (Str.rsplit key "__") - 1.

(** The path [add_first_timestamps] synthesizes for a key. *)
Definition first_name (key : string) : result string :=
  match Str.rsplit key "__" with
  | [_] => Ok (String.append key "0")
  | [base; idx] => Ok (String.append base (String.append "0__" idx))
  | _ => Raise ValueError
  end.

(** The members whose lowercase name occurs in [name], in scan order, and
    the last of them. *)
Definition matching (name : string) : list SI_PREFIX :=
  filter (fun item => Str.contains (name_lower item) name = true) SI_PREFIX_members.

Definition last_match (name : string) : option SI_PREFIX := last (matching name).

(** Every table shares no key with any table after it. *)
Fixpoint pairwise_disjoint (ds : list (list (string * ndarray))) : Prop :=
  match ds with
  | [] => True
  | d :: rest =>
      (forall d' k, d' ∈ rest -> k ∈ Dict.keys d -> k ∉ Dict.keys d') /\
      pairwise_disjoint rest
  end.

(** [set(elem.keys())] *)
Definition key_set (elem : list (string * ndarray)) : gset string :=
  list_to_set (Dict.keys elem).

(** ** Series of records *)

(** The accumulation of the successive values of one leaf, record after
    record, onto the prior entry of its key. *)
Definition series {A} (parse : A -> pyobj -> result pyobj) (values : list A)
    (prior : pyobj) : result pyobj :=
  foldl (fun acc x => rbind acc (parse x)) (Ok prior) values.

(** A record with a header and one scalar field, built from the seconds,
    the nanoseconds and the value; and the time stamp of such a record. *)
Definition stamped_record (hname field : string) (s : Z * Z * float) : fields :=
  mk_msg [(hname, FHeader s.1.1 s.1.2); (field, FNumber s.2)].

Definition stamp_of (s : Z * Z * float) : float :=
  PrimFloat.add (float_of_Z s.1.1) (PrimFloat.mul (float_of_Z s.1.2) 1e-9%float).

(** The slice a tensor contributes to a leaf whose slices have shape [s]:
    its data, or sentinels when it is empty. *)
Definition slice_of (s : list nat) (t : ndarray) : list float :=
  if decide (Np.size t = 0) then replicate (foldr Nat.mul 1 s) sentinel else data t.

(** The row a sequence contributes to a leaf whose rows have [n] elements:
    itself, or sentinels when it is empty. *)
Definition row_of (n : nat) (r : list float) : list float :=
  match r with
  | [] => replicate n sentinel
  | _ :: _ => r
  end.

(** The topics of a bag in the order in which they are first seen. *)
Definition first_seen (topics : list string) : list string :=
  foldl (fun acc k => if decide (k ∈ acc) then acc else acc ++ [k]) [] topics.

(** ** Kinds of fields *)

(** A record all of whose fields, at any depth, are of a kind that
    [parse_message] has a branch for. *)
Fixpoint supported (fs : fields) : bool :=
  match fs with
  | FNil => true
  | FCons _ x rest => supported_val x && supported rest
  end
with supported_val (x : field_val) : bool :=
  match x with
  | FOther => false
  | FMessage m => supported m
  | FHeader _ _ | FNumber _ | FArray _ | FNDArray _ => true
  end.

(** ** Channels *)

(** A record without nested records: every field is a leaf. *)
Definition flat_record (fs : fields) : Prop :=
  forall f x, (f, x) ∈ to_list fs -> is_leaf x = true.

(** The records of one topic, in their order in the bag. *)
Definition on_topic (topic : string) (bag : list bag_record) : list bag_record :=
  filter (fun r => r.1 = topic) bag.

(** What the loop of [parse_message] does to the table it works on when
    the record is flat: each leaf is accumulated onto the entry of its
    key, up to the first failure. *)
Fixpoint leaf_loop (fs : list (string * field_val)) (t : list (string * pyobj))
  : list (string * pyobj) * result unit :=
  match fs with
  | [] => (t, Ok tt)
  | (f, x) :: rest =>
      match accumulate x (default VNone (Dict.get (key_of f x) t)) with
      | Ok v => leaf_loop rest (Dict.set (key_of f x) v t)
      | Raise e => (t, Raise e)
      end
  end.

(** The outcome of a call on the table at [l]. *)
Definition returned (l : loc) (r : result unit) : result pyobj :=
  match r with
  | Ok _ => Ok (VDict l)
  | Raise e => Raise e
  end.

(** The reader's state seen from one topic: nothing before the topic's
    first record, then the topic's entry and its table, alone in a heap. *)
Definition channel (topic : string) (ros_data_dict : list (string * pyobj))
    (h : list (list (string * pyobj)))
  : list (string * pyobj) * list (list (string * pyobj)) :=
  match Dict.get topic ros_data_dict with
  | Some (VDict l) =>
      match h !! l with
      | Some t => ([(topic, VDict 0)], [t])
      | None => ([], [])
      end
  | _ => ([], [])
  end.

(** Every entry of the reader's result is a table of the heap, and no two
    topics have the same table. *)
Definition separate (ros_data_dict : list (string * pyobj))
    (h : list (list (string * pyobj))) : Prop :=
  (forall k v, Dict.get k ros_data_dict = Some v -> exists l, v = VDict l /\ l < length h) /\
  (forall k1 k2 l, Dict.get k1 ros_data_dict = Some (VDict l) ->
     Dict.get k2 ros_data_dict = Some (VDict l) -> k1 = k2).

(** A table all of whose entries are arrays. *)
Definition array_table (arrays : list (string * ndarray)) : list (string * pyobj) :=
  (fun kv => (kv.1, VArr kv.2)) <$> arrays.

(** ** Synthesized entries *)

(** The tables [add_deg_keys_from_rad] and [add_si_base_keys_to_dict] put
    before the original one hold the entry [conv] makes of each item that
    has one. *)
Definition synthesized (conv : string * ndarray -> option (string * ndarray))
    (out_dict data : list (string * ndarray)) : list (string * ndarray) :=
  foldl (fun out_dict kv =>
           match conv kv with
           | Some (k, v) => Dict.set k v out_dict
           | None => out_dict
           end) out_dict data.

Definition deg_entry (kv : string * ndarray) : option (string * ndarray) :=
  if Str.contains _RAD_STR kv.1
  then Some (Str.replace kv.1 _RAD_STR _DEG_STR, Np.degrees kv.2)
  else None.

Definition si_entry (kv : string * ndarray) : option (string * ndarray) :=
  let '(new_val, new_key) := si_prefix_to_base_from_str kv.1 kv.2 in
  Some (new_key, new_val).

(** ** Inputs of the examples *)

(** A record with a header and a scalar [speed], in either order. *)
Definition speed_record (hname : string) (header_first : bool) (sec : Z) (speed : float)
  : fields :=
  if header_first
  then mk_msg [(hname, FHeader sec 0); ("speed", FNumber speed)]
  else mk_msg [("speed", FNumber speed); (hname, FHeader sec 0)].

(** A record with a scalar and a nested record. *)
Definition pose_record : fields :=
  mk_msg [("a", FNumber 2); ("pose", FMessage (mk_msg [("x", FNumber 1)]))].

(** A record whose second field is of no supported kind. *)
Definition failing_record : fields :=
  mk_msg [("a", FNumber 2); ("s", FOther)].

(** A heap with one table, which holds one value of the scalar [a]. *)
Definition one_scalar_heap : heap :=
  [[("a", VArr (Np.array [1]%float))]].

Definition empty_tensor : ndarray := mk_ndarray [0] [].

Definition two_rows : ndarray := mk_ndarray [2; 2] [1; 2; 3; 4]%float.

Definition kilo_table : list (string * ndarray) :=
  [("kilo_x", mk_ndarray [1; 2] [1; 2]%float);
   ("yaw_rad", mk_ndarray [1; 1] [1]%float)].

Definition table_a : list (string * ndarray) := [("a", mk_ndarray [1] [1]%float)].
Definition table_a' : list (string * ndarray) := [("a", mk_ndarray [1] [2]%float)].
Definition table_b : list (string * ndarray) := [("b", mk_ndarray [1] [2]%float)].

(** ** Nested tables as values *)

(** The value a table entry stands for once its references are followed:
    [None], an array, or a table whose entries are such values. *)
#[warnings="-register-all"] Inductive tree : Type :=
| TNone
| TArr (a : ndarray)
| TDict (entries : list (string * tree)).

(** The prior entry as the leaf parsers see it; of a table they only see
    that it is one. *)
Definition as_obj (T : tree) : pyobj :=
  match T with
  | TNone => VNone
  | TArr a => VArr a
  | TDict _ => VDict 0
  end.

Definition of_obj (v : pyobj) : tree :=
  match v with
  | VNone => TNone
  | VArr a => TArr a
  | VDict _ => TDict []
  end.

(** [repr h T v fp]: in the heap [h] the object [v] stands for the value
    [T], and [fp] is the set of the tables that hold it.  The tables of
    two entries of a table are disjoint and a table does not hold itself:
    the entry is tree-shaped, with no table shared. *)
Fixpoint repr (h : list (list (string * pyobj))) (T : tree) (v : pyobj)
    (fp : gset nat) {struct T} : Prop :=
  match T with
  | TNone => v = VNone /\ fp = ∅
  | TArr a => v = VArr a /\ fp = ∅
  | TDict es =>
      exists l t fpe,
        v = VDict l /\ h !! l = Some t /\ (l ∉ fpe) /\ fp = {[l]} ∪ fpe /\
        (fix entries (es : list (string * tree)) (t : list (string * pyobj))
             (fpe : gset nat) {struct es} : Prop :=
           match es, t with
           | [], [] => fpe = ∅
           | (k, T') :: es', (k', v') :: t' =>
               k' = k /\
               exists fp1 fp2,
                 repr h T' v' fp1 /\ entries es' t' fp2 /\ fp1 ## fp2 /\ fpe = fp1 ∪ fp2
           | _, _ => False
           end) es t fpe
  end.

(** The same for the entries of a table, one by one. *)
Fixpoint repr_entries (h : list (list (string * pyobj))) (es : list (string * tree))
    (t : list (string * pyobj)) (fpe : gset nat) {struct es} : Prop :=
  match es, t with
  | [], [] => fpe = ∅
  | (k, T') :: es', (k', v') :: t' =>
      k' = k /\
      exists fp1 fp2,
        repr h T' v' fp1 /\ repr_entries h es' t' fp2 /\ fp1 ## fp2 /\ fpe = fp1 ∪ fp2
  | _, _ => False
  end.

(** What a call leaves of the heap: it may add tables, and it writes only
    to the tables of its argument and to the ones it adds. *)
Definition extends (h h' : list (list (string * pyobj))) (fp fp' : gset nat) : Prop :=
  length h <= length h' /\
  (forall x, x ∈ fp' -> x ∈ fp \/ length h <= x) /\
  (forall x, x < length h -> x ∉ fp -> h' !! x = h !! x).

(** One turn of the loop of [parse_message]: the prior entry is read, the
    field parsed, and the value stored. *)
Definition field_step (raw_val : field_val) (field : string) (in_dict : pyobj) : M unit :=
  let* old_entry := obj_get in_dict field in
  let* (field', val) := parse_field raw_val field old_entry in_dict in
  obj_set in_dict field' val.

(** The loop of [parse_message] on values.  A leaf puts the accumulated
    value under its key.  A nested record works on the prior entry under
    its name, on an empty table if there is none, and what it did to a
    prior table stays in it when it fails.  The outcome comes with the
    value the table stands for afterwards.  That [message_loop] does to
    a tree-shaped heap what [tree_loop] does to its value is proved as
    [loop_refines_all]. *)
Definition tree_leaf (key : string) (r : result pyobj) (es : list (string * tree))
  : list (string * tree) * result unit :=
  match r with
  | Ok v => (Dict.set key (of_obj v) es, Ok tt)
  | Raise e => (es, Raise e)
  end.

Fixpoint tree_loop (fs : fields) (d : tree) : tree * result unit :=
  match fs with
  | FNil => (d, Ok tt)
  | FCons field raw_val rest =>
      match d with
      | TDict es =>
          match tree_step raw_val field es with
          | (es1, Ok _) => tree_loop rest (TDict es1)
          | (es1, Raise e) => (TDict es1, Raise e)
          end
      | TNone | TArr _ => (d, Raise AttributeError)
      end
  end
with tree_step (raw_val : field_val) (field : string) (es : list (string * tree))
  : list (string * tree) * result unit :=
  match raw_val with
  | FHeader sec nanosec =>
      tree_leaf "stamp_s"
        (parse_time_stamp sec nanosec (as_obj (default TNone (Dict.get "stamp_s" es)))) es
  | FNumber v =>
      tree_leaf field (parse_scalar v (as_obj (default TNone (Dict.get field es)))) es
  | FArray vals =>
      tree_leaf field (parse_array vals (as_obj (default TNone (Dict.get field es)))) es
  | FNDArray decoded =>
      tree_leaf field (parse_ndarray decoded (as_obj (default TNone (Dict.get field es)))) es
  | FMessage m =>
      match default TNone (Dict.get field es) with
      | TNone =>
          match tree_loop m (TDict []) with
          | (sub, Ok _) => (Dict.set field sub es, Ok tt)
          | (_, Raise e) => (es, Raise e)
          end
      | old =>
          match tree_loop m old with
          | (sub, Ok _) => (Dict.set field sub es, Ok tt)
          | (sub, Raise e) => (Dict.set field sub es, Raise e)
          end
      end
  | FOther => (es, Raise AttributeError)
  end.

(** The keys of the fields are distinct, in the record and in every
    record nested in it. *)
Fixpoint nested_distinct (fs : fields) : Prop :=
  match fs with
  | FNil => True
  | FCons _ x rest => val_distinct x /\ nested_distinct rest
  end
with val_distinct (x : field_val) : Prop :=
  match x with
  | FMessage m => NoDup (field_keys m) /\ nested_distinct m
  | _ => True
  end.

Definition distinct_keys (fs : fields) : Prop :=
  NoDup (field_keys fs) /\ nested_distinct fs.

(** The prior table of a nested record: the prior entry under its name
    when that is a table, an empty table when there is no entry. *)
Definition prior_table (f : string) (es : list (string * tree)) : list (string * tree) :=
  match Dict.get f es with
  | Some (TDict sub) => sub
  | _ => []
  end.

(** What a record has done to a table, [es] before and [es'] after.  A
    leaf's entry is the accumulation of its value onto the prior entry of
    its key.  A nested record's entry is a table: the prior table under
    its name with, in turn, the keys of the nested record added, its
    other entries kept, and each of its fields done to it. *)
Fixpoint each_field (fs : fields) (es es' : list (string * tree)) : Prop :=
  match fs with
  | FNil => True
  | FCons f x rest => field_post x f es es' /\ each_field rest es es'
  end
with field_post (x : field_val) (f : string) (es es' : list (string * tree)) : Prop :=
  match x with
  | FMessage m =>
      match Dict.get f es with
      | Some (TArr a) => Dict.get f es' = Some (TArr a)
      | _ =>
          exists sub',
            Dict.get f es' = Some (TDict sub') /\
            (forall k, k ∈ Dict.keys sub' <->
               k ∈ Dict.keys (prior_table f es) \/ k ∈ field_keys m) /\
            (forall k, k ∉ field_keys m ->
               Dict.get k sub' = Dict.get k (prior_table f es)) /\
            each_field m (prior_table f es) sub'
      end
  | FOther => False
  | FHeader _ _ | FNumber _ | FArray _ | FNDArray _ =>
      exists v,
        Dict.get (key_of f x) es' = Some (of_obj v) /\
        accumulate x (as_obj (default TNone (Dict.get (key_of f x) es))) = Ok v
  end.

Definition nested_post (fs : fields) (es es' : list (string * tree)) : Prop :=
  (forall k, k ∈ Dict.keys es' <-> k ∈ Dict.keys es \/ k ∈ field_keys fs) /\
  (forall k, k ∉ field_keys fs -> Dict.get k es' = Dict.get k es) /\
  each_field fs es es'.

(** The heap and the values, side by side.  One turn of the loop on a
    tree-shaped table does to the heap what [tree_step] does to the value
    of the table, and the loop does what [tree_loop] does; both leave a
    tree-shaped table and write to no table outside it. *)
Definition step_refines (x : field_val) : Prop :=
  forall f l h t es fpe h' r,
    h !! l = Some t -> repr_entries h es t fpe -> l ∉ fpe ->
    field_step x f (VDict l) h = (h', r) ->
    exists es' t' fpe',
      tree_step x f es = (es', r) /\ h' !! l = Some t' /\
      repr_entries h' es' t' fpe' /\ (l ∉ fpe') /\
      extends h h' ({[l]} ∪ fpe) ({[l]} ∪ fpe').

Definition loop_refines (fs : fields) : Prop :=
  forall d h T fp h' r,
    repr h T d fp -> message_loop fs d h = (h', r) ->
    exists T' fp' r0,
      tree_loop fs T = (T', r0) /\
      r = match r0 with Ok _ => Ok d | Raise e => Raise e end /\
      repr h' T' d fp' /\ extends h h' fp fp'.

(** What a successful loop, and a successful turn, have done when the keys
    are distinct. *)
Definition loop_post (fs : fields) : Prop :=
  forall es T',
    NoDup (field_keys fs) -> nested_distinct fs ->
    tree_loop fs (TDict es) = (T', Ok tt) ->
    exists es', T' = TDict es' /\ nested_post fs es es'.

Definition step_post (x : field_val) : Prop :=
  forall f es es',
    val_distinct x -> tree_step x f es = (es', Ok tt) -> field_post x f es es'.

(** A heap whose first table holds a scalar and a nested table, and the
    values the tables of the examples stand for. *)
Definition nested_heap : list (list (string * pyobj)) :=
  [[("a", VArr (Np.array [1]%float)); ("pose", VDict 1)];
   [("x", VArr (Np.array [5]%float)); ("y", VArr (Np.array [7]%float))]].

Definition nested_value : list (string * tree) :=
  [("a", TArr (Np.array [1]%float));
   ("pose", TDict [("x", TArr (Np.array [5]%float)); ("y", TArr (Np.array [7]%float))])].

Definition one_scalar_value : list (string * tree) :=
  [("a", TArr (Np.array [1]%float))].

(** * Properties *)

(** ** Results *)

Lemma rbind_ok {A B} (r : result A) (k : A -> result B) (b : B) :
  rbind r k = Ok b -> exists a, r = Ok a /\ k a = Ok b.
Proof. destruct r as [a|e]; simpl; [eauto | discriminate]. Qed.

Lemma rbind_raise {A B} (r : result A) (k : A -> result B) (e : exn) :
  rbind r k = Raise e -> r = Raise e \/ exists a, r = Ok a /\ k a = Raise e.
Proof. destruct r as [a|e']; simpl; [eauto | intros [= ->]; auto]. Qed.

(** ** Dictionaries *)

Module DictFacts.
Section facts.
Context {V : Type}.
Implicit Types (d a b : list (string * V)) (k : string) (v : V).

Lemma get_set_eq k v d : Dict.get k (Dict.set k v d) = Some v.
Proof.
  induction d as [|[k' v'] d IH]; csimpl.
  - by rewrite decide_True.
  - destruct (decide (k' = k)) as [->|Hne]; csimpl.
    + by rewrite decide_True.
    + by rewrite decide_False.
Qed.

Lemma get_set_ne k k' v d : k <> k' -> Dict.get k' (Dict.set k v d) = Dict.get k' d.
Proof.
  intros Hne. induction d as [|[k0 v0] d IH]; csimpl.
  - by rewrite decide_False.
  - destruct (decide (k0 = k)) as [->|Hne0]; csimpl.
    + by rewrite !decide_False.
    + by rewrite IH.
Qed.

Lemma get_set k k' v d :
  Dict.get k' (Dict.set k v d) = if decide (k = k') then Some v else Dict.get k' d.
Proof.
  destruct (decide (k = k')) as [->|Hne]; [apply get_set_eq | by apply get_set_ne].
Qed.

Lemma get_None k d : Dict.get k d = None <-> k ∉ Dict.keys d.
Proof.
  unfold Dict.keys. induction d as [|[k' v'] d IH]; csimpl.
  - split; [intros _; apply not_elem_of_nil | done].
  - rewrite not_elem_of_cons. destruct (decide (k' = k)) as [->|Hne].
    + split; [done | intros [? _]; done].
    + rewrite IH. split; [intros ?; split; [congruence | done] | tauto].
Qed.

Lemma get_Some_in k v d : Dict.get k d = Some v -> (k, v) ∈ d.
Proof.
  induction d as [|[k' v'] d IH]; csimpl; [done|].
  destruct (decide (k' = k)) as [->|Hne].
  - intros [= ->]. apply list_elem_of_here.
  - intros H. apply list_elem_of_further. auto.
Qed.

Lemma in_get_Some k v d : NoDup (Dict.keys d) -> (k, v) ∈ d -> Dict.get k d = Some v.
Proof.
  unfold Dict.keys. induction d as [|[k' v'] d IH]; csimpl.
  - intros _ H. by apply elem_of_nil in H.
  - intros Hnd Hin. apply NoDup_cons in Hnd as [Hk' Hnd].
    apply elem_of_cons in Hin as [[= -> ->]|Hin].
    + by rewrite decide_True.
    + rewrite decide_False; [auto|].
      intros ->. apply Hk'. apply list_elem_of_fmap. by exists (k, v).
Qed.

Lemma is_Some_get k d : is_Some (Dict.get k d) <-> k ∈ Dict.keys d.
Proof.
  destruct (Dict.get k d) as [v|] eqn:E.
  - split; [intros _ | by eauto].
    destruct (decide (k ∈ Dict.keys d)) as [|Hn]; [done|].
    apply get_None in Hn. congruence.
  - split; [by intros [? ?] | intros Hin]. by apply get_None in E.
Qed.

Lemma keys_set k v d :
  Dict.keys (Dict.set k v d) =
  if decide (k ∈ Dict.keys d) then Dict.keys d else Dict.keys d ++ [k].
Proof.
  unfold Dict.keys. induction d as [|[k' v'] d IH]; csimpl.
  - done.
  - destruct (decide (k' = k)) as [->|Hne]; csimpl.
    + rewrite decide_True; [done | apply list_elem_of_here].
    + rewrite IH. destruct (decide (k ∈ d.*1)) as [Hin|Hnin].
      * rewrite decide_True; [done | by apply list_elem_of_further].
      * rewrite decide_False; [done|].
        rewrite not_elem_of_cons. split; [congruence | done].
Qed.

Lemma elem_of_keys_set k k' v d :
  k' ∈ Dict.keys (Dict.set k v d) <-> k' = k \/ k' ∈ Dict.keys d.
Proof.
  rewrite keys_set. case_decide as Hin.
  - split; [auto | intros [->|?]; done].
  - rewrite elem_of_app, list_elem_of_singleton. tauto.
Qed.

Lemma NoDup_keys_set k v d : NoDup (Dict.keys d) -> NoDup (Dict.keys (Dict.set k v d)).
Proof.
  intros Hnd. rewrite keys_set. case_decide as Hin; [done|].
  apply NoDup_app. split_and!; [done | | apply NoDup_singleton].
  intros x Hx ->%list_elem_of_singleton. done.
Qed.

Lemma get_snoc k k' v d :
  Dict.get k (d ++ [(k', v)]) =
  match Dict.get k d with
  | Some w => Some w
  | None => if decide (k' = k) then Some v else None
  end.
Proof.
  induction d as [|[k0 v0] d IH]; simpl; [done|].
  destruct (decide (k0 = k)); [done | apply IH].
Qed.

(** After [a | b] a key holds the last value [b] gives it, else that of [a]. *)
Lemma get_union_rev k a b :
  Dict.get k (Dict.union a b) =
  match Dict.get k (rev b) with
  | Some v => Some v
  | None => Dict.get k a
  end.
Proof.
  unfold Dict.union. revert a. induction b as [|[k' v'] b IH]; intros a; csimpl; [done|].
  rewrite IH, get_snoc, get_set.
  destruct (Dict.get k (rev b)); [done|]. by destruct (decide (k' = k)).
Qed.

Lemma get_rev k d : NoDup (Dict.keys d) -> Dict.get k (rev d) = Dict.get k d.
Proof.
  unfold Dict.keys. induction d as [|[k' v'] d IH]; csimpl; [done|].
  intros [Hk' Hnd]%NoDup_cons. rewrite get_snoc, IH by done.
  destruct (decide (k' = k)) as [->|Hne]; [|by destruct (Dict.get k d)].
  assert (Dict.get k d = None) as ->; [|done].
  by apply get_None.
Qed.

(** [a | b]: the right operand wins. *)
Lemma get_union k a b :
  NoDup (Dict.keys b) ->
  Dict.get k (Dict.union a b) =
  match Dict.get k b with
  | Some v => Some v
  | None => Dict.get k a
  end.
Proof. intros Hnd. by rewrite get_union_rev, get_rev. Qed.

Lemma elem_of_keys_union k a b :
  k ∈ Dict.keys (Dict.union a b) <-> k ∈ Dict.keys a \/ k ∈ Dict.keys b.
Proof.
  unfold Dict.union. revert a. induction b as [|[k' v'] b IH]; intros a; csimpl.
  - split; [auto | intros [?|H]; [done | by apply elem_of_nil in H]].
  - rewrite IH, elem_of_keys_set. unfold Dict.keys. csimpl.
    rewrite (elem_of_cons (b.*1)). tauto.
Qed.

Lemma NoDup_keys_union a b :
  NoDup (Dict.keys a) -> NoDup (Dict.keys (Dict.union a b)).
Proof.
  unfold Dict.union. revert a. induction b as [|[k' v'] b IH]; intros a Ha; csimpl; [done|].
  apply IH. by apply NoDup_keys_set.
Qed.

End facts.
End DictFacts.

(** ** Strings *)

Example rsplit_two_pieces : Str.rsplit "vel__left" "__" = ["vel"; "left"].
Proof. reflexivity. Qed.

(** [rsplit] looks for the separator from the right end. *)
Example rsplit_from_the_right : Str.rsplit "a___b" "__" = ["a_"; "b"].
Proof. reflexivity. Qed.

Example rsplit_three_pieces : Str.rsplit "a__b__c" "__" = ["a"; "b"; "c"].
Proof. reflexivity. Qed.

Example rsplit_one_piece : Str.rsplit "vel" "__" = ["vel"].
Proof. reflexivity. Qed.

Example replace_all_occurrences : Str.replace "kilo_kilo_x" "kilo" "" = "__x".
Proof. reflexivity. Qed.

Example replace_no_overlap : Str.replace "aaa" "aa" "b" = "ba".
Proof. reflexivity. Qed.

Example replace_empty_old : Str.replace "abc" "" "-" = "-a-b-c-".
Proof. reflexivity. Qed.

Example contains_inside : Str.contains "_rad" "yaw_rad_s" = true.
Proof. reflexivity. Qed.

Example partition_first_occurrence :
  Str.partition "kilo" "a_kilo_kilo" = Some ("a_", "_kilo").
Proof. reflexivity. Qed.

Module StrFacts.

#[local] Arguments String.append !_ _ / : simpl nomatch.

Lemma append_nil_r s : String.append s "" = s.
Proof. induction s as [|c s IH]; [done|]. cbn. by rewrite IH. Qed.

Lemma append_assoc a b c :
  String.append (String.append a b) c = String.append a (String.append b c).
Proof. induction a as [|x a IH]; [done|]. cbn. by rewrite IH. Qed.

Lemma append_cons c a b : String.append (String c a) b = String c (String.append a b).
Proof. done. Qed.

Lemma startswith_refl_app p s : Str.startswith p (String.append p s) = true.
Proof.
  induction p as [|c p IH]; [done|]. cbn. by rewrite Ascii.eqb_refl.
Qed.

Lemma drop_app p s : Str.drop (String.length p) (String.append p s) = s.
Proof. induction p as [|c p IH]; [by destruct s|]. done. Qed.

(** A recorded skip is a drop. *)
Lemma replace_go_skip old new k s :
  Str.replace_go old new k s = Str.replace_go old new 0 (Str.drop k s).
Proof.
  revert k. induction s as [|c s IH]; intros [|k]; try done.
  simpl. apply IH.
Qed.

Lemma split_go_skip sep k s :
  Str.split_go sep k s = Str.split_go sep 0 (Str.drop k s).
Proof.
  revert k. induction s as [|c s IH]; intros [|k]; try done.
  simpl. apply IH.
Qed.

Lemma drop_succ_cons n c s : Str.drop (S n) (String c s) = Str.drop n s.
Proof. done. Qed.

(** [replace] takes out the first occurrence and goes on in the same way
    with what follows it. *)
Lemma replace_partition c0 old0 new s :
  Str.replace s (String c0 old0) new =
  match Str.partition (String c0 old0) s with
  | None => s
  | Some (a, b) =>
      String.append a (String.append new (Str.replace b (String c0 old0) new))
  end.
Proof.
  change (Str.replace s (String c0 old0) new)
    with (Str.replace_go (String c0 old0) new 0 s).
  induction s as [|c s IH]; [done|].
  cbn [Str.replace_go Str.partition].
  destruct (Str.startswith (String c0 old0) (String c s)) eqn:Hsw.
  - rewrite replace_go_skip. cbn [String.length]. rewrite Nat.sub_succ, Nat.sub_0_r.
    done.
  - rewrite IH. by destruct (Str.partition (String c0 old0) s) as [[a b]|].
Qed.

Lemma split_partition c0 sep0 s :
  Str.split s (String c0 sep0) =
  match Str.partition (String c0 sep0) s with
  | None => [s]
  | Some (a, b) => a :: Str.split b (String c0 sep0)
  end.
Proof.
  unfold Str.split.
  induction s as [|c s IH]; [done|].
  cbn [Str.split_go Str.partition].
  destruct (Str.startswith (String c0 sep0) (String c s)) eqn:Hsw.
  - rewrite split_go_skip. cbn [String.length]. rewrite Nat.sub_succ, Nat.sub_0_r.
    cbn [Str.drop]. by destruct (Str.split_go _ 0 _).
  - destruct (Str.split_go (String c0 sep0) 0 s) as [p ps].
    destruct (Str.partition (String c0 sep0) s) as [[a b]|].
    + by injection IH as -> ->.
    + by injection IH as -> ->.
Qed.

Lemma partition_app sep s a b :
  Str.partition sep s = Some (a, b) ->
  s = String.append a (String.append sep b).
Proof.
  revert a b. induction s as [|c s IH]; intros a b; cbn [Str.partition].
  - destruct (Str.startswith sep "") eqn:Hsw; [|done].
    destruct sep; [|done]. by intros [= <- <-].
  - destruct (Str.startswith sep (String c s)) eqn:Hsw.
    + intros [= <- <-]. cbn. clear IH. revert c s Hsw.
      induction sep as [|x sep IHsep]; intros c s Hsw; [done|].
      cbn in Hsw. destruct (Ascii.eqb x c) eqn:Hx; [|done].
      apply Ascii.eqb_eq in Hx as ->. cbn. f_equal.
      destruct s as [|c' s]; [by destruct sep|]. by apply IHsep.
    + destruct (Str.partition sep s) as [[a' b']|]; [|done].
      intros [= <- <-]. cbn. f_equal. by apply IH.
Qed.

Lemma partition_None sep s :
  Str.partition sep s = None <-> Str.contains sep s = false.
Proof.
  induction s as [|c s IH]; cbn [Str.partition Str.contains].
  - destruct (Str.startswith sep ""); [by split|]. by split.
  - destruct (Str.startswith sep (String c s)); [by split|]. simpl.
    rewrite <- IH. by destruct (Str.partition sep s) as [[a b]|].
Qed.

Lemma partition_unfold sep s :
  Str.partition sep s =
  if Str.startswith sep s then Some (EmptyString, Str.drop (String.length sep) s)
  else
    match s with
    | EmptyString => None
    | String c s' =>
        match Str.partition sep s' with
        | Some (a, b) => Some (String c a, b)
        | None => None
        end
    end.
Proof. by destruct s. Qed.

Lemma length_append a b :
  String.length (String.append a b) = String.length a + String.length b.
Proof. induction a as [|c a IH]; [done|]. cbn. by rewrite IH. Qed.

(** [startswith] looks at no more characters than the prefix has. *)
Lemma startswith_app p x y :
  String.length p <= String.length x ->
  Str.startswith p (String.append x y) = Str.startswith p x.
Proof.
  revert x. induction p as [|a p IH]; intros x Hlen; [done|].
  destruct x as [|b x]; [cbn in Hlen; lia|].
  cbn. destruct (Ascii.eqb a b); [|done]. apply IH. cbn in Hlen. lia.
Qed.

(** Where the first occurrence of [sep] stands does not depend on what
    follows it. *)
Lemma partition_first sep a b b' :
  Str.partition sep (String.append a (String.append sep b)) = Some (a, b) ->
  Str.partition sep (String.append a (String.append sep b')) = Some (a, b').
Proof.
  induction a as [|c a IH].
  - intros _. cbn [String.append]. rewrite partition_unfold.
    by rewrite startswith_refl_app, drop_app.
  - cbn [String.append]. rewrite !(partition_unfold sep (String c _)).
    rewrite <- !append_cons, <- !append_assoc.
    rewrite !(startswith_app sep (String.append (String c a) sep))
      by (rewrite length_append; cbn; lia).
    destruct (Str.startswith sep _); [done|].
    rewrite !append_assoc.
    destruct (Str.partition sep (String.append a (String.append sep b)))
      as [[a1 b1]|] eqn:Hp; [|done].
    intros [= -> ->]. by rewrite IH.
Qed.

Lemma rev_app_append s acc :
  String.rev_app s acc = String.append (String.rev s) acc.
Proof.
  unfold String.rev. revert acc. induction s as [|c s IH]; intros acc; [done|].
  cbn [String.rev_app]. rewrite (IH (String c acc)), (IH (String c "")).
  by rewrite append_assoc.
Qed.

Lemma rev_cons c s : String.rev (String c s) = String.append (String.rev s) (String c "").
Proof. unfold String.rev at 1. cbn [String.rev_app]. apply rev_app_append. Qed.

Lemma rev_append a b :
  String.rev (String.append a b) = String.append (String.rev b) (String.rev a).
Proof.
  induction a as [|c a IH]; [by rewrite append_nil_r|].
  cbn [String.append]. by rewrite !rev_cons, IH, append_assoc.
Qed.

Lemma rev_involutive s : String.rev (String.rev s) = s.
Proof.
  induction s as [|c s IH]; [done|]. by rewrite rev_cons, rev_append, IH.
Qed.

Lemma rev_inj a b : String.rev a = String.rev b -> a = b.
Proof. intros H. by rewrite <- (rev_involutive a), H, rev_involutive. Qed.

(** The pieces [rsplit] finds for the separator ["__"], read off the
    mirrored key. *)
Lemma rsplit_cases key :
  match Str.partition "__" (String.rev key) with
  | None => Str.rsplit key "__" = [key]
  | Some (a, b) =>
      key = String.append (String.rev b) (String.append "__" (String.rev a)) /\
      match Str.partition "__" b with
      | None => Str.rsplit key "__" = [String.rev b; String.rev a]
      | Some _ => 3 <= length (Str.rsplit key "__")
      end
  end.
Proof.
  unfold Str.rsplit. change (String.rev "__") with "__".
  rewrite split_partition.
  destruct (Str.partition "__" (String.rev key)) as [[a b]|] eqn:Hp.
  - split.
    + apply partition_app in Hp. apply rev_inj. rewrite Hp.
      by rewrite !rev_append, !rev_involutive, append_assoc.
    + rewrite split_partition. destruct (Str.partition "__" b) as [[a1 b1]|]; [|done].
      simpl. rewrite !length_app, length_rev, length_map. simpl.
      destruct (Str.split b1 "__") eqn:Hs; [|simpl; lia].
      unfold Str.split in Hs. by destruct (Str.split_go "__" 0 b1).
  - simpl. by rewrite rev_involutive.
Qed.

End StrFacts.

(** ** Array and tensor leaves *)

Example column0_of_rows :
  Np.column0 two_rows = Ok (mk_ndarray [2] [1; 3]%float).
Proof. reflexivity. Qed.

Example column0_one_axis : Np.column0 (Np.array [1; 2]%float) = Raise IndexError.
Proof. reflexivity. Qed.

Example row_stack_second_record :
  Np.row_stack (Np.array [1; 2]%float) (Np.array [3; 4]%float)
  = Ok (mk_ndarray [2; 2] [1; 2; 3; 4]%float).
Proof. reflexivity. Qed.

Example degrees_of_one_radian :
  Np.degrees (Np.array [1]%float) = Np.array [57.295779513082323]%float.
Proof. reflexivity. Qed.

(** The three-case rule holds for tensors: [parse_ndarray] seeds a leading
    axis of length one and fills an empty occurrence with a sentinel slice
    of the prior's trailing shape. *)
Lemma parse_ndarray_rule (np_array prior : ndarray) (n : nat) :
  (Np.size np_array = 0 -> parse_ndarray (Ok np_array) VNone = Ok VNone) /\
  (Np.size np_array <> 0 ->
     parse_ndarray (Ok np_array) VNone =
     Ok (VArr (mk_ndarray (1 :: shape np_array) (data np_array)))) /\
  (Np.size np_array = 0 -> shape prior = n :: tail (shape prior) ->
     parse_ndarray (Ok np_array) (VArr prior) =
     Ok (VArr (mk_ndarray (n + 1 :: tail (shape prior))
                 (data prior ++
                  replicate (foldr Nat.mul 1 (tail (shape prior))) sentinel)))) /\
  (Np.size np_array <> 0 -> shape prior = n :: shape np_array ->
     parse_ndarray (Ok np_array) (VArr prior) =
     Ok (VArr (mk_ndarray (n + 1 :: shape np_array) (data prior ++ data np_array)))).
Proof.
  unfold parse_ndarray. simpl. split_and!; intros Hsize.
  - by rewrite decide_True.
  - by rewrite decide_False.
  - intros Hshape. rewrite decide_True by done.
    unfold Np.append0, Np.concatenate0. rewrite Hshape. simpl.
    by rewrite decide_True.
  - intros Hshape. rewrite decide_False by done.
    unfold Np.append0, Np.concatenate0. rewrite Hshape. simpl.
    by rewrite decide_True.
Qed.

(** C2: the three-case rule fails for primitive arrays.  [parse_array]
    seeds the first value without a leading axis of length one, so the
    sentinel slice fabricated for the next, empty, occurrence has the
    wrong shape and stacking it raises [ValueError]: a non-empty, empty,
    non-empty sequence gives no three slices.  The same sequence through
    [parse_ndarray] gives them, the middle one all sentinel. *)
Theorem parse_array_sentinel_sequence :
  parse_array [1; 2]%float VNone = Ok (VArr (mk_ndarray [2] [1; 2]%float)) /\
  rbind (parse_array [1; 2]%float VNone) (parse_array []) = Raise ValueError /\
  rbind (rbind (parse_array [1; 2]%float VNone) (parse_array []))
        (parse_array [3; 4]%float) = Raise ValueError /\
  (exists h e,
     parse_topics
       [("/scan", Ok (mk_msg [("ranges", FArray [1; 2]%float)]));
        ("/scan", Ok (mk_msg [("ranges", FArray [])]));
        ("/scan", Ok (mk_msg [("ranges", FArray [3; 4]%float)]))] [] = (h, Raise e)) /\
  rbind (rbind (parse_ndarray (Ok (Np.array [1; 2]%float)) VNone)
               (parse_ndarray (Ok empty_tensor)))
        (parse_ndarray (Ok (Np.array [3; 4]%float)))
  = Ok (VArr (mk_ndarray [3; 2] [1; 2; sentinel; sentinel; 3; 4]%float)).
Proof. split_and!; [done | done | done | by eexists _, _; vm_compute | done]. Qed.

(** ** Heap invariants of the parser *)

Lemma grows_refl h : grows h h.
Proof. intros l t Hl. by exists t. Qed.

Lemma grows_trans h1 h2 h3 : grows h1 h2 -> grows h2 h3 -> grows h1 h3.
Proof.
  intros H12 H23 l t Hl.
  destruct (H12 l t Hl) as (t2 & Hl2 & Hs2).
  destruct (H23 l t2 Hl2) as (t3 & Hl3 & Hs3).
  exists t3. split; [done | by etrans].
Qed.

Lemma grows_length h h' : grows h h' -> length h <= length h'.
Proof.
  intros Hg. destruct (decide (length h = 0)) as [|Hne]; [lia|].
  destruct (lookup_lt_is_Some_2 h (length h - 1)) as [t Ht]; [lia|].
  destruct (Hg _ _ Ht) as (t' & Ht' & _).
  apply lookup_lt_Some in Ht'. lia.
Qed.

Lemma grows_alloc h : grows h (h ++ [[]]).
Proof.
  intros l t Hl. exists t. split; [|done].
  rewrite lookup_app_l; [done | by eapply lookup_lt_Some].
Qed.

Lemma grows_set h l t k v :
  h !! l = Some t -> grows h (<[l := Dict.set k v t]> h).
Proof.
  intros Hl l0 t0 Hl0. destruct (decide (l = l0)) as [->|Hne].
  - exists (Dict.set k v t). rewrite list_lookup_insert_eq by (by eapply lookup_lt_Some).
    split; [done|]. assert (t0 = t) as -> by congruence.
    intros x Hx. apply DictFacts.elem_of_keys_set. by right.
  - exists t0. by rewrite list_lookup_insert_ne.
Qed.

Lemma same_below_refl n h : same_below n h h.
Proof. by intros l _. Qed.

Lemma same_below_trans n h1 h2 h3 :
  same_below n h1 h2 -> same_below n h2 h3 -> same_below n h1 h3.
Proof. intros H12 H23 l Hl. by rewrite H23, H12. Qed.

Lemma same_below_le n m h h' : n <= m -> same_below m h h' -> same_below n h h'.
Proof. intros Hle H l Hl. apply H. lia. Qed.

Lemma same_below_alloc h : same_below (length h) h (h ++ [[]]).
Proof. intros l Hl. by rewrite lookup_app_l. Qed.

Lemma same_below_set h l t : same_below l h (<[l := t]> h).
Proof. intros l0 Hl0. rewrite list_lookup_insert_ne; [done | lia]. Qed.

Lemma upward_alloc h : upward h -> upward (h ++ [[]]).
Proof.
  intros Hu l t k l' Hl Hk. rewrite length_app. simpl.
  apply lookup_app_Some in Hl as [Hl|[_ Hl]].
  - destruct (Hu _ _ _ _ Hl Hk). lia.
  - apply list_elem_of_lookup_2, list_elem_of_singleton in Hl. by subst t.
Qed.

Lemma upward_set h l t k v :
  upward h -> h !! l = Some t ->
  (forall l', v = VDict l' -> l < l' /\ l' < length h) ->
  upward (<[l := Dict.set k v t]> h).
Proof.
  intros Hu Hl Hv l0 t0 k0 l' Hl0 Hk0. rewrite length_insert.
  destruct (decide (l = l0)) as [->|Hne].
  - rewrite list_lookup_insert_eq in Hl0 by (by eapply lookup_lt_Some).
    injection Hl0 as <-. rewrite DictFacts.get_set in Hk0.
    case_decide; [apply Hv; congruence | by eapply Hu].
  - rewrite list_lookup_insert_ne in Hl0 by done. by eapply Hu.
Qed.

Lemma parse_scalar_not_dict value in_array v l :
  parse_scalar value in_array = Ok v -> v <> VDict l.
Proof. destruct in_array; simpl; intros [= <-]; done. Qed.

Lemma parse_array_not_dict value_array in_array v l :
  parse_array value_array in_array = Ok v -> v <> VDict l.
Proof.
  unfold parse_array. destruct in_array as [|a|l0].
  - case_decide; intros [= <-]; done.
  - intros (r & _ & [= <-])%rbind_ok. done.
  - repeat case_decide; done.
Qed.

Lemma parse_ndarray_not_dict value_ndarray in_ndarray v l :
  parse_ndarray value_ndarray in_ndarray = Ok v -> v <> VDict l.
Proof.
  unfold parse_ndarray. intros (np_array & _ & H)%rbind_ok. revert H.
  destruct in_ndarray as [|a|l0].
  - case_decide; intros [= <-]; done.
  - intros (r & _ & [= <-])%rbind_ok. done.
  - case_decide; done.
Qed.

Lemma loop_frame_nil : loop_frame FNil.
Proof.
  intros d h h' r Hu Hv [= <- <-].
  split_and!; [apply grows_refl | apply same_below_refl | done | by intros v [= <-]].
Qed.

Lemma loop_frame_cons f x rest :
  field_frame x -> loop_frame rest -> loop_frame (FCons f x rest).
Proof.
  intros Hx Hrest d h h' r Hu Hv. simpl. unfold bind at 1, obj_get.
  assert (Htriv : forall e, (h, Raise e) = (h', r) ->
    grows h h' /\ same_below (lo h d) h h' /\ upward h' /\
    forall v : pyobj, r = Ok v -> v = d).
  { intros e [= <- <-].
    split_and!; [apply grows_refl | apply same_below_refl | done | done]. }
  destruct d as [|a|l]; [by apply Htriv..|].
  destruct (h !! l) as [t|] eqn:Hl; [|by apply Htriv].
  set (old := default VNone (Dict.get f t)).
  assert (Hold : valid h old /\ l < lo h old).
  { unfold old. destruct (Dict.get f t) as [[|a|l2]|] eqn:Hg; simpl;
      try (split; [done | by eapply lookup_lt_Some]).
    destruct (Hu _ _ _ _ Hl Hg). done. }
  destruct Hold as [Hvold Hlo].
  unfold bind at 1.
  destruct (parse_field x f old (VDict l) h) as [h1 r1] eqn:Hpf.
  destruct (Hx _ _ _ _ _ _ Hu Hvold Hpf) as (Hg1 & Hs1 & Hu1 & Hr1).
  destruct r1 as [[f' v]|e]; cycle 1.
  { intros [= <- <-]. split_and!; [done | | done | done].
    eapply same_below_le; [|done]. simpl. lia. }
  destruct (Hr1 _ _ eq_refl) as [-> Hv1].
  assert (Hl1 : h1 !! l = Some t) by (rewrite Hs1; done).
  unfold bind at 1, obj_set. rewrite Hl1.
  set (h2 := <[l := Dict.set (key_of f x) v t]> h1).
  intros Hloop.
  assert (Hu2 : upward h2).
  { apply upward_set; [done..|]. intros l' ->. destruct (Hv1 _ eq_refl). lia. }
  assert (Hv2 : valid h2 (VDict l)).
  { simpl. unfold h2. rewrite length_insert. by eapply lookup_lt_Some. }
  destruct (Hrest _ _ _ _ Hu2 Hv2 Hloop) as (Hg3 & Hs3 & Hu3 & Hr3).
  split_and!; [ | | done | done].
  - eapply grows_trans; [done|]. eapply grows_trans; [|done]. by apply grows_set.
  - simpl in *. eapply same_below_trans; [|done].
    eapply same_below_trans; [|apply same_below_set].
    eapply same_below_le; [|done]. lia.
Qed.

Lemma field_frame_leaf (x : field_val) (acc : string -> pyobj -> result pyobj) :
  (forall f old d h, parse_field x f old d h =
     (h, rbind (acc f old) (fun val => Ok (key_of f x, val)))) ->
  (forall f old v l, acc f old = Ok v -> v <> VDict l) ->
  field_frame x.
Proof.
  intros Hrun Hnd f old d h h' r Hu Hv. rewrite Hrun. intros [= <- <-].
  split_and!; [apply grows_refl | apply same_below_refl | done |].
  intros f' v (val & Hacc & [= <- <-])%rbind_ok.
  split; [done|]. intros l' ->. by eapply Hnd in Hacc.
Qed.

Lemma field_frame_message m : loop_frame m -> field_frame (FMessage m).
Proof.
  intros Hm f old d h h' r Hu Hv. simpl. unfold bind at 1.
  destruct old as [|a|l2]; simpl.
  - unfold bind at 1.
    destruct (message_loop m (VDict (length h)) (h ++ [[]])) as [h1 r1] eqn:Hloop.
    assert (Hv0 : valid (h ++ [[]]) (VDict (length h))).
    { simpl. rewrite length_app. simpl. lia. }
    destruct (Hm _ _ _ _ (upward_alloc _ Hu) Hv0 Hloop) as (Hg1 & Hs1 & Hu1 & Hr1).
    assert (Hg : grows h h1) by (eapply grows_trans; [apply grows_alloc | done]).
    assert (Hs : same_below (length h) h h1).
    { eapply same_below_trans; [apply same_below_alloc | done]. }
    apply grows_length in Hg1. rewrite length_app in Hg1. simpl in Hg1.
    destruct r1 as [v|e]; intros [= <- <-]; (split_and!; [done..|]); [|done].
    intros f' v' [= <- <-]. split; [done|]. intros l' ->.
    specialize (Hr1 _ eq_refl) as [= ->]. lia.
  - unfold bind at 1.
    destruct (message_loop m (VArr a) h) as [h1 r1] eqn:Hloop.
    destruct (Hm (VArr a) _ _ _ Hu I Hloop) as (Hg1 & Hs1 & Hu1 & Hr1).
    destruct r1 as [v|e]; intros [= <- <-]; (split_and!; [done..|]); [|done].
    intros f' v' [= <- <-]. split; [done|]. intros l' ->.
    by specialize (Hr1 _ eq_refl).
  - unfold bind at 1.
    destruct (message_loop m (VDict l2) h) as [h1 r1] eqn:Hloop.
    destruct (Hm _ _ _ _ Hu Hv Hloop) as (Hg1 & Hs1 & Hu1 & Hr1).
    apply grows_length in Hg1 as Hlen. simpl in Hv.
    destruct r1 as [v|e]; intros [= <- <-]; (split_and!; [done..|]); [|done].
    intros f' v' [= <- <-]. split; [done|]. intros l' ->.
    specialize (Hr1 _ eq_refl) as [= ->]. lia.
Qed.

Lemma field_frame_other : field_frame FOther.
Proof.
  intros f old d h h' r Hu Hv. simpl. unfold bind at 1.
  destruct old as [|a|l2]; simpl; intros [= <- <-].
  - split_and!; [apply grows_alloc | apply same_below_alloc | by apply upward_alloc | done].
  - split_and!; [apply grows_refl | apply same_below_refl | done | done].
  - split_and!; [apply grows_refl | apply same_below_refl | done | done].
Qed.

Lemma field_frame_header sec nanosec : field_frame (FHeader sec nanosec).
Proof.
  intros f old d h h' r Hu Hv. simpl. unfold bind at 1.
  destruct (obj_get d "stamp_s" h) as [h0 r0] eqn:Hget.
  assert (h0 = h) as ->.
  { unfold obj_get in Hget. destruct d; [congruence| congruence|].
    destruct (h !! l); congruence. }
  destruct r0 as [old'|e]; cycle 1.
  { intros [= <- <-].
    split_and!; [apply grows_refl | apply same_below_refl | done | done]. }
  unfold bind, lift, ret.
  destruct (parse_time_stamp sec nanosec old') as [v|e] eqn:Hp; intros [= <- <-];
    (split_and!; [apply grows_refl | apply same_below_refl | done |]); [|done].
  intros f' v' [= <- <-]. split; [done|]. intros l' ->.
  by eapply parse_scalar_not_dict in Hp.
Qed.

(** The frame of a call holds for every record. *)
Lemma loop_frame_all fs : loop_frame fs.
Proof.
  induction fs using fields_mut with (P0 := field_frame).
  - apply loop_frame_nil.
  - by apply loop_frame_cons.
  - apply field_frame_header.
  - apply (field_frame_leaf _ (fun _ old => parse_scalar v old)).
    + intros f old d h. simpl. unfold bind, lift, ret, rbind. by destruct parse_scalar.
    + intros f old v0 l. apply parse_scalar_not_dict.
  - apply (field_frame_leaf _ (fun _ old => parse_array vals old)).
    + intros f old d h. simpl. unfold bind, lift, ret, rbind. by destruct parse_array.
    + intros f old v0 l. apply parse_array_not_dict.
  - apply (field_frame_leaf _ (fun _ old => parse_ndarray decoded old)).
    + intros f old d h. simpl. unfold bind, lift, ret, rbind. by destruct parse_ndarray.
    + intros f old v0 l. apply parse_ndarray_not_dict.
  - by apply field_frame_message.
  - apply field_frame_other.
Qed.

Lemma field_frame_all x : field_frame x.
Proof.
  destruct x.
  - apply field_frame_header.
  - apply (field_frame_leaf _ (fun _ old => parse_scalar v old)).
    + intros f old d h. simpl. unfold bind, lift, ret, rbind. by destruct parse_scalar.
    + intros f old v0 l. apply parse_scalar_not_dict.
  - apply (field_frame_leaf _ (fun _ old => parse_array vals old)).
    + intros f old d h. simpl. unfold bind, lift, ret, rbind. by destruct parse_array.
    + intros f old v0 l. apply parse_array_not_dict.
  - apply (field_frame_leaf _ (fun _ old => parse_ndarray decoded old)).
    + intros f old d h. simpl. unfold bind, lift, ret, rbind. by destruct parse_ndarray.
    + intros f old v0 l. apply parse_ndarray_not_dict.
  - apply field_frame_message, loop_frame_all.
  - apply field_frame_other.
Qed.

(** ** What [parse_message] leaves in the table it is given *)

Lemma parse_field_leaf x f l h t :
  is_leaf x = true -> h !! l = Some t ->
  parse_field x f (default VNone (Dict.get f t)) (VDict l) h =
  (h, rbind (accumulate x (default VNone (Dict.get (key_of f x) t)))
        (fun v => Ok (key_of f x, v))).
Proof.
  intros Hleaf Hl. destruct x; try done; simpl.
  - unfold bind, obj_get, lift, ret. rewrite Hl. by destruct parse_time_stamp.
  - unfold bind, lift, ret. by destruct parse_scalar.
  - unfold bind, lift, ret. by destruct parse_array.
  - unfold bind, lift, ret. by destruct parse_ndarray.
Qed.

Lemma obj_get_table l f h t :
  h !! l = Some t -> obj_get (VDict l) f h = (h, Ok (default VNone (Dict.get f t))).
Proof. intros Hl. unfold obj_get. by rewrite Hl. Qed.

Lemma obj_set_table l f v h t :
  h !! l = Some t -> obj_set (VDict l) f v h = (<[l := Dict.set f v t]> h, Ok tt).
Proof. intros Hl. unfold obj_set. by rewrite Hl. Qed.

Lemma valid_old h l t f :
  upward h -> h !! l = Some t ->
  valid h (default VNone (Dict.get f t)) /\ l < lo h (default VNone (Dict.get f t)).
Proof.
  intros Hu Hl. destruct (Dict.get f t) as [[|a|l2]|] eqn:Hg; simpl;
    try (split; [done | by eapply lookup_lt_Some]).
  destruct (Hu _ _ _ _ Hl Hg). done.
Qed.

(** One turn of the loop on an existing table. *)
Lemma message_loop_step f x rest l h t h' r :
  upward h -> h !! l = Some t ->
  message_loop (FCons f x rest) (VDict l) h = (h', r) ->
  exists h1 r1,
    parse_field x f (default VNone (Dict.get f t)) (VDict l) h = (h1, r1) /\
    h1 !! l = Some t /\ upward h1 /\ grows h h1 /\
    match r1 with
    | Raise e => h' = h1 /\ r = Raise e
    | Ok (f', v) =>
        f' = key_of f x /\
        (forall l', v = VDict l' -> l < l' /\ l' < length h1) /\
        message_loop rest (VDict l) (<[l := Dict.set f' v t]> h1) = (h', r)
    end.
Proof.
  intros Hu Hl. simpl. unfold bind at 1. rewrite (obj_get_table _ _ _ _ Hl).
  destruct (valid_old h l t f Hu Hl) as [Hvold Hlo].
  unfold bind at 1.
  destruct (parse_field x f _ (VDict l) h) as [h1 r1] eqn:Hpf.
  destruct (field_frame_all x _ _ _ _ _ _ Hu Hvold Hpf) as (Hg1 & Hs1 & Hu1 & Hr1).
  assert (Hl1 : h1 !! l = Some t) by (rewrite Hs1; done).
  intros Hrun. exists h1, r1. split_and!; [done..|].
  destruct r1 as [[f' v]|e]; [|by injection Hrun as <- <-].
  destruct (Hr1 _ _ eq_refl) as [-> Hv1].
  split_and!; [done | |].
  - intros l' ->. destruct (Hv1 _ eq_refl). lia.
  - revert Hrun. unfold bind at 1. by rewrite (obj_set_table _ _ _ _ _ Hl1).
Qed.

(** After a successful loop the table holds a key for every field. *)
Lemma message_loop_keys fs : forall l h t h' v,
  upward h -> h !! l = Some t ->
  message_loop fs (VDict l) h = (h', Ok v) ->
  exists t', h' !! l = Some t' /\ field_keys fs ⊆ Dict.keys t'.
Proof.
  induction fs as [|f x rest IH] using fields_ind; intros l h t h' v Hu Hl Hrun.
  - injection Hrun as <-. exists t. split; [done|]. intros k Hk. by apply elem_of_nil in Hk.
  - destruct (message_loop_step _ _ _ _ _ _ _ _ Hu Hl Hrun)
      as (h1 & r1 & Hpf & Hl1 & Hu1 & Hg1 & Hr1).
    destruct r1 as [[f' v1]|e]; [|by destruct Hr1].
    destruct Hr1 as (-> & Hv1 & Hloop).
    set (t1 := Dict.set (key_of f x) v1 t) in *.
    assert (Hl2 : <[l := t1]> h1 !! l = Some t1).
    { apply list_lookup_insert_eq. by eapply lookup_lt_Some. }
    assert (Hu2 : upward (<[l := t1]> h1)) by (by apply upward_set).
    destruct (IH _ _ _ _ _ Hu2 Hl2 Hloop) as (t' & Hl' & Hsub).
    exists t'. split; [done|].
    destruct (loop_frame_all rest (VDict l) _ _ _ Hu2 (lookup_lt_Some _ _ _ Hl2) Hloop)
      as (Hg & _).
    destruct (Hg _ _ Hl2) as (t'' & Hl'' & Hkeys).
    assert (t'' = t') as -> by congruence.
    unfold field_keys. simpl. intros k [->|Hk]%elem_of_cons.
    + apply Hkeys. apply DictFacts.elem_of_keys_set. by left.
    + by apply Hsub.
Qed.

(** A nested record that has fields is stored as a reference to its own
    table, which holds a key for each of its fields. *)
Lemma parse_field_message m f old d h h1 f' v :
  upward h -> valid h old -> m <> FNil ->
  parse_field (FMessage m) f old d h = (h1, Ok (f', v)) ->
  exists l' tm, v = VDict l' /\ h1 !! l' = Some tm /\ field_keys m ⊆ Dict.keys tm.
Proof.
  intros Hu Hv Hm. simpl. unfold bind at 1.
  destruct old as [|a|l2]; simpl.
  - unfold bind at 1.
    destruct (message_loop m (VDict (length h)) (h ++ [[]])) as [h2 r2] eqn:Hloop.
    destruct r2 as [v2|e]; [|done]. intros [= <- <- <-].
    assert (Hl0 : (h ++ [[]]) !! length h = Some []).
    { by rewrite lookup_app_r, Nat.sub_diag. }
    destruct (loop_frame_all m (VDict (length h)) _ _ _ (upward_alloc _ Hu)
                (lookup_lt_Some _ _ _ Hl0) Hloop) as (_ & _ & _ & Hr).
    specialize (Hr _ eq_refl) as ->.
    destruct (message_loop_keys _ _ _ _ _ _ (upward_alloc _ Hu) Hl0 Hloop)
      as (tm & Hltm & Hsub).
    by exists (length h), tm.
  - destruct m as [|f0 x0 rest0]; [done|]. simpl. by unfold bind at 1 2.
  - unfold bind at 1.
    destruct (message_loop m (VDict l2) h) as [h2 r2] eqn:Hloop.
    destruct r2 as [v2|e]; [|done]. intros [= <- <- <-].
    simpl in Hv. destruct (lookup_lt_is_Some_2 _ _ Hv) as [t2 Hl2].
    destruct (loop_frame_all m (VDict l2) _ _ _ Hu Hv Hloop) as (_ & _ & _ & Hr).
    specialize (Hr _ eq_refl) as ->.
    destruct (message_loop_keys _ _ _ _ _ _ Hu Hl2 Hloop) as (tm & Hltm & Hsub).
    by exists l2, tm.
Qed.

Lemma table_post_nil l t h : table_post l t h t [].
Proof.
  split_and!.
  - intros k. split; [auto | intros [?|H]; [done | by apply elem_of_nil in H]].
  - done.
  - intros f x H. by apply elem_of_nil in H.
  - intros f m H. by apply elem_of_nil in H.
Qed.

(** The loop on an existing table: the fields [done] before the first one
    that fails (all of them when none does) have been written into the
    table itself. *)
Lemma message_loop_table fs : forall l h t h' r,
  upward h -> h !! l = Some t -> NoDup (field_keys fs) ->
  message_loop fs (VDict l) h = (h', r) ->
  exists t' done rest,
    to_list fs = done ++ rest /\ h' !! l = Some t' /\ upward h' /\ grows h h' /\
    match r with
    | Ok v => v = VDict l /\ rest = []
    | Raise _ => rest <> []
    end /\
    table_post l t h' t' done.
Proof.
  induction fs as [|f x rest0 IH] using fields_ind; intros l h t h' r Hu Hl Hnd Hrun.
  { injection Hrun as <- <-. exists t, [], [].
    refine (conj _ (conj _ (conj _ (conj _ (conj _ _)))));
      [done | done | done | apply grows_refl | done | apply table_post_nil]. }
  destruct (message_loop_step _ _ _ _ _ _ _ _ Hu Hl Hrun)
    as (h1 & r1 & Hpf & Hl1 & Hu1 & Hg1 & Hr1).
  destruct r1 as [[f' v1]|e]; cycle 1.
  { destruct Hr1 as [-> ->]. exists t, [], ((f, x) :: to_list rest0).
    refine (conj _ (conj _ (conj _ (conj _ (conj _ _)))));
      [done | done | done | done | done | apply table_post_nil]. }
  destruct Hr1 as (-> & Hv1 & Hloop).
  set (key := key_of f x) in *. set (t1 := Dict.set key v1 t) in *.
  assert (Hl2 : <[l := t1]> h1 !! l = Some t1).
  { apply list_lookup_insert_eq. by eapply lookup_lt_Some. }
  assert (Hu2 : upward (<[l := t1]> h1)) by (by apply upward_set).
  unfold field_keys in Hnd. simpl in Hnd. apply NoDup_cons in Hnd as [Hkey Hnd].
  destruct (IH _ _ _ _ _ Hu2 Hl2 Hnd Hloop)
    as (t' & done' & rest' & Hsplit & Hl' & Hu' & Hg' & Hres & Hk & Hun & Hleaf & Hnest).
  assert (Hg12 : grows h1 h').
  { eapply grows_trans; [by apply grows_set | done]. }
  assert (Hkey' : key ∉ keys_of done').
  { intros Hin. apply Hkey. fold (keys_of (to_list rest0)). rewrite Hsplit.
    unfold keys_of. rewrite fmap_app. apply elem_of_app. by left. }
  assert (Hget : Dict.get key t' = Some v1).
  { rewrite Hun by done. apply DictFacts.get_set_eq. }
  exists t', ((f, x) :: done'), rest'.
  refine (conj _ (conj _ (conj _ (conj _ (conj _ (conj _ (conj _ (conj _ _))))))));
    [by simpl; f_equal | done | done | by eapply grows_trans | done | | | |].
  - intros k. rewrite Hk. unfold t1. rewrite DictFacts.elem_of_keys_set.
    unfold keys_of. simpl. rewrite elem_of_cons. fold key. tauto.
  - intros k Hnk. unfold keys_of in Hnk. simpl in Hnk. fold key in Hnk.
    apply not_elem_of_cons in Hnk as [Hne Hnk].
    rewrite Hun by done. by apply DictFacts.get_set_ne.
  - intros f0 x0 [[= -> ->]|Hin]%elem_of_cons Hlf.
    + exists v1. split; [done|].
      rewrite (parse_field_leaf _ _ _ _ _ Hlf Hl) in Hpf.
      injection Hpf as _ Hpf. apply rbind_ok in Hpf as (v & Hacc & [= <-]). done.
    + destruct (Hleaf _ _ Hin Hlf) as (v & Hgv & Hacc). exists v. split; [done|].
      rewrite <- Hacc. f_equal. f_equal. symmetry. apply DictFacts.get_set_ne.
      intros Heq. apply Hkey'. rewrite Heq.
      apply list_elem_of_fmap. by exists (f0, x0).
  - intros f0 m [[= -> <-]|Hin]%elem_of_cons Hm.
    + destruct (valid_old h l t f Hu Hl) as [Hvold _].
      destruct (parse_field_message _ _ _ _ _ _ _ _ Hu Hvold Hm Hpf)
        as (l' & tm & -> & Hltm & Hsub).
      destruct (Hg12 _ _ Hltm) as (tm' & Hltm' & Hsub').
      exists l', tm'. destruct (Hv1 _ eq_refl).
      split_and!; [done | done | done | by etrans].
    + by apply Hnest.
Qed.

Lemma parse_message_table fs l h t h' r :
  upward h -> h !! l = Some t -> NoDup (field_keys fs) ->
  parse_message fs (VDict l) h = (h', r) ->
  exists t' done rest,
    to_list fs = done ++ rest /\ h' !! l = Some t' /\ upward h' /\ grows h h' /\
    match r with
    | Ok v => v = VDict l /\ rest = []
    | Raise _ => rest <> []
    end /\
    table_post l t h' t' done.
Proof. intros Hu Hl Hnd Hrun. by eapply message_loop_table. Qed.

Lemma upward_one_scalar_heap : upward one_scalar_heap.
Proof.
  intros l t k l' Hl Hk. destruct l as [|l]; [|done].
  injection Hl as <-. simpl in Hk. by case_decide.
Qed.

(** C1, as the specification states it, fails: the leaf [x] of the nested
    record [pose] does not appear under the composed key ["pose/x"]; the
    entry ["pose"] is a reference to a nested table that holds [x]. *)
Lemma parse_message_not_flat :
  exists h' t tp,
    parse_message pose_record (VDict 0) one_scalar_heap = (h', Ok (VDict 0)) /\
    h' !! 0 = Some t /\
    Dict.get "pose/x" t = None /\
    Dict.keys t = ["a"; "pose"] /\
    Dict.get "pose" t = Some (VDict 1) /\
    h' !! 1 = Some tp /\
    Dict.get "x" tp = Some (VArr (Np.array [1]%float)).
Proof.
  eexists _, _, _. split_and!; [by vm_compute | reflexivity | done..].
Qed.

(** C7, as the specification states it, fails: when the second field of a
    record cannot be parsed, the caller's table already holds the value
    accumulated for the first field; and a successful call returns the
    table it was given, not a fresh one. *)
Lemma parse_message_mutates_prior :
  (exists h',
     parse_message failing_record (VDict 0) one_scalar_heap = (h', Raise AttributeError) /\
     one_scalar_heap !! 0 = Some [("a", VArr (Np.array [1]%float))] /\
     h' !! 0 = Some [("a", VArr (Np.array [1; 2]%float))]) /\
  (exists h',
     parse_message (mk_msg [("a", FNumber 2)]) (VDict 0) one_scalar_heap
       = (h', Ok (VDict 0)) /\
     h' !! 0 = Some [("a", VArr (Np.array [1; 2]%float))]).
Proof. split; eexists; split_and!; by vm_compute. Qed.

(** ** The stream reader *)

Lemma obj_get_not_KeyError d f h h' : obj_get d f h <> (h', Raise KeyError).
Proof.
  unfold obj_get. destruct d as [|a|l]; [done..|]. by destruct (h !! l).
Qed.

Lemma obj_set_not_KeyError d f v h h' : obj_set d f v h <> (h', Raise KeyError).
Proof.
  unfold obj_set. destruct d as [|a|l]; [done..|]. by destruct (h !! l).
Qed.

Lemma parse_scalar_not_KeyError value in_array :
  parse_scalar value in_array <> Raise KeyError.
Proof. by destruct in_array. Qed.

Lemma parse_array_not_KeyError value_array in_array :
  parse_array value_array in_array <> Raise KeyError.
Proof.
  unfold parse_array. destruct in_array as [|a|l]; repeat case_decide; try done.
  all: unfold Np.row_stack, Np.concatenate0;
    repeat (case_match; try done); simpl; done.
Qed.

Lemma parse_ndarray_KeyError value_ndarray in_ndarray :
  parse_ndarray value_ndarray in_ndarray = Raise KeyError ->
  value_ndarray = Raise KeyError.
Proof.
  unfold parse_ndarray. destruct value_ndarray as [np_array|e]; simpl; [|congruence].
  destruct in_ndarray as [|a|l]; repeat case_decide; try done.
  all: unfold Np.append0, Np.concatenate0;
    repeat (case_match; try done); simpl; done.
Qed.

Lemma raises_bind {A B} (m : M A) (k : A -> M B) h :
  raises (m h) -> raises (bind m k h).
Proof. intros (h' & e & Hm). unfold bind. rewrite Hm. by exists h', e. Qed.

Lemma raises_bind_k {A B} (m : M A) (k : A -> M B) h :
  (forall h1 a, m h = (h1, Ok a) -> raises (k a h1)) -> raises (bind m k h).
Proof.
  intros Hk. unfold bind. destruct (m h) as [h1 [a|e]] eqn:Hm; [by apply Hk|].
  by exists h1, e.
Qed.

Lemma bind_raise_inv {A B} (m : M A) (k : A -> M B) h h' e :
  bind m k h = (h', Raise e) ->
  m h = (h', Raise e) \/ exists h1 a, m h = (h1, Ok a) /\ k a h1 = (h', Raise e).
Proof.
  unfold bind. destruct (m h) as [h1 [a|e1]]; [by eauto|].
  intros [= <- <-]. by left.
Qed.

Lemma loop_reraises_all fs : loop_reraises fs.
Proof.
  induction fs using fields_mut with (P0 := field_reraises).
  - intros d h h' H. done.
  - intros d h h' Hrun d2 h2. simpl in *.
    apply bind_raise_inv in Hrun as [Hrun|(h1 & old & _ & Hrun)];
      [by apply obj_get_not_KeyError in Hrun|].
    apply raises_bind_k. intros h3 old2 _.
    apply bind_raise_inv in Hrun as [Hrun|(h4 & [f' v] & _ & Hrun)].
    { apply raises_bind. by eapply IHfs. }
    apply raises_bind_k. intros h5 [f2 v2] _.
    apply bind_raise_inv in Hrun as [Hrun|(h6 & [] & _ & Hrun)];
      [by apply obj_set_not_KeyError in Hrun|].
    apply raises_bind_k. intros h7 [] _. by eapply IHfs0.
  - intros f old d h h' Hrun. simpl in Hrun. exfalso.
    apply bind_raise_inv in Hrun as [Hrun|(h1 & old' & _ & Hrun)];
      [by apply obj_get_not_KeyError in Hrun|].
    apply bind_raise_inv in Hrun as [Hrun|(h2 & val & _ & Hrun)]; [|done].
    injection Hrun as _ Hrun. by apply parse_scalar_not_KeyError in Hrun.
  - intros f old d h h' Hrun. simpl in Hrun. exfalso.
    apply bind_raise_inv in Hrun as [Hrun|(h2 & val & _ & Hrun)]; [|done].
    injection Hrun as _ Hrun. by apply parse_scalar_not_KeyError in Hrun.
  - intros f old d h h' Hrun. simpl in Hrun. exfalso.
    apply bind_raise_inv in Hrun as [Hrun|(h2 & val & _ & Hrun)]; [|done].
    injection Hrun as _ Hrun. by apply parse_array_not_KeyError in Hrun.
  - intros f old d h h' Hrun f2 old2 d2 h2. simpl in *.
    apply bind_raise_inv in Hrun as [Hrun|(h1 & val & _ & Hrun)]; [|done].
    injection Hrun as _ Hrun. apply parse_ndarray_KeyError in Hrun as ->.
    by exists h2, KeyError.
  - intros f old d h h' Hrun f2 old2 d2 h2. simpl in *.
    apply bind_raise_inv in Hrun as [Hrun|(h1 & sub & _ & Hrun)].
    { by destruct old. }
    apply raises_bind_k. intros h3 sub2 _.
    apply bind_raise_inv in Hrun as [Hrun|(h4 & val & _ & Hrun)]; [|done].
    apply raises_bind. by eapply IHfs.
  - intros f old d h h' Hrun f2 old2 d2 h2. simpl.
    apply raises_bind_k. intros h3 sub2 _. by exists h3, AttributeError.
Qed.

Lemma parse_message_reraises msg in_dict h h' :
  parse_message msg in_dict h = (h', Raise KeyError) ->
  forall in_dict2 h2, raises (parse_message msg in_dict2 h2).
Proof.
  unfold parse_message. intros Hrun in_dict2 h2.
  apply bind_raise_inv in Hrun as [Hrun|(h1 & d & _ & Hrun)]; [by destruct in_dict|].
  apply raises_bind_k. intros h3 d2 _. by eapply loop_reraises_all.
Qed.

Lemma read_loop_cons topic decoded rest ros h :
  read_loop ((topic, decoded) :: rest) ros h =
  match decoded with
  | Raise e => (h, Raise e)
  | Ok msg =>
      match accumulate_try ros topic msg h with
      | (h1, Ok val) => read_loop rest (Dict.set topic val ros) h1
      | (h1, Raise e) => (h1, Raise e)
      end
  end.
Proof. by destruct decoded. Qed.

Lemma read_loop_spec_cons topic decoded rest ros h :
  read_loop_spec ((topic, decoded) :: rest) ros h =
  match decoded with
  | Raise e => (h, Raise e)
  | Ok msg =>
      match
        match Dict.get topic ros with
        | Some current => parse_message msg current h
        | None => parse_message msg (VDict (length h)) (h ++ [[]])
        end
      with
      | (h1, Ok val) => read_loop_spec rest (Dict.set topic val ros) h1
      | (h1, Raise e) => (h1, Raise e)
      end
  end.
Proof. destruct decoded; [|done]. simpl. unfold bind, lift. by destruct (Dict.get topic ros). Qed.

Lemma accumulate_try_first ros topic msg h :
  Dict.get topic ros = None ->
  accumulate_try ros topic msg h = parse_message msg (VDict (length h)) (h ++ [[]]).
Proof.
  intros Hget. unfold accumulate_try, try_except_KeyError, getitem, bind at 1, lift.
  by rewrite Hget.
Qed.

Lemma accumulate_try_next ros topic msg h current :
  Dict.get topic ros = Some current ->
  accumulate_try ros topic msg h =
  match parse_message msg current h with
  | (h1, Raise KeyError) => parse_message msg (VDict (length h1)) (h1 ++ [[]])
  | run => run
  end.
Proof.
  intros Hget. unfold accumulate_try, try_except_KeyError, getitem, bind at 1, lift.
  rewrite Hget. by destruct (parse_message msg current h) as [h1 [v|[]]].
Qed.

Lemma read_loop_surfaces bag : forall ros h,
  surfaces (read_loop_spec bag ros h) (read_loop bag ros h).
Proof.
  induction bag as [|[topic decoded] rest IH]; intros ros h; [done|].
  rewrite read_loop_cons, read_loop_spec_cons.
  destruct decoded as [msg|e]; [|by exists h, e].
  destruct (Dict.get topic ros) as [current|] eqn:Hget.
  - rewrite (accumulate_try_next _ _ _ _ _ Hget).
    destruct (parse_message msg current h) as [h2 [val|e]] eqn:Hp; [apply IH|].
    destruct (decide (e = KeyError)) as [->|Hne].
    + destruct (parse_message_reraises _ _ _ _ Hp (VDict (length h2)) (h2 ++ [[]]))
        as (h3 & e & ->). by exists h3, e.
    + exists h2, e. by destruct e.
  - rewrite (accumulate_try_first _ _ _ _ Hget).
    destruct (parse_message msg _ _) as [h3 [val|e]] eqn:Hp; [apply IH|].
    by exists h3, e.
Qed.

(** The heaps the reader builds keep every reference pointing upward, the
    shape the properties of [parse_message] below ask of the heap. *)
Lemma parse_message_frame msg d h h' r :
  upward h -> valid h d ->
  parse_message msg d h = (h', r) ->
  upward h' /\ length h <= length h' /\ forall v, r = Ok v -> valid h' v.
Proof.
  intros Hu Hv. unfold parse_message, bind at 1.
  destruct d as [|a|l]; simpl.
  - intros Hrun.
    assert (Hv0 : valid (h ++ [[]]) (VDict (length h))).
    { simpl. rewrite length_app. simpl. lia. }
    destruct (loop_frame_all msg (VDict (length h)) _ _ _ (upward_alloc _ Hu) Hv0 Hrun)
      as (Hg & _ & Hu' & Hr).
    apply grows_length in Hg. rewrite length_app in Hg. simpl in Hg.
    split_and!; [done | lia |]. intros v ->. rewrite (Hr _ eq_refl). simpl. lia.
  - intros Hrun.
    destruct (loop_frame_all msg (VArr a) _ _ _ Hu I Hrun) as (Hg & _ & Hu' & Hr).
    apply grows_length in Hg.
    split_and!; [done | lia |]. intros v ->. by rewrite (Hr _ eq_refl).
  - intros Hrun.
    destruct (loop_frame_all msg (VDict l) _ _ _ Hu Hv Hrun) as (Hg & _ & Hu' & Hr).
    apply grows_length in Hg. simpl in Hv.
    split_and!; [done | lia |]. intros v ->. rewrite (Hr _ eq_refl). simpl. lia.
Qed.

Lemma valid_mono h h' v : length h <= length h' -> valid h v -> valid h' v.
Proof. destruct v; simpl; [done..|lia]. Qed.

Lemma read_loop_upward bag : forall ros h h' r,
  upward h -> (forall k v, Dict.get k ros = Some v -> valid h v) ->
  read_loop bag ros h = (h', r) -> upward h'.
Proof.
  induction bag as [|[topic decoded] rest IH]; intros ros h h' r Hu Hros.
  { by intros [= <- _]. }
  rewrite read_loop_cons. destruct decoded as [msg|e]; [|by intros [= <- _]].
  assert (Hstep : forall d h0 h1 r1,
    upward h0 -> valid h0 d -> length h <= length h0 ->
    parse_message msg d h0 = (h1, r1) ->
    match r1 with
    | Ok val => read_loop rest (Dict.set topic val ros) h1 = (h', r)
    | Raise e => (h1, Raise e : result (list (string * pyobj))) = (h', r)
    end -> upward h').
  { intros d h0 h1 r1 Hu0 Hv0 Hlen Hp.
    destruct (parse_message_frame _ _ _ _ _ Hu0 Hv0 Hp) as (Hu1 & Hlen1 & Hr1).
    destruct r1 as [val|e]; [|by intros [= <- _]].
    apply IH; [done|]. intros k v. rewrite DictFacts.get_set.
    case_decide; [intros [= <-]; by apply Hr1|].
    intros Hk. eapply valid_mono; [|by eapply Hros]. lia. }
  destruct (Dict.get topic ros) as [current|] eqn:Hget.
  - rewrite (accumulate_try_next _ _ _ _ _ Hget).
    destruct (parse_message msg current h) as [h1 r1] eqn:Hp.
    destruct (parse_message_frame _ _ _ _ _ Hu (Hros _ _ Hget) Hp) as (Hu1 & Hlen1 & _).
    assert (Hother : forall r0, r1 = r0 ->
      match r0 with
      | Ok val => read_loop rest (Dict.set topic val ros) h1 = (h', r)
      | Raise e => (h1, Raise e : result (list (string * pyobj))) = (h', r)
      end -> upward h').
    { intros r0 <-. eapply (Hstep current h h1 r1); [done | by eapply Hros | done | done]. }
    destruct r1 as [val|e]; [by apply (Hother (Ok val))|].
    destruct e; try (by eapply (Hother (Raise _))).
    destruct (parse_message msg (VDict (length h1)) (h1 ++ [[]])) as [h2 r2] eqn:Hp2.
    intros Hrun.
    eapply (Hstep (VDict (length h1)) (h1 ++ [[]]) h2 r2);
      [by apply upward_alloc | simpl; rewrite length_app; simpl; lia
      | rewrite length_app; lia | done | by destruct r2].
  - rewrite (accumulate_try_first _ _ _ _ Hget).
    destruct (parse_message msg (VDict (length h)) (h ++ [[]])) as [h2 r2] eqn:Hp2.
    intros Hrun.
    eapply (Hstep (VDict (length h)) (h ++ [[]]) h2 r2);
      [by apply upward_alloc | simpl; rewrite length_app; simpl; lia
      | rewrite length_app; lia | done | by destruct r2].
Qed.

(** Every heap [parse_topics] produces, from the empty one, has that shape. *)
Lemma parse_topics_upward (bag : list bag_record) :
  upward (fst (parse_topics bag [])).
Proof.
  destruct (parse_topics bag []) as [h' r] eqn:Hrun. simpl.
  eapply (read_loop_upward bag [] []); [|done|done].
  intros l t k l' Hl. done.
Qed.

(** C3: a channel with three records, each holding a scalar field [speed]
    (1.0, 2.0, 3.0) and a header time stamp (seconds 10, 11, 12, zero
    nanoseconds), is parsed into exactly the table
    [{"speed": [1.0, 2.0, 3.0], "stamp_s": [10.0, 11.0, 12.0]}], whatever
    the header field is called and wherever it stands in the record; and a
    time stamp is accumulated as the scalar [sec + nanosec * 1e-9]. *)
Theorem parse_topics_speed_stamp (topic hname : string) (header_first : bool) :
  (exists t,
     parse_topics
       [(topic, Ok (speed_record hname header_first 10 1));
        (topic, Ok (speed_record hname header_first 11 2));
        (topic, Ok (speed_record hname header_first 12 3))] []
     = ([t], Ok [(topic, VDict 0)]) /\
     Dict.get "speed" t = Some (VArr (Np.array [1; 2; 3]%float)) /\
     Dict.get "stamp_s" t = Some (VArr (Np.array [10; 11; 12]%float)) /\
     Dict.get hname t = (if decide (hname = "stamp_s") then Dict.get "stamp_s" t
                         else if decide (hname = "speed") then Dict.get "speed" t
                         else None) /\
     length t = 2) /\
  (forall sec nanosec in_array,
     parse_time_stamp sec nanosec in_array =
     parse_scalar (float_of_Z sec + float_of_Z nanosec * 1e-9)%float in_array).
Proof.
  split; [|done].
  unfold parse_topics. rewrite read_loop_cons.
  rewrite accumulate_try_first by done.
  destruct header_first.
  - exists [("stamp_s", VArr (Np.array [10; 11; 12]%float));
            ("speed", VArr (Np.array [1; 2; 3]%float))].
    change (parse_message (speed_record hname true 10 1) (VDict (length [])) ([] ++ [[]]))
      with ([[("stamp_s", VArr (Np.array [10]%float)); ("speed", VArr (Np.array [1]%float))]],
            Ok (VDict 0)).
    cbv iota beta. rewrite read_loop_cons.
    rewrite (accumulate_try_next _ _ _ _ _ (DictFacts.get_set_eq _ _ _)).
    change (parse_message (speed_record hname true 11 2) (VDict 0) _)
      with ([[("stamp_s", VArr (Np.array [10; 11]%float));
              ("speed", VArr (Np.array [1; 2]%float))]], Ok (VDict 0)).
    cbv iota beta. rewrite read_loop_cons.
    rewrite (accumulate_try_next _ _ _ _ _ (DictFacts.get_set_eq _ _ _)).
    change (parse_message (speed_record hname true 12 3) (VDict 0) _)
      with ([[("stamp_s", VArr (Np.array [10; 11; 12]%float));
              ("speed", VArr (Np.array [1; 2; 3]%float))]], Ok (VDict 0)).
    cbv iota beta. split_and!; [|done|done| |done].
    + simpl. rewrite decide_True by done. simpl. by rewrite decide_True.
    + simpl. repeat case_decide; congruence.
  - exists [("speed", VArr (Np.array [1; 2; 3]%float));
            ("stamp_s", VArr (Np.array [10; 11; 12]%float))].
    change (parse_message (speed_record hname false 10 1) (VDict (length [])) ([] ++ [[]]))
      with ([[("speed", VArr (Np.array [1]%float)); ("stamp_s", VArr (Np.array [10]%float))]],
            Ok (VDict 0)).
    cbv iota beta. rewrite read_loop_cons.
    rewrite (accumulate_try_next _ _ _ _ _ (DictFacts.get_set_eq _ _ _)).
    change (parse_message (speed_record hname false 11 2) (VDict 0) _)
      with ([[("speed", VArr (Np.array [1; 2]%float));
              ("stamp_s", VArr (Np.array [10; 11]%float))]], Ok (VDict 0)).
    cbv iota beta. rewrite read_loop_cons.
    rewrite (accumulate_try_next _ _ _ _ _ (DictFacts.get_set_eq _ _ _)).
    change (parse_message (speed_record hname false 12 3) (VDict 0) _)
      with ([[("speed", VArr (Np.array [1; 2; 3]%float));
              ("stamp_s", VArr (Np.array [10; 11; 12]%float))]], Ok (VDict 0)).
    cbv iota beta. split_and!; [|done|done| |done].
    + simpl. rewrite decide_True by done. simpl. by rewrite decide_True.
    + simpl. repeat case_decide; congruence.
Qed.

(** C8: every failure of decoding or accumulating a record reaches the
    caller of [parse_topics].  Against the reader that stops at any
    failure and hands the channel's current table (an empty one on the
    channel's first record) to [parse_message]: when that reader returns
    tables, [parse_topics] returns the same tables and heap, so no table
    was discarded and rebuilt; when it fails, [parse_topics] fails too.
    A leaf's first empty occurrence is no failure: it gives the absent
    outcome [None]. *)
Theorem parse_topics_failures_surface (bag : list bag_record) (h : heap) :
  match parse_topics_spec bag h with
  | (h1, Ok tables) => parse_topics bag h = (h1, Ok tables)
  | (_, Raise _) => exists h2 e, parse_topics bag h = (h2, Raise e)
  end /\
  parse_array [] VNone = Ok VNone /\
  (forall np_array, Np.size np_array = 0 -> parse_ndarray (Ok np_array) VNone = Ok VNone).
Proof.
  split_and!.
  - apply (read_loop_surfaces bag [] h).
  - done.
  - intros np_array Hsize. unfold parse_ndarray. simpl. by rewrite decide_True.
Qed.

(** ** First-value duplication *)

Module FirstName.

#[local] Arguments String.append !_ _ / : simpl nomatch.

Lemma partition_zero s :
  Str.partition "__" (String "0" s) =
  match Str.partition "__" s with
  | Some (a, b) => Some (String "0" a, b)
  | None => None
  end.
Proof. by rewrite StrFacts.partition_unfold. Qed.

(** The synthesized path of a key, and the pieces of that path. *)
Lemma cases key :
  match Str.partition "__" (String.rev key) with
  | None =>
      Str.rsplit key "__" = [key] /\
      first_name key = Ok (String.append key "0") /\
      Str.rsplit (String.append key "0") "__" = [String.append key "0"]
  | Some (a, b) =>
      match Str.partition "__" b with
      | None =>
          let base := String.rev b in
          let idx := String.rev a in
          key = String.append base (String.append "__" idx) /\
          Str.rsplit key "__" = [base; idx] /\
          first_name key = Ok (String.append base (String.append "0__" idx)) /\
          Str.rsplit (String.append base (String.append "0__" idx)) "__"
          = [String.append base "0"; idx]
      | Some _ => first_name key = Raise ValueError
      end
  end.
Proof.
  pose proof (StrFacts.rsplit_cases key) as Hkey. unfold first_name.
  destruct (Str.partition "__" (String.rev key)) as [[a b]|] eqn:Hp.
  - destruct Hkey as [Hk Hkey].
    destruct (Str.partition "__" b) as [[a1 b1]|] eqn:Hpb.
    + destruct (Str.rsplit key "__") as [|p1 [|p2 [|p3 ps]]]; simpl in Hkey; try lia.
      done.
    + rewrite Hkey. cbv zeta. split_and!; [done..|].
      pose proof (StrFacts.rsplit_cases
        (String.append (String.rev b) (String.append "0__" (String.rev a)))) as Hn.
      rewrite !StrFacts.rev_append, !StrFacts.rev_involutive in Hn.
      change (String.rev "0__") with "__0" in Hn.
      rewrite StrFacts.append_assoc in Hn.
      change (String.append "__0" b) with (String.append "__" (String "0" b)) in Hn.
      apply StrFacts.partition_app in Hp as Hrev. rewrite Hrev in Hp.
      rewrite (StrFacts.partition_first _ _ _ (String "0" b) Hp) in Hn.
      rewrite partition_zero, Hpb in Hn. destruct Hn as [_ Hn].
      rewrite Hn. by rewrite StrFacts.rev_cons.
  - rewrite Hkey. split_and!; [done..|].
    pose proof (StrFacts.rsplit_cases (String.append key "0")) as Hn.
    rewrite StrFacts.rev_append in Hn. change (String.rev "0") with "0" in Hn.
    change (String.append "0" (String.rev key)) with (String "0" (String.rev key)) in Hn.
    by rewrite partition_zero, Hp in Hn.
Qed.

Lemma Ok_inj {A} (a b : A) : Ok a = Ok b -> a = b.
Proof. congruence. Qed.

(** Two keys with at most one separator have different synthesized paths. *)
Lemma inj k1 k2 n : first_name k1 = Ok n -> first_name k2 = Ok n -> k1 = k2.
Proof.
  intros H1 H2. pose proof (cases k1) as C1. pose proof (cases k2) as C2.
  destruct (Str.partition "__" (String.rev k1)) as [[a1 b1]|];
    [destruct (Str.partition "__" b1); [congruence|]|];
  (destruct (Str.partition "__" (String.rev k2)) as [[a2 b2]|];
    [destruct (Str.partition "__" b2); [congruence|]|]); cbv zeta in *.
  - destruct C1 as (-> & _ & F1 & R1), C2 as (-> & _ & F2 & R2).
    rewrite H1 in F1. rewrite H2 in F2. apply Ok_inj in F1, F2.
    rewrite <- F1 in R1. rewrite <- F2, R1 in R2.
    apply (f_equal (map String.rev)) in R2. simpl in R2.
    rewrite !StrFacts.rev_append, !StrFacts.rev_involutive in R2.
    by injection R2 as -> ->.
  - destruct C1 as (_ & _ & F1 & R1), C2 as (_ & F2 & R2).
    rewrite H1 in F1. rewrite H2 in F2. apply Ok_inj in F1, F2.
    rewrite <- F1 in R1. rewrite <- F2, R1 in R2. done.
  - destruct C1 as (_ & F1 & R1), C2 as (_ & _ & F2 & R2).
    rewrite H1 in F1. rewrite H2 in F2. apply Ok_inj in F1, F2.
    rewrite <- F1 in R1. rewrite <- F2, R1 in R2. done.
  - destruct C1 as (_ & F1 & _), C2 as (_ & F2 & _).
    rewrite H1 in F1. rewrite H2 in F2. apply Ok_inj in F1, F2.
    rewrite F1 in F2.
    apply (f_equal String.rev) in F2. rewrite !StrFacts.rev_append in F2.
    injection F2 as F2. by apply StrFacts.rev_inj.
Qed.

End FirstName.

Lemma first_name_shape key name :
  first_name key = Ok name ->
  (separators key = 0 /\ name = String.append key "0") \/
  (separators key = 1 /\ exists base idx,
     key = String.append base (String.append "__" idx) /\
     name = String.append base (String.append "0__" idx)).
Proof.
  intros Hn. pose proof (FirstName.cases key) as Hc. unfold separators.
  destruct (Str.partition "__" (String.rev key)) as [[a b]|].
  - destruct (Str.partition "__" b); [congruence|]. cbv zeta in Hc.
    destruct Hc as (Hk & Hr & Hf & _). right. rewrite Hr. split; [done|].
    exists (String.rev b), (String.rev a). split; [done | congruence].
  - destruct Hc as (Hr & Hf & _). left. rewrite Hr. split; [done | congruence].
Qed.

Lemma first_name_ok key : separators key <= 1 -> is_ok (first_name key) = true.
Proof.
  unfold separators, first_name.
  destruct (Str.rsplit key "__") as [|p1 [|p2 [|p3 ps]]] eqn:Hr; simpl; try done; try lia.
  unfold Str.rsplit in Hr. apply (f_equal (@length string)) in Hr.
  rewrite length_rev, length_map in Hr. unfold Str.split in Hr.
  by destruct (Str.split_go _ 0 _).
Qed.

Lemma first_timestamps_loop_cons key val rest out_dict :
  first_timestamps_loop ((key, val) :: rest) out_dict =
  rbind (first_name key) (fun name =>
  rbind (Np.column0 val) (fun col =>
  first_timestamps_loop rest (Dict.set name (Np.reshape_col col) out_dict))).
Proof.
  simpl. unfold first_name.
  destruct (Str.rsplit key "__") as [|p1 [|p2 [|p3 ps]]]; done.
Qed.

Lemma first_timestamps_loop_total items : forall out_dict,
  (forall k v, (k, v) ∈ items ->
     separators k <= 1 /\ is_ok (Np.column0 v) = true) ->
  is_ok (first_timestamps_loop items out_dict) = true.
Proof.
  induction items as [|[k v] rest IH]; intros out_dict Hall; [done|].
  rewrite first_timestamps_loop_cons.
  destruct (Hall k v (list_elem_of_here _ _)) as [Hsep Hcol].
  apply first_name_ok in Hsep.
  destruct (first_name k) as [name|]; [|done].
  destruct (Np.column0 v) as [col|]; [|done]. simpl.
  apply IH. intros k' v' Hin. apply (Hall k'). by apply list_elem_of_further.
Qed.

Lemma first_timestamps_loop_untouched items n : forall out_dict s,
  first_timestamps_loop items out_dict = Ok s ->
  (forall k v, (k, v) ∈ items -> first_name k <> Ok n) ->
  Dict.get n s = Dict.get n out_dict.
Proof.
  induction items as [|[k v] rest IH]; intros out_dict s Hrun Hno.
  { by injection Hrun as <-. }
  rewrite first_timestamps_loop_cons in Hrun.
  apply rbind_ok in Hrun as (name & Hname & Hrun).
  apply rbind_ok in Hrun as (col & Hcol & Hrun).
  rewrite (IH _ _ Hrun).
  - apply DictFacts.get_set_ne. intros ->.
    by apply (Hno k v (list_elem_of_here _ _)).
  - intros k' v' Hin. apply (Hno k' v'). by apply list_elem_of_further.
Qed.

Lemma first_timestamps_loop_keys items : forall out_dict s,
  first_timestamps_loop items out_dict = Ok s ->
  forall n, n ∈ Dict.keys s <->
    n ∈ Dict.keys out_dict \/ exists k v, (k, v) ∈ items /\ first_name k = Ok n.
Proof.
  induction items as [|[k v] rest IH]; intros out_dict s Hrun n.
  { injection Hrun as <-. split; [auto|].
    intros [?|(k & v & Hin & _)]; [done | by apply elem_of_nil in Hin]. }
  rewrite first_timestamps_loop_cons in Hrun.
  apply rbind_ok in Hrun as (name & Hname & Hrun).
  apply rbind_ok in Hrun as (col & Hcol & Hrun).
  rewrite (IH _ _ Hrun), DictFacts.elem_of_keys_set. split.
  - intros [[->|?]|(k' & v' & Hin & Hn)]; [|by left|].
    + right. exists k, v. split; [apply list_elem_of_here | done].
    + right. exists k', v'. split; [by apply list_elem_of_further | done].
  - intros [?|(k' & v' & [[= -> ->]|Hin]%elem_of_cons & Hn)].
    + by left; right.
    + left; left. congruence.
    + right. by exists k', v'.
Qed.

Lemma first_timestamps_loop_get items : forall out_dict s k v n col,
  NoDup (Dict.keys items) ->
  first_timestamps_loop items out_dict = Ok s ->
  (k, v) ∈ items -> first_name k = Ok n -> Np.column0 v = Ok col ->
  Dict.get n s = Some (Np.reshape_col col).
Proof.
  induction items as [|[k0 v0] rest IH]; intros out_dict s k v n col Hnd Hrun Hin Hn Hcol.
  { by apply elem_of_nil in Hin. }
  unfold Dict.keys in Hnd. csimpl in Hnd. apply NoDup_cons in Hnd as [Hk0 Hnd].
  rewrite first_timestamps_loop_cons in Hrun.
  apply rbind_ok in Hrun as (name & Hname & Hrun).
  apply rbind_ok in Hrun as (col0 & Hcol0 & Hrun).
  apply elem_of_cons in Hin as [[= -> ->]|Hin]; [|by eapply IH].
  rewrite (first_timestamps_loop_untouched _ n _ _ Hrun).
  - assert (name = n) as -> by congruence.
    assert (col0 = col) as -> by congruence.
    apply DictFacts.get_set_eq.
  - intros k' v' Hin' Hn'. apply Hk0.
    rewrite (FirstName.inj _ _ _ Hn Hn').
    apply list_elem_of_fmap. by exists (k', v').
Qed.

(** C6, as the specification states it, fails: for a leaf with two
    recorded slices [[1, 2]] and [[3, 4]] the synthesized entry is the
    column [[1], [3]], the first element of every slice, and not the first
    recorded slice [[1, 2]]. *)
Lemma add_first_timestamps_not_first_slice :
  exists out col first_slice,
    add_first_timestamps [("vel", two_rows)] = Ok out /\
    Dict.get "vel0" out = Some col /\
    col = mk_ndarray [2; 1] [1; 3]%float /\
    Np.slice0 two_rows = Ok first_slice /\
    first_slice = mk_ndarray [2] [1; 2]%float /\
    col <> first_slice.
Proof. eexists _, _, _. split_and!; try reflexivity. done. Qed.

(** C6 (amended): for a table whose keys have at most one ["__"]
    separator and whose arrays have a non-empty second axis,
    [add_first_timestamps] returns the original table together with one
    synthesized entry per leaf.  The synthesized path is the key with a
    literal 0 put after the base name (["vel"] gives ["vel0"],
    ["vel__left"] gives ["vel0__left"]); its entry is the column
    [val[:, 0]], the first element of every slice along the leading axis;
    every original entry is kept, and an original entry wins over a
    synthesized one with the same path. *)
Theorem add_first_timestamps_first_column (data : list (string * ndarray)) :
  NoDup (Dict.keys data) ->
  (forall k v, (k, v) ∈ data ->
     separators k <= 1 /\ is_ok (Np.column0 v) = true) ->
  exists out,
    add_first_timestamps data = Ok out /\
    (forall k v, (k, v) ∈ data -> Dict.get k out = Some v) /\
    (forall k v, (k, v) ∈ data ->
       exists name col,
         first_name k = Ok name /\ Np.column0 v = Ok col /\
         ((separators k = 0 /\ name = String.append k "0") \/
          (separators k = 1 /\ exists base idx,
             k = String.append base (String.append "__" idx) /\
             name = String.append base (String.append "0__" idx))) /\
         name ∈ Dict.keys out /\
         (name ∉ Dict.keys data -> Dict.get name out = Some (Np.reshape_col col))) /\
    (forall n, n ∈ Dict.keys out ->
       n ∈ Dict.keys data \/ exists k, k ∈ Dict.keys data /\ first_name k = Ok n) /\
    first_name "vel" = Ok "vel0" /\
    first_name "vel__left" = Ok "vel0__left".
Proof.
  intros Hnd Hall. unfold add_first_timestamps.
  pose proof (first_timestamps_loop_total data [] Hall) as Htot.
  destruct (first_timestamps_loop data []) as [s|] eqn:Hrun; [|done].
  simpl. eexists. split; [reflexivity|]. split_and!; [| | |done|done].
  - intros k v Hin. rewrite DictFacts.get_union by done.
    by rewrite (DictFacts.in_get_Some _ _ _ Hnd Hin).
  - intros k v Hin. destruct (Hall k v Hin) as [Hsep Hcol].
    apply first_name_ok in Hsep.
    destruct (first_name k) as [name|] eqn:Hname; [|done].
    destruct (Np.column0 v) as [col|] eqn:Hc; [|done].
    exists name, col. split_and!; [done | done | by apply first_name_shape | |].
    + apply DictFacts.elem_of_keys_union. left.
      apply (first_timestamps_loop_keys _ _ _ Hrun). right. by exists k, v.
    + intros Hnot. rewrite DictFacts.get_union by done.
      apply DictFacts.get_None in Hnot. rewrite Hnot.
      by eapply first_timestamps_loop_get.
  - intros n [Hn|Hn]%DictFacts.elem_of_keys_union; [|by left].
    apply (first_timestamps_loop_keys _ _ _ Hrun) in Hn
      as [Hn|(k & v & Hin & Hname)]; [by apply elem_of_nil in Hn|].
    right. exists k. split; [|done]. apply list_elem_of_fmap. by exists (k, v).
Qed.

Lemma add_first_timestamps_first_column_witness :
  exists out,
    add_first_timestamps [("vel", two_rows); ("vel__left", two_rows)] = Ok out /\
    (forall k v, (k, v) ∈ [("vel", two_rows); ("vel__left", two_rows)] ->
       Dict.get k out = Some v).
Proof.
  destruct (add_first_timestamps_first_column
              [("vel", two_rows); ("vel__left", two_rows)]) as (out & Hout & Hkeep & _).
  - unfold Dict.keys. simpl. repeat constructor;
      rewrite ?elem_of_cons, ?elem_of_nil; intuition discriminate.
  - intros k v Hin. rewrite !elem_of_cons, elem_of_nil in Hin.
    destruct Hin as [[= -> ->]|[[= -> ->]|[]]]; split; vm_compute; (reflexivity || lia).
  - exists out. split; [exact Hout | exact Hkeep].
Defined.

Lemma first_timestamps_loop_many key val items : forall out_dict,
  (key, val) ∈ items -> 2 <= separators key ->
  is_ok (first_timestamps_loop items out_dict) = false /\
  ((forall k v, (k, v) ∈ items -> is_ok (Np.column0 v) = true) ->
   first_timestamps_loop items out_dict = Raise ValueError).
Proof.
  unfold separators.
  induction items as [|[k v] rest IH]; intros out_dict Hin Hsep.
  { by apply elem_of_nil in Hin. }
  simpl. apply elem_of_cons in Hin as [[= <- <-]|Hin].
  - rewrite decide_False by lia.
    destruct (Str.rsplit key "__") as [|p1 [|p2 [|p3 ps]]]; simpl in *; try lia.
    done.
  - case_decide as Hlen.
    + destruct (Np.column0 v) as [col|e] eqn:Hcol; simpl.
      * destruct (IH (Dict.set (String.append k "0") (Np.reshape_col col) out_dict)
                    Hin Hsep) as [H1 H2].
        split; [done|]. intros Hall. apply H2. intros k' v' Hin'.
        apply (Hall k'). by apply list_elem_of_further.
      * split; [done|]. intros Hall.
        specialize (Hall k v (list_elem_of_here _ _)). by rewrite Hcol in Hall.
    + destruct (Str.rsplit k "__") as [|p1 [|p2 [|p3 ps]]]; try done.
      destruct (Np.column0 v) as [col|e] eqn:Hcol; simpl.
      * destruct (IH (Dict.set (String.append p1 (String.append "0__" p2))
                               (Np.reshape_col col) out_dict) Hin Hsep) as [H1 H2].
        split; [done|]. intros Hall. apply H2. intros k' v' Hin'.
        apply (Hall k'). by apply list_elem_of_further.
      * split; [done|]. intros Hall.
        specialize (Hall k v (list_elem_of_here _ _)). by rewrite Hcol in Hall.
Qed.

(** C10: a table with a key in which [rsplit] finds two or more ["__"]
    separators makes [add_first_timestamps] raise instead of returning a
    table: the key splits into three or more pieces and the unpacking
    into two fails.  The exception is [ValueError] whenever the arrays of
    the table can be indexed by [[:, 0]]. *)
Theorem add_first_timestamps_too_many_pieces (data : list (string * ndarray))
    (key : string) (val : ndarray) :
  (key, val) ∈ data -> 2 <= separators key ->
  is_ok (add_first_timestamps data) = false /\
  ((forall k v, (k, v) ∈ data -> is_ok (Np.column0 v) = true) ->
   add_first_timestamps data = Raise ValueError).
Proof.
  intros Hin Hsep. unfold add_first_timestamps.
  destruct (first_timestamps_loop_many key val data [] Hin Hsep) as [H1 H2].
  split.
  - by destruct (first_timestamps_loop data []).
  - intros Hall. by rewrite (H2 Hall).
Qed.

Lemma add_first_timestamps_too_many_pieces_witness :
  is_ok (add_first_timestamps [("a__b__c", mk_ndarray [2; 2] [1; 2; 3; 4]%float)]) = false /\
  add_first_timestamps [("a__b__c", mk_ndarray [2; 2] [1; 2; 3; 4]%float)]
  = Raise ValueError.
Proof.
  destruct (add_first_timestamps_too_many_pieces
              [("a__b__c", mk_ndarray [2; 2] [1; 2; 3; 4]%float)]
              "a__b__c" (mk_ndarray [2; 2] [1; 2; 3; 4]%float)
              (list_elem_of_here _ _)
              ltac:(vm_compute; lia)) as [H1 H2].
  split; [exact H1|]. apply H2.
  intros k v Hin. apply list_elem_of_singleton in Hin. by injection Hin as -> ->.
Defined.

(** ** SI-base conversion *)

Lemma si_scan_fold name (l : list SI_PREFIX) : forall st,
  foldl (si_scan_step name) st l =
  match last (filter (fun item => Str.contains (name_lower item) name = true) l) with
  | None => st
  | Some item => (Some (name_lower item), prefix_value item)
  end.
Proof.
  induction l as [|x l IH]; intros st; [done|].
  simpl. rewrite IH, filter_cons. unfold si_scan_step.
  destruct (Str.contains (name_lower x) name) eqn:Hc; simpl.
  - rewrite last_cons. by destruct (last _).
  - done.
Qed.

Lemma si_prefix_scan name value :
  si_prefix_to_base_from_str name value =
  match last_match name with
  | None => (value, name)
  | Some item =>
      (Np.scale value (prefix_value item), Str.replace name (name_lower item) "")
  end.
Proof.
  unfold si_prefix_to_base_from_str, si_scan, last_match, matching.
  rewrite si_scan_fold. by destruct (last _).
Qed.

(** C5, as the specification states it, fails: with the token twice in
    the name, the conversion removes both occurrences, not only the first
    one. *)
Lemma si_prefix_removes_every_occurrence :
  snd (si_prefix_to_base_from_str "kilo_kilo_x" (mk_ndarray [1] [1]%float)) = "__x" /\
  Str.remove_first "kilo_kilo_x" "kilo" = "_kilo_x" /\
  snd (si_prefix_to_base_from_str "kilo_kilo_x" (mk_ndarray [1] [1]%float))
    <> Str.remove_first "kilo_kilo_x" "kilo".
Proof. split_and!; done. Qed.

(** C5 (amended): the conversion scans the prefix tokens in enumeration
    order and applies the last one whose lowercase text occurs anywhere
    in the name: every value is multiplied by that token's factor, and
    every occurrence of the token is removed from the name, the first
    occurrence and, in the same way, the occurrences in what follows it.
    A name with no token is left as it is. *)
Theorem si_prefix_to_base_from_str_last_token (name : string) (value : ndarray) :
  SI_PREFIX_members = [GIGA; MEGA; KILO; HECTO; DEKA; DECI; CENTI; MILI; MICRO; NANO] /\
  match last_match name with
  | None => si_prefix_to_base_from_str name value = (value, name)
  | Some item =>
      Str.contains (name_lower item) name = true /\
      (forall later before, SI_PREFIX_members = before ++ item :: later ->
         forall other, other ∈ later -> Str.contains (name_lower other) name = false) /\
      exists before after,
        Str.partition (name_lower item) name = Some (before, after) /\
        si_prefix_to_base_from_str name value =
        (mk_ndarray (shape value)
           (map (fun x => PrimFloat.mul x (prefix_value item)) (data value)),
         String.append before (Str.replace after (name_lower item) ""))
  end.
Proof.
  split; [done|]. rewrite si_prefix_scan.
  destruct (last_match name) as [item|] eqn:Hlast; [|done].
  unfold last_match in Hlast.
  assert (Hc : Str.contains (name_lower item) name = true).
  { apply last_Some_elem_of in Hlast. unfold matching in Hlast.
    by apply list_elem_of_filter in Hlast as [? _]. }
  split_and!; [done| |].
  - intros later before Hsplit other Hother.
    destruct (Str.contains (name_lower other) name) eqn:Hco; [|done]. exfalso.
    unfold matching in Hlast. rewrite Hsplit in Hlast.
    rewrite filter_app, filter_cons_True in Hlast by done.
    assert (Hin : other ∈ filter (fun i => Str.contains (name_lower i) name = true) later).
    { by apply list_elem_of_filter. }
    rewrite last_app_cons, last_cons in Hlast.
    destruct (last (filter _ later)) as [y|] eqn:Hl.
    + injection Hlast as ->. apply last_Some_elem_of in Hl.
      apply list_elem_of_filter in Hl as [_ Hl].
      assert (Hnd : NoDup SI_PREFIX_members).
      { unfold SI_PREFIX_members. repeat constructor;
          rewrite ?elem_of_cons, ?elem_of_nil; intuition discriminate. }
      rewrite Hsplit in Hnd. apply NoDup_app in Hnd as (_ & _ & Hnd).
      apply NoDup_cons in Hnd as [Hnd _]. by apply Hnd.
    + apply last_None in Hl. rewrite Hl in Hin. by apply elem_of_nil in Hin.
  - destruct (Str.partition (name_lower item) name) as [[before after]|] eqn:Hp.
    + exists before, after. split; [done|]. f_equal.
      destruct item; cbn [name_lower] in *; rewrite StrFacts.replace_partition, Hp; done.
    + apply StrFacts.partition_None in Hp. congruence.
Qed.

(** ** The unit pipeline *)

Lemma preprocess_data_foldl (data_tuple acc : list (list (string * ndarray))) :
  foldl (fun new_data elem =>
           let new_elem := add_si_base_keys_to_dict elem in
           let new_elem := add_deg_keys_from_rad elem in
           new_data ++ [new_elem]) acc data_tuple
  = acc ++ (add_deg_keys_from_rad <$> data_tuple).
Proof.
  revert acc. induction data_tuple as [|elem rest IH]; intros acc; simpl.
  - by rewrite app_nil_r.
  - rewrite IH. by rewrite <- app_assoc.
Qed.

(** [preprocess_data] drops the tables of the SI conversion: it returns
    the degree synthesis of the tables it was given. *)
Lemma preprocess_data_only_degrees (data_tuple : list (list (string * ndarray))) :
  preprocess_data data_tuple = add_deg_keys_from_rad <$> data_tuple.
Proof. unfold preprocess_data. by rewrite preprocess_data_foldl. Qed.

(** C9: on a table with an SI-prefixed column and a radian column,
    [preprocess_data] returns the degree column but not the converted
    column [_x], which [add_si_base_keys_to_dict] does produce. *)
Theorem preprocess_data_drops_si :
  (exists out, preprocess_data [kilo_table] = [out] /\
     Dict.keys out = ["yaw_deg"; "kilo_x"; "yaw_rad"] /\
     Dict.get "_x" out = None) /\
  Dict.get "_x" (add_si_base_keys_to_dict kilo_table)
  = Some (mk_ndarray [1; 2] [1000; 2000]%float).
Proof. split; [eexists; split_and!|]; by vm_compute. Qed.

(** ** Disjoint merge *)

Lemma foldl_union_list (s : gset string) (rest : list (gset string)) :
  foldl union s rest = s ∪ ⋃ rest.
Proof.
  revert s. induction rest as [|x rest IH]; intros s; simpl.
  - by rewrite (right_id_L ∅ (∪)).
  - rewrite IH. by rewrite (assoc_L (∪)).
Qed.

Lemma size_union_list_le (ss : list (gset string)) :
  size (⋃ ss) <= sum_list (size <$> ss).
Proof.
  induction ss as [|s ss IH]; csimpl.
  - by vm_compute.
  - rewrite size_union_alt.
    assert (Hle : size (⋃ ss ∖ s) <= size (⋃ ss)).
    { apply subseteq_size. by intros x [? _]%elem_of_difference. }
    lia.
Qed.

(** The check of [merge_dictionaries]: the union is as large as the sizes
    add up to exactly when no key is shared. *)
Lemma size_union_list_eq (ds : list (list (string * ndarray))) :
  size (⋃ (key_set <$> ds)) = sum_list (size <$> (key_set <$> ds)) <->
  pairwise_disjoint ds.
Proof.
  induction ds as [|d ds IH]; csimpl.
  - split; [done | intros _; by vm_compute].
  - rewrite size_union_alt.
    pose proof (size_union_list_le (key_set <$> ds)) as Hle.
    assert (Hsub : size (⋃ (key_set <$> ds) ∖ key_set d) <= size (⋃ (key_set <$> ds))).
    { apply subseteq_size. by intros x [? _]%elem_of_difference. }
    split.
    + intros Heq.
      assert (Hds : size (⋃ (key_set <$> ds)) = sum_list (size <$> (key_set <$> ds))) by lia.
      split; [|by apply IH].
      assert (Hd : ⋃ (key_set <$> ds) ∖ key_set d ≡ ⋃ (key_set <$> ds)).
      { apply set_subseteq_size_equiv; [by intros x [? _]%elem_of_difference | lia]. }
      intros d' k Hd' Hk Hk'.
      assert (Hin : k ∈ ⋃ (key_set <$> ds)).
      { apply elem_of_union_list. exists (key_set d'). split.
        - apply list_elem_of_fmap. by exists d'.
        - unfold key_set. by apply elem_of_list_to_set. }
      apply Hd in Hin. apply elem_of_difference in Hin as [_ Hin].
      apply Hin. unfold key_set. by apply elem_of_list_to_set.
    + intros [Hd Hds]. apply IH in Hds.
      assert (Hdisj : ⋃ (key_set <$> ds) ∖ key_set d ≡ ⋃ (key_set <$> ds)).
      { apply set_equiv. intros k. rewrite elem_of_difference. split; [tauto|].
        intros Hk. split; [done|]. intros Hkd.
        apply elem_of_union_list in Hk as (X & HX & Hk).
        apply list_elem_of_fmap in HX as (d' & -> & Hd').
        unfold key_set in *. apply elem_of_list_to_set in Hk, Hkd.
        by apply (Hd d' k). }
      rewrite Hdisj. lia.
Qed.

Lemma merge_check (d : list (string * ndarray)) (ds : list (list (string * ndarray))) :
  (pairwise_disjoint (d :: ds) ->
   merge_dictionaries (Sequence (d :: ds)) =
   Ok (foldl (fun out_dict elem => Dict.union out_dict elem) [] (d :: ds))) /\
  (~ pairwise_disjoint (d :: ds) ->
   merge_dictionaries (Sequence (d :: ds)) = Raise SharedKeyError).
Proof.
  unfold merge_dictionaries. cbn [iterate set_union_star map rbind].
  rewrite foldl_union_list.
  pose proof (size_union_list_eq (d :: ds)) as Hiff.
  change (map (fun elem => list_to_set (Dict.keys elem)) ds) with (key_set <$> ds).
  change (list_to_set (Dict.keys d)) with (key_set d).
  change (map (fun elem : gset string => size elem) (key_set d :: (key_set <$> ds)))
    with (size <$> (key_set <$> (d :: ds))).
  change (key_set d ∪ ⋃ (key_set <$> ds)) with (⋃ (key_set <$> (d :: ds))).
  split; intros Hd.
  - rewrite bool_decide_eq_true_2; [done | by apply Hiff].
  - rewrite bool_decide_eq_false_2; [done | by rewrite Hiff].
Qed.

Lemma get_rev_None {V} k (d : list (string * V)) :
  k ∉ Dict.keys d -> Dict.get k (rev d) = None.
Proof.
  intros Hk. apply DictFacts.get_None. intros Hin. apply Hk.
  unfold Dict.keys in *. apply list_elem_of_fmap in Hin as ([k' v] & -> & Hin).
  apply list_elem_of_fmap. exists (k', v). split; [done|].
  apply list_elem_of_In. apply in_rev. by apply list_elem_of_In.
Qed.

Lemma merged_untouched k (ds : list (list (string * ndarray))) : forall acc,
  (forall d, d ∈ ds -> k ∉ Dict.keys d) ->
  Dict.get k (foldl (fun out_dict elem => Dict.union out_dict elem) acc ds)
  = Dict.get k acc.
Proof.
  induction ds as [|d ds IH]; intros acc Hno; [done|]. simpl.
  rewrite IH by (intros d' Hd'; apply Hno; by apply list_elem_of_further).
  rewrite DictFacts.get_union_rev.
  by rewrite get_rev_None by (apply Hno; apply list_elem_of_here).
Qed.

Lemma merged_get (ds : list (list (string * ndarray))) : forall acc d k v,
  pairwise_disjoint ds -> (forall d', d' ∈ ds -> NoDup (Dict.keys d')) ->
  d ∈ ds -> Dict.get k d = Some v ->
  Dict.get k (foldl (fun out_dict elem => Dict.union out_dict elem) acc ds) = Some v.
Proof.
  induction ds as [|d0 ds IH]; intros acc d k v Hdis Hnd Hin Hget.
  { by apply elem_of_nil in Hin. }
  destruct Hdis as [Hd0 Hdis]. simpl.
  apply elem_of_cons in Hin as [->|Hin].
  - rewrite merged_untouched.
    + rewrite DictFacts.get_union by (apply Hnd; apply list_elem_of_here).
      by rewrite Hget.
    + intros d' Hd'. apply Hd0; [done|]. apply DictFacts.is_Some_get. by eexists.
  - eapply IH; [done | | done | done].
    intros d' Hd'. apply Hnd. by apply list_elem_of_further.
Qed.

Lemma merged_keys (ds : list (list (string * ndarray))) : forall acc k,
  k ∈ Dict.keys (foldl (fun out_dict elem => Dict.union out_dict elem) acc ds) <->
  k ∈ Dict.keys acc \/ exists d, d ∈ ds /\ k ∈ Dict.keys d.
Proof.
  induction ds as [|d0 ds IH]; intros acc k; simpl.
  - split; [auto | intros [?|(d & Hd & _)]; [done | by apply elem_of_nil in Hd]].
  - rewrite IH, DictFacts.elem_of_keys_union. split.
    + intros [[?|?]|(d & Hd & Hk)]; [by left | |].
      * right. exists d0. split; [apply list_elem_of_here | done].
      * right. exists d. split; [by apply list_elem_of_further | done].
    + intros [?|(d & [->|Hd]%elem_of_cons & Hk)]; [by left; left | by left; right |].
      right. by exists d.
Qed.

(** C4: on a tuple or list of tables the merge is the plain key union and
    a shared key raises [SharedKeyError], but not on every iterable of
    tables: the empty tuple raises [TypeError] (the union of no sets), and
    a generator of disjoint tables, used up by the key check, gives the
    empty table. *)
Theorem merge_dictionaries_failing_inputs :
  merge_dictionaries (Sequence []) = Raise TypeError /\
  merge_dictionaries (Generator [table_a; table_b]) = Ok [] /\
  merge_dictionaries (Generator [table_a; table_a']) = Raise SharedKeyError /\
  merge_dictionaries (Sequence [table_a; table_b])
    = Ok [("a", mk_ndarray [1] [1]%float); ("b", mk_ndarray [1] [2]%float)] /\
  merge_dictionaries (Sequence [table_a; table_a']) = Raise SharedKeyError.
Proof. split_and!; by vm_compute. Qed.

(** On a non-empty tuple or list of tables the merge does what C4 says:
    it raises [SharedKeyError] exactly when two tables share a key, and
    otherwise returns the key union with every value carried over. *)
Theorem merge_dictionaries_sequence (d : list (string * ndarray))
    (ds : list (list (string * ndarray))) :
  (forall d', d' ∈ d :: ds -> NoDup (Dict.keys d')) ->
  (merge_dictionaries (Sequence (d :: ds)) = Raise SharedKeyError <->
   ~ pairwise_disjoint (d :: ds)) /\
  (pairwise_disjoint (d :: ds) ->
   exists out,
     merge_dictionaries (Sequence (d :: ds)) = Ok out /\
     (forall k, k ∈ Dict.keys out <-> exists d', d' ∈ d :: ds /\ k ∈ Dict.keys d') /\
     (forall d' k v, d' ∈ d :: ds -> Dict.get k d' = Some v -> Dict.get k out = Some v)).
Proof.
  intros Hnd. destruct (merge_check d ds) as [Hok Hraise]. split.
  - split; [|done]. intros Hr Hdis. rewrite (Hok Hdis) in Hr. done.
  - intros Hdis. eexists. split; [by apply Hok|]. split.
    + intros k. rewrite merged_keys. split; [|by right].
      intros [Hk|?]; [by apply elem_of_nil in Hk | done].
    + intros d' k v Hd' Hget. by eapply merged_get.
Qed.

Lemma merge_dictionaries_sequence_witness :
  merge_dictionaries (Sequence [table_a; table_a']) = Raise SharedKeyError <->
  ~ pairwise_disjoint [table_a; table_a'].
Proof.
  refine (proj1 (merge_dictionaries_sequence table_a [table_a'] _)).
  intros d' Hd'. rewrite !elem_of_cons, elem_of_nil in Hd'.
  destruct Hd' as [->|[->|[]]]; unfold Dict.keys; simpl; repeat constructor;
    rewrite ?elem_of_nil; intuition.
Defined.

(** ** Series of records *)

Lemma append_flat_array l v : Np.append_flat (Np.array l) v = Np.array (l ++ [v]).
Proof.
  unfold Np.append_flat, Np.array, Np.size. simpl. rewrite length_app. simpl.
  f_equal. f_equal. lia.
Qed.

Lemma stamped_record_first hname f s :
  f <> "stamp_s" ->
  parse_message (stamped_record hname f s) (VDict 0) [[]] =
  ([[("stamp_s", VArr (Np.array [stamp_of s])); (f, VArr (Np.array [s.2]))]],
   Ok (VDict 0)).
Proof.
  intros Hf. unfold parse_message, stamped_record. simpl.
  unfold bind, obj_get, obj_set, lift, ret. simpl.
  rewrite decide_False by done. simpl. rewrite decide_False by done. done.
Qed.

Lemma stamped_record_next hname f s a b :
  f <> "stamp_s" ->
  parse_message (stamped_record hname f s) (VDict 0)
    [[("stamp_s", VArr (Np.array a)); (f, VArr (Np.array b))]] =
  ([[("stamp_s", VArr (Np.array (a ++ [stamp_of s]))); (f, VArr (Np.array (b ++ [s.2])))]],
   Ok (VDict 0)).
Proof.
  intros Hf. unfold parse_message, stamped_record. simpl.
  unfold bind, obj_get, obj_set, lift, ret. simpl.
  rewrite !(decide_False (P := "stamp_s" = f)) by done.
  rewrite !(decide_True (P := f = f)) by done. simpl.
  rewrite !(decide_False (P := "stamp_s" = f)) by done.
  rewrite !(decide_True (P := f = f)) by done. simpl.
  by rewrite <- !append_flat_array.
Qed.

Lemma stamped_read_loop topic hname f ss : forall a b,
  f <> "stamp_s" ->
  read_loop ((fun s => (topic, Ok (stamped_record hname f s))) <$> ss)
    [(topic, VDict 0)]
    [[("stamp_s", VArr (Np.array a)); (f, VArr (Np.array b))]] =
  ([[("stamp_s", VArr (Np.array (a ++ (stamp_of <$> ss))));
     (f, VArr (Np.array (b ++ (snd <$> ss))))]],
   Ok [(topic, VDict 0)]).
Proof.
  induction ss as [|s ss IH]; intros a b Hf.
  - simpl. by rewrite !app_nil_r.
  - rewrite !fmap_cons, read_loop_cons.
    assert (Hget : Dict.get topic [(topic, VDict 0)] = Some (VDict 0)).
    { simpl. by rewrite decide_True. }
    rewrite (accumulate_try_next _ _ _ _ _ Hget), stamped_record_next by done.
    cbv iota beta. simpl Dict.set. rewrite decide_True by done.
    rewrite IH by done. by rewrite <- !app_assoc.
Qed.

(** A channel of stamped scalar records: after any number of records the
    table holds the time stamps and the values, both in record order and
    of the same length. *)
Theorem parse_topics_stamped_series (topic hname f : string)
    (s : Z * Z * float) (ss : list (Z * Z * float)) :
  f <> "stamp_s" ->
  parse_topics ((fun s => (topic, Ok (stamped_record hname f s))) <$> (s :: ss)) [] =
  ([[("stamp_s", VArr (Np.array (stamp_of <$> (s :: ss))));
     (f, VArr (Np.array (snd <$> (s :: ss))))]],
   Ok [(topic, VDict 0)]).
Proof.
  intros Hf. unfold parse_topics. rewrite !fmap_cons, read_loop_cons.
  rewrite accumulate_try_first by done.
  change (parse_message (stamped_record hname f s) (VDict (length [])) ([] ++ [[]]))
    with (parse_message (stamped_record hname f s) (VDict 0) [[]]).
  rewrite stamped_record_first by done. cbv iota beta.
  change (Dict.set topic (VDict 0) []) with [(topic, VDict 0)].
  by rewrite stamped_read_loop.
Qed.

Lemma parse_topics_stamped_series_witness :
  parse_topics [("/odom", Ok (stamped_record "header" "speed" (10%Z, 500000000%Z, 1%float)));
                ("/odom", Ok (stamped_record "header" "speed" (11%Z, 0%Z, 2%float)))] [] =
  ([[("stamp_s", VArr (Np.array [10.5; 11]%float));
     ("speed", VArr (Np.array [1; 2]%float))]],
   Ok [("/odom", VDict 0)]).
Proof.
  apply (parse_topics_stamped_series "/odom" "header" "speed"
           (10%Z, 500000000%Z, 1%float) [(11%Z, 0%Z, 2%float)]).
  discriminate.
Defined.

Lemma series_raise {A} (parse : A -> pyobj -> result pyobj) values e :
  foldl (fun acc x => rbind acc (parse x)) (Raise e) values = Raise e.
Proof. induction values as [|x xs IH]; [done | apply IH]. Qed.

Lemma series_cons {A} (parse : A -> pyobj -> result pyobj) x xs prior :
  series parse (x :: xs) prior = rbind (parse x prior) (series parse xs).
Proof.
  unfold series. simpl. destruct (parse x prior) as [v|e]; [done|]. apply series_raise.
Qed.

Lemma series_app {A} (parse : A -> pyobj -> result pyobj) xs ys prior :
  series parse (xs ++ ys) prior = rbind (series parse xs prior) (series parse ys).
Proof.
  revert prior. induction xs as [|x xs IH]; intros prior; [done|].
  simpl app. rewrite !series_cons. destruct (parse x prior) as [v|e]; [apply IH | done].
Qed.

(** Empty occurrences before the first value leave the entry absent. *)
Lemma parse_array_leading_empties j :
  series parse_array (replicate j []) VNone = Ok VNone.
Proof. induction j as [|j IH]; [done|]. simpl replicate. by rewrite series_cons. Qed.

Lemma parse_array_seed row :
  row <> [] -> parse_array row VNone = Ok (VArr (mk_ndarray [length row] row)).
Proof.
  intros Hrow. unfold parse_array. rewrite decide_False; [done|].
  unfold Np.size. simpl. destruct row; [done | simpl; lia].
Qed.

Lemma parse_array_second row d n :
  length row = n -> n <> 0 ->
  parse_array row (VArr (mk_ndarray [n] d))
  = Ok (VArr (mk_ndarray [2; n] (d ++ row))).
Proof.
  intros Hlen Hn. unfold parse_array. rewrite decide_False.
  - unfold Np.row_stack, Np.concatenate0. simpl. rewrite Hlen.
    by rewrite decide_True.
  - unfold Np.size. simpl. lia.
Qed.

Lemma parse_array_row row d m n :
  row = [] \/ length row = n -> n <> 0 ->
  parse_array row (VArr (mk_ndarray [m; n] d))
  = Ok (VArr (mk_ndarray [m + 1; n] (d ++ row_of n row))).
Proof.
  intros [->|Hlen] Hn; unfold parse_array.
  - rewrite decide_True by done.
    unfold Np.row_stack, Np.concatenate0, Np.full. simpl.
    rewrite Nat.mul_1_r. by rewrite decide_True.
  - rewrite decide_False by (unfold Np.size; simpl; lia).
    unfold Np.row_stack, Np.concatenate0. simpl. rewrite Hlen.
    rewrite decide_True by done. destruct row; [simpl in Hlen; lia | done].
Qed.

Lemma parse_array_rows n rest : forall m d,
  n <> 0 -> Forall (fun r => r = [] \/ length r = n) rest ->
  series parse_array rest (VArr (mk_ndarray [m; n] d))
  = Ok (VArr (mk_ndarray [m + length rest; n] (d ++ concat (row_of n <$> rest)))).
Proof.
  induction rest as [|r rest IH]; intros m d Hn Hall.
  - simpl. by rewrite Nat.add_0_r, app_nil_r.
  - apply Forall_cons in Hall as [Hr Hall].
    rewrite series_cons, parse_array_row by done. simpl rbind.
    rewrite IH by done. rewrite fmap_cons. simpl concat. simpl length.
    rewrite <- app_assoc. by replace (m + 1 + length rest) with (m + S (length rest)) by lia.
Qed.

(** A leaf of primitive arrays over a series of records.  Empty
    occurrences before the first value leave no trace; the first value is
    stored as it is, with no record axis; from the second value on the
    leading axis counts the values, and an empty occurrence after the
    second value gives a row of sentinels. *)
Theorem parse_array_series (j n : nat) (row1 row2 : list float)
    (rest : list (list float)) :
  length row1 = n -> n <> 0 ->
  series parse_array (replicate j [] ++ [row1]) VNone
  = Ok (VArr (mk_ndarray [n] row1)) /\
  (length row2 = n -> Forall (fun r => r = [] \/ length r = n) rest ->
   series parse_array (replicate j [] ++ row1 :: row2 :: rest) VNone
   = Ok (VArr (mk_ndarray [2 + length rest; n]
                 (row1 ++ row2 ++ concat (row_of n <$> rest))))).
Proof.
  intros Hlen Hn.
  assert (Hrow1 : row1 <> []) by (intros ->; simpl in Hlen; lia).
  split.
  - rewrite series_app, parse_array_leading_empties. simpl rbind.
    rewrite series_cons, parse_array_seed by done. by rewrite Hlen.
  - intros Hlen2 Hall.
    rewrite series_app, parse_array_leading_empties. simpl rbind.
    rewrite series_cons, parse_array_seed, Hlen by done. simpl rbind.
    rewrite series_cons, parse_array_second by done. simpl rbind.
    rewrite parse_array_rows by done. by rewrite <- app_assoc.
Qed.

Lemma parse_array_series_witness :
  series parse_array [[]; [1; 2]; [3; 4]; []; [5; 6]]%float VNone
  = Ok (VArr (mk_ndarray [4; 2] [1; 2; 3; 4; sentinel; sentinel; 5; 6]%float)).
Proof.
  refine (proj2 (parse_array_series 1 2 [1; 2]%float [3; 4]%float [[]; [5; 6]%float]
                   eq_refl _) eq_refl _).
  - lia.
  - apply Forall_cons. split; [by left|].
    apply Forall_cons. split; [by right | apply Forall_nil_2].
Defined.

(** A sequence whose length differs from the rows recorded so far is
    rejected: it is neither padded nor cut. *)
Theorem parse_array_length_mismatch (row : list float) (a : ndarray) (n : nat) :
  (shape a = [n] \/ exists m, shape a = [m; n]) ->
  row <> [] -> length row <> n ->
  parse_array row (VArr a) = Raise ValueError.
Proof.
  intros Hshape Hrow Hlen. unfold parse_array.
  rewrite decide_False by (unfold Np.size; simpl; destruct row; [done | simpl; lia]).
  unfold Np.row_stack, Np.concatenate0, Np.atleast_2d.
  destruct a as [shp d]. simpl in Hshape.
  destruct Hshape as [->|[m ->]]; simpl; by rewrite decide_False by congruence.
Qed.

Lemma parse_array_length_mismatch_witness :
  parse_array [1; 2; 3]%float (VArr (mk_ndarray [2; 2] [1; 2; 3; 4]%float))
  = Raise ValueError.
Proof.
  apply (parse_array_length_mismatch _ _ 2).
  - right. by exists 2.
  - discriminate.
  - simpl. lia.
Defined.

Lemma parse_ndarray_leading_empties (empties : list ndarray) :
  Forall (fun e => Np.size e = 0) empties ->
  series (fun t => parse_ndarray (Ok t)) empties VNone = Ok VNone.
Proof.
  induction empties as [|e empties IH]; [done|].
  intros [He Hall]%Forall_cons. rewrite series_cons.
  unfold parse_ndarray at 1. simpl. rewrite decide_True by done. by apply IH.
Qed.

Lemma parse_ndarray_slice t m s d :
  Np.size t = 0 \/ (shape t = s /\ Np.size t <> 0) ->
  parse_ndarray (Ok t) (VArr (mk_ndarray (m :: s) d))
  = Ok (VArr (mk_ndarray (m + 1 :: s) (d ++ slice_of s t))).
Proof.
  intros Ht. unfold parse_ndarray, slice_of. simpl.
  destruct Ht as [Hz|[Hs Hnz]].
  - rewrite !decide_True by done.
    unfold Np.append0, Np.concatenate0. simpl. by rewrite decide_True.
  - rewrite !decide_False by done.
    unfold Np.append0, Np.concatenate0. simpl. rewrite Hs. by rewrite decide_True.
Qed.

Lemma parse_ndarray_slices s ts : forall m d,
  foldr Nat.mul 1 s <> 0 ->
  Forall (fun t => Np.size t = 0 \/ shape t = s) ts ->
  series (fun t => parse_ndarray (Ok t)) ts (VArr (mk_ndarray (m :: s) d))
  = Ok (VArr (mk_ndarray (m + length ts :: s) (d ++ concat (slice_of s <$> ts)))).
Proof.
  induction ts as [|t ts IH]; intros m d Hs Hall.
  - simpl. by rewrite Nat.add_0_r, app_nil_r.
  - apply Forall_cons in Hall as [Ht Hall].
    rewrite series_cons, parse_ndarray_slice.
    + simpl rbind. rewrite IH by done. rewrite fmap_cons. simpl concat. simpl length.
      rewrite <- app_assoc.
      by replace (m + 1 + length ts) with (m + S (length ts)) by lia.
    + destruct (decide (Np.size t = 0)) as [|Hnz]; [by left|]. right.
      destruct Ht as [?|Ht]; done.
Qed.

(** A tensor leaf over a series of records.  Empty occurrences before
    the first value leave no trace; from the first value on the leading
    axis counts the occurrences, each of them one slice: the tensor's
    data, or sentinels for an empty occurrence. *)
Theorem parse_ndarray_series (empties : list ndarray) (t : ndarray)
    (ts : list ndarray) (s : list nat) :
  Forall (fun e => Np.size e = 0) empties ->
  shape t = s -> Np.size t <> 0 ->
  Forall (fun t' => Np.size t' = 0 \/ shape t' = s) ts ->
  series (fun t => parse_ndarray (Ok t)) (empties ++ t :: ts) VNone
  = Ok (VArr (mk_ndarray (S (length ts) :: s)
                (data t ++ concat (slice_of s <$> ts)))).
Proof.
  intros Hemp Hs Hnz Hall.
  rewrite series_app, parse_ndarray_leading_empties by done. simpl rbind.
  rewrite series_cons. unfold parse_ndarray at 1. simpl rbind.
  rewrite decide_False by done. unfold Np.newaxis. rewrite Hs. simpl rbind.
  rewrite parse_ndarray_slices; [done | | done].
  unfold Np.size in Hnz. by rewrite Hs in Hnz.
Qed.

Lemma parse_ndarray_series_witness :
  series (fun t => parse_ndarray (Ok t))
    [empty_tensor; Np.array [1; 2]%float; empty_tensor; Np.array [3; 4]%float] VNone
  = Ok (VArr (mk_ndarray [3; 2] [1; 2; sentinel; sentinel; 3; 4]%float)).
Proof.
  refine (parse_ndarray_series [empty_tensor] (Np.array [1; 2]%float)
            [empty_tensor; Np.array [3; 4]%float] [2] _ eq_refl _ _).
  - apply Forall_cons. split; [done | apply Forall_nil_2].
  - unfold Np.size. simpl. lia.
  - apply Forall_cons. split; [by left|].
    apply Forall_cons. split; [by right | apply Forall_nil_2].
Defined.

(** ** The tables of the reader *)

Lemma parse_message_returns msg d h h' v :
  upward h -> valid h d ->
  parse_message msg d h = (h', Ok v) ->
  v = (match d with VNone => VDict (length h) | _ => d end) /\
  upward h' /\ length h <= length h' /\ valid h' v.
Proof.
  intros Hu Hv Hrun.
  destruct (parse_message_frame _ _ _ _ _ Hu Hv Hrun) as (Hu' & Hlen & Hval).
  split; [|split_and!; [done | done | by apply Hval]]. revert Hrun. unfold parse_message, bind at 1.
  destruct d as [|a|l]; simpl; intros Hrun.
  - assert (Hv0 : valid (h ++ [[]]) (VDict (length h))).
    { simpl. rewrite length_app. simpl. lia. }
    destruct (loop_frame_all msg (VDict (length h)) _ _ _ (upward_alloc _ Hu) Hv0 Hrun)
      as (_ & _ & _ & Hr). by apply Hr.
  - destruct (loop_frame_all msg (VArr a) _ _ _ Hu I Hrun) as (_ & _ & _ & Hr).
    by apply Hr.
  - destruct (loop_frame_all msg (VDict l) _ _ _ Hu Hv Hrun) as (_ & _ & _ & Hr).
    by apply Hr.
Qed.

(** One turn of the reader that succeeds gives a table of the heap. *)
Lemma accumulate_try_table ros topic msg h h1 val :
  upward h ->
  (forall k v, Dict.get k ros = Some v -> exists l, v = VDict l /\ l < length h) ->
  accumulate_try ros topic msg h = (h1, Ok val) ->
  upward h1 /\ length h <= length h1 /\ exists l, val = VDict l /\ l < length h1.
Proof.
  intros Hu Hros.
  assert (Hfresh : forall h0, upward h0 -> length h <= length h0 ->
    parse_message msg (VDict (length h0)) (h0 ++ [[]]) = (h1, Ok val) ->
    upward h1 /\ length h <= length h1 /\ exists l, val = VDict l /\ l < length h1).
  { intros h0 Hu0 Hlen0 Hrun.
    assert (Hv0 : valid (h0 ++ [[]]) (VDict (length h0))).
    { simpl. rewrite length_app. simpl. lia. }
    destruct (parse_message_returns _ (VDict (length h0)) _ _ _ (upward_alloc _ Hu0) Hv0 Hrun)
      as (-> & Hu1 & Hlen1 & Hval).
    rewrite length_app in Hlen1. simpl in *.
    split_and!; [done | lia | by eexists]. }
  destruct (Dict.get topic ros) as [current|] eqn:Hget.
  - rewrite (accumulate_try_next _ _ _ _ _ Hget).
    destruct (Hros _ _ Hget) as (l & -> & Hl).
    destruct (parse_message msg (VDict l) h) as [h2 r2] eqn:Hp.
    destruct (parse_message_frame _ (VDict l) _ _ _ Hu Hl Hp) as (Hu2 & Hlen2 & _).
    destruct r2 as [v2|e].
    + intros [= <- <-].
      destruct (parse_message_returns _ (VDict l) _ _ _ Hu Hl Hp) as (-> & _ & _ & Hval).
      split_and!; [done | done | by eexists].
    + destruct e; try done. by apply Hfresh.
  - rewrite (accumulate_try_first _ _ _ _ Hget). by apply Hfresh.
Qed.

Lemma read_loop_tables bag : forall ros h h' d,
  upward h -> NoDup (Dict.keys ros) ->
  (forall k v, Dict.get k ros = Some v -> exists l, v = VDict l /\ l < length h) ->
  read_loop bag ros h = (h', Ok d) ->
  Forall (fun r => is_ok r.2 = true) bag /\
  Dict.keys d =
    foldl (fun acc k => if decide (k ∈ acc) then acc else acc ++ [k])
          (Dict.keys ros) bag.*1 /\
  NoDup (Dict.keys d) /\
  (forall k v, Dict.get k d = Some v -> exists l, v = VDict l /\ l < length h').
Proof.
  induction bag as [|[topic decoded] rest IH]; intros ros h h' d Hu Hnd Hros.
  { intros [= <- <-]. split_and!; [apply Forall_nil_2 | done | done | done]. }
  rewrite read_loop_cons. destruct decoded as [msg|e]; [|done].
  destruct (accumulate_try ros topic msg h) as [h1 [val|e]] eqn:Htry; [|done].
  destruct (accumulate_try_table _ _ _ _ _ _ Hu Hros Htry) as (Hu1 & Hlen1 & l & -> & Hl).
  intros Hrun.
  destruct (IH (Dict.set topic (VDict l) ros) h1 h' d) as (Hall & Hkeys & Hnd' & Htab);
    [done | by apply DictFacts.NoDup_keys_set | | done |].
  { intros k v. rewrite DictFacts.get_set. case_decide.
    - intros [= <-]. by exists l.
    - intros Hk. destruct (Hros _ _ Hk) as (l0 & -> & Hl0). exists l0. split; [done | lia]. }
  split_and!; [by apply Forall_cons | | done | done].
  rewrite Hkeys, DictFacts.keys_set. done.
Qed.

(** When [parse_topics] returns, every record of the bag was decoded, the
    result has one entry per topic, in the order in which the topics are
    first seen, and every entry is a table of the heap. *)
Theorem parse_topics_tables (bag : list bag_record) (h' : heap)
    (d : list (string * pyobj)) :
  parse_topics bag [] = (h', Ok d) ->
  Forall (fun r => is_ok r.2 = true) bag /\
  Dict.keys d = first_seen bag.*1 /\
  NoDup (Dict.keys d) /\
  (forall topic v, Dict.get topic d = Some v ->
     exists l t, v = VDict l /\ h' !! l = Some t).
Proof.
  intros Hrun. unfold parse_topics in Hrun.
  destruct (read_loop_tables bag [] [] h' d) as (Hall & Hkeys & Hnd & Htab);
    [by intros l t k l' Hl | apply NoDup_nil_2 | done | done |].
  split_and!; [done | done | done |].
  intros topic v Hget. destruct (Htab _ _ Hget) as (l & -> & Hl).
  destruct (lookup_lt_is_Some_2 _ _ Hl) as [t Ht]. by exists l, t.
Qed.

Lemma parse_topics_tables_witness :
  Dict.keys [("/b", VDict 0); ("/a", VDict 1)] = first_seen ["/b"; "/a"; "/b"].
Proof.
  refine (proj1 (proj2 (parse_topics_tables
    [("/b", Ok (mk_msg [("x", FNumber 1)]));
     ("/a", Ok (mk_msg [("y", FNumber 2)]));
     ("/b", Ok (mk_msg [("x", FNumber 3)]))]
    [[("x", VArr (Np.array [1; 3]%float))]; [("y", VArr (Np.array [2]%float))]]
    [("/b", VDict 0); ("/a", VDict 1)] _))).
  reflexivity.
Defined.

(** ** Channels do not interfere *)

(** On a flat record the loop touches the table it works on and nothing
    else. *)
Lemma message_loop_flat fs : forall l h t,
  flat_record fs -> h !! l = Some t ->
  message_loop fs (VDict l) h
  = (<[l := (leaf_loop (to_list fs) t).1]> h, returned l (leaf_loop (to_list fs) t).2).
Proof.
  induction fs as [|f x rest IH] using fields_ind; intros l h t Hflat Hl.
  - simpl. by rewrite list_insert_id.
  - assert (Hleaf : is_leaf x = true) by (apply (Hflat f); apply list_elem_of_here).
    assert (Hrest : flat_record rest).
    { intros f' x' Hin. apply (Hflat f'). simpl. by apply list_elem_of_further. }
    cbn [message_loop to_list leaf_loop]. unfold bind at 1.
    rewrite (obj_get_table _ _ _ _ Hl). unfold bind at 1.
    rewrite (parse_field_leaf _ _ _ _ _ Hleaf Hl).
    destruct (accumulate x (default VNone (Dict.get (key_of f x) t))) as [v|e]; simpl.
    + unfold bind at 1. rewrite (obj_set_table _ _ _ _ _ Hl).
      rewrite (IH l _ (Dict.set (key_of f x) v t)); [|done|].
      * by rewrite list_insert_insert_eq.
      * apply list_lookup_insert_eq. by eapply lookup_lt_Some.
    + by rewrite list_insert_id.
Qed.

Lemma parse_message_flat fs l h t :
  flat_record fs -> h !! l = Some t ->
  parse_message fs (VDict l) h
  = (<[l := (leaf_loop (to_list fs) t).1]> h, returned l (leaf_loop (to_list fs) t).2).
Proof. intros Hflat Hl. by apply message_loop_flat. Qed.

(** One turn of the reader on a flat record: on the topic's first record
    a new table is added to the heap, later the topic's own table is
    updated; no other table changes. *)
Lemma accumulate_try_flat_first ros topic msg h :
  flat_record msg -> Dict.get topic ros = None ->
  accumulate_try ros topic msg h
  = (h ++ [(leaf_loop (to_list msg) []).1],
     returned (length h) (leaf_loop (to_list msg) []).2).
Proof.
  intros Hflat Hget. rewrite accumulate_try_first by done.
  rewrite (parse_message_flat _ _ _ []) by (by rewrite ?lookup_app_r, ?Nat.sub_diag).
  f_equal. rewrite insert_app_r_alt by done. by rewrite Nat.sub_diag.
Qed.

Lemma accumulate_try_flat_next ros topic msg h l t val h1 :
  flat_record msg -> Dict.get topic ros = Some (VDict l) -> h !! l = Some t ->
  accumulate_try ros topic msg h = (h1, Ok val) ->
  (leaf_loop (to_list msg) t).2 = Ok tt /\
  h1 = <[l := (leaf_loop (to_list msg) t).1]> h /\ val = VDict l.
Proof.
  intros Hflat Hget Hl. rewrite (accumulate_try_next _ _ _ _ _ Hget).
  pose proof (parse_message_flat msg l h t Hflat Hl) as Hp.
  destruct (leaf_loop (to_list msg) t) as [t' [[]|e]] eqn:Hloop; simpl in Hp.
  - rewrite Hp. by intros [= <- <-].
  - destruct (decide (e = KeyError)) as [->|Hne].
    + rewrite Hp.
      destruct (parse_message_reraises _ _ _ _ Hp (VDict (length (<[l:=t']> h)))
                  (<[l:=t']> h ++ [[]])) as (h2 & e & ->). done.
    + rewrite Hp. by destruct e.
Qed.

Lemma separate_first ros h topic t :
  separate ros h -> Dict.get topic ros = None ->
  separate (Dict.set topic (VDict (length h)) ros) (h ++ [t]).
Proof.
  intros [Htab Hinj] Hget. split.
  - intros k v. rewrite DictFacts.get_set, length_app. simpl. case_decide.
    + intros [= <-]. exists (length h). split; [done | lia].
    + intros Hk. destruct (Htab _ _ Hk) as (l & -> & Hl). exists l. split; [done | lia].
  - intros k1 k2 l. rewrite !DictFacts.get_set.
    repeat case_decide; try congruence.
    + intros [= <-] Hk. destruct (Htab _ _ Hk) as (l & [= <-] & Hl). lia.
    + intros Hk [= <-]. destruct (Htab _ _ Hk) as (l & [= <-] & Hl). lia.
    + apply Hinj.
Qed.

Lemma separate_next ros h topic l t :
  separate ros h -> Dict.get topic ros = Some (VDict l) ->
  separate (Dict.set topic (VDict l) ros) (<[l := t]> h).
Proof.
  intros [Htab Hinj] Hget. split.
  - intros k v. rewrite DictFacts.get_set, length_insert. case_decide.
    + intros [= <-]. by apply Htab in Hget.
    + apply Htab.
  - intros k1 k2 l'. rewrite !DictFacts.get_set.
    repeat case_decide; try congruence.
    + intros [= <-] Hk. pose proof (Hinj topic k2 l Hget Hk). congruence.
    + intros Hk [= <-]. pose proof (Hinj k1 topic l Hk Hget). congruence.
    + apply Hinj.
Qed.

Lemma on_topic_cons topic tp decoded rest :
  on_topic topic ((tp, decoded) :: rest) =
  if decide (tp = topic) then (tp, decoded) :: on_topic topic rest
  else on_topic topic rest.
Proof. unfold on_topic. rewrite filter_cons. simpl. by case_decide. Qed.

(** The reader seen from one topic is the reader of that topic's records. *)
Lemma read_loop_channel topic bag : forall ros h h' d,
  (forall tp fs, (tp, Ok fs) ∈ bag -> flat_record fs) ->
  separate ros h ->
  read_loop bag ros h = (h', Ok d) ->
  separate d h' /\
  read_loop (on_topic topic bag) (channel topic ros h).1 (channel topic ros h).2
  = ((channel topic d h').2, Ok (channel topic d h').1).
Proof.
  induction bag as [|[tp decoded] rest IH]; intros ros h h' d Hflat Hsep.
  { intros [= <- <-]. done. }
  rewrite read_loop_cons. destruct decoded as [msg|e]; [|done].
  destruct (accumulate_try ros tp msg h) as [h1 [val|e]] eqn:Htry; [|done].
  intros Hrun.
  assert (Hmsg : flat_record msg) by (apply (Hflat tp); apply list_elem_of_here).
  assert (Hrest : forall tp' fs, (tp', Ok fs) ∈ rest -> flat_record fs).
  { intros tp' fs Hin. apply (Hflat tp'). by apply list_elem_of_further. }
  rewrite on_topic_cons.
  destruct (Dict.get tp ros) as [cur|] eqn:Hget.
  - destruct (proj1 Hsep _ _ Hget) as (l & -> & Hl).
    destruct (lookup_lt_is_Some_2 _ _ Hl) as [t Ht].
    destruct (accumulate_try_flat_next _ _ _ _ _ _ _ _ Hmsg Hget Ht Htry)
      as (Hok & -> & ->).
    destruct (IH _ _ _ _ Hrest (separate_next _ _ _ _ _ Hsep Hget) Hrun) as [Hsep' Hch].
    split; [done|]. rewrite <- Hch. clear Hch. case_decide as Htp.
    + subst tp.
      assert (Hc1 : channel topic (Dict.set topic (VDict l) ros)
                      (<[l := (leaf_loop (to_list msg) t).1]> h)
                    = ([(topic, VDict 0)], [(leaf_loop (to_list msg) t).1])).
      { unfold channel. rewrite DictFacts.get_set_eq.
        by rewrite list_lookup_insert_eq by done. }
      assert (Hc0 : channel topic ros h = ([(topic, VDict 0)], [t])).
      { unfold channel. by rewrite Hget, Ht. }
      rewrite Hc0, Hc1. cbn [fst snd]. rewrite read_loop_cons.
      assert (Hg0 : Dict.get topic [(topic, VDict 0)] = Some (VDict 0)).
      { simpl. by rewrite decide_True. }
      rewrite (accumulate_try_next _ _ _ _ _ Hg0).
      rewrite (parse_message_flat msg 0 [t] t Hmsg eq_refl), Hok. cbn [returned].
      cbv iota beta. simpl Dict.set. by rewrite decide_True.
    + assert (Hc : channel topic (Dict.set tp (VDict l) ros)
                     (<[l := (leaf_loop (to_list msg) t).1]> h)
                   = channel topic ros h); [|by rewrite Hc].
      unfold channel. rewrite DictFacts.get_set_ne by done.
      destruct (Dict.get topic ros) as [[| |l0]|] eqn:Hg; try done.
      rewrite list_lookup_insert_ne; [done|].
      intros <-. apply Htp. by apply (proj2 Hsep tp topic l).
  - rewrite (accumulate_try_flat_first _ _ _ _ Hmsg Hget) in Htry.
    destruct (leaf_loop (to_list msg) []) as [t' [[]|e]] eqn:Hloop; [|done].
    injection Htry as <- <-.
    destruct (IH _ _ _ _ Hrest (separate_first _ _ _ t' Hsep Hget) Hrun) as [Hsep' Hch].
    split; [done|]. rewrite <- Hch. clear Hch. case_decide as Htp.
    + subst tp.
      assert (Hc1 : channel topic (Dict.set topic (VDict (length h)) ros) (h ++ [t'])
                    = ([(topic, VDict 0)], [t'])).
      { unfold channel. rewrite DictFacts.get_set_eq.
        by rewrite lookup_app_r, Nat.sub_diag. }
      assert (Hc0 : channel topic ros h = ([], [])).
      { unfold channel. by rewrite Hget. }
      rewrite Hc0, Hc1. cbn [fst snd]. rewrite read_loop_cons.
      rewrite (accumulate_try_flat_first [] topic msg [] Hmsg eq_refl), Hloop.
      cbn [returned]. done.
    + assert (Hc : channel topic (Dict.set tp (VDict (length h)) ros) (h ++ [t'])
                   = channel topic ros h); [|by rewrite Hc].
      unfold channel. rewrite DictFacts.get_set_ne by done.
      destruct (Dict.get topic ros) as [[| |l0]|] eqn:Hg; try done.
      destruct (proj1 Hsep _ _ Hg) as (l1 & [= <-] & Hl1).
      by rewrite lookup_app_l.
Qed.

(** The topics of a bag of flat records do not interfere: after reading
    the whole bag, the table of a topic is the table that reading the
    topic's records alone gives. *)
Theorem parse_topics_channels (bag : list bag_record) (h' : heap)
    (d : list (string * pyobj)) (topic : string) (l : loc) :
  (forall tp fs, (tp, Ok fs) ∈ bag -> flat_record fs) ->
  parse_topics bag [] = (h', Ok d) ->
  Dict.get topic d = Some (VDict l) ->
  exists t, h' !! l = Some t /\
    parse_topics (on_topic topic bag) [] = ([t], Ok [(topic, VDict 0)]).
Proof.
  intros Hflat Hrun Hget. unfold parse_topics in *.
  destruct (read_loop_channel topic bag [] [] h' d Hflat) as [Hsep Hch]; [|done|].
  { split; [done|]. intros k1 k2 l0 Hk. done. }
  destruct (proj1 Hsep _ _ Hget) as (l0 & [= <-] & Hl).
  destruct (lookup_lt_is_Some_2 _ _ Hl) as [t Ht].
  exists t. split; [done|].
  unfold channel in Hch. rewrite Hget, Ht in Hch. exact Hch.
Qed.

Lemma parse_topics_channels_witness :
  exists t,
    [[("x", VArr (Np.array [1; 3]%float))]; [("y", VArr (Np.array [2]%float))]] !! 0
    = Some t /\
    parse_topics
      (on_topic "/b"
         [("/b", Ok (mk_msg [("x", FNumber 1)]));
          ("/a", Ok (mk_msg [("y", FNumber 2)]));
          ("/b", Ok (mk_msg [("x", FNumber 3)]))]) []
    = ([t], Ok [("/b", VDict 0)]).
Proof.
  refine (parse_topics_channels
    [("/b", Ok (mk_msg [("x", FNumber 1)]));
     ("/a", Ok (mk_msg [("y", FNumber 2)]));
     ("/b", Ok (mk_msg [("x", FNumber 3)]))]
    [[("x", VArr (Np.array [1; 3]%float))]; [("y", VArr (Np.array [2]%float))]]
    [("/b", VDict 0); ("/a", VDict 1)] "/b" 0 _ eq_refl eq_refl).
  intros tp fs Hin f x Hx. rewrite !elem_of_cons, elem_of_nil in Hin.
  destruct Hin as [[= -> ->]|[[= -> ->]|[[= -> ->]|[]]]]; simpl in Hx;
    rewrite elem_of_cons, elem_of_nil in Hx; by destruct Hx as [[= _ ->]|[]].
Defined.

(** ** Fields of an unsupported kind *)

Lemma message_loop_unsupported fs :
  supported fs = false -> forall d h, raises (message_loop fs d h).
Proof.
  induction fs using fields_mut
    with (P0 := fun x => supported_val x = false ->
                  forall f old d h, raises (parse_field x f old d h));
    try done.
  - intros Hs d h. cbn [supported] in Hs. cbn [message_loop].
    apply raises_bind_k. intros h1 old _.
    apply andb_false_iff in Hs as [Hx|Hrest].
    + apply raises_bind. by apply IHfs.
    + apply raises_bind_k. intros h2 [f' v] _.
      apply raises_bind_k. intros h3 [] _. by apply IHfs0.
  - intros Hs f old d h. cbn [supported_val] in Hs. cbn [parse_field].
    apply raises_bind_k. intros h1 sub _. apply raises_bind. by apply IHfs.
  - intros _ f old d h. cbn [parse_field].
    apply raises_bind_k. intros h1 sub _. by exists h1, AttributeError.
Qed.

Lemma parse_message_unsupported fs d h :
  supported fs = false -> raises (parse_message fs d h).
Proof.
  intros Hs. unfold parse_message. apply raises_bind_k. intros h1 d1 _.
  by apply message_loop_unsupported.
Qed.

Lemma accumulate_try_unsupported ros topic fs h :
  supported fs = false -> raises (accumulate_try ros topic fs h).
Proof.
  intros Hs. unfold accumulate_try, try_except_KeyError.
  assert (Hhandler : forall h1,
    raises ((let* in_dict := new_dict in parse_message fs in_dict) h1)).
  { intros h1. apply raises_bind_k. intros h2 d2 _. by apply parse_message_unsupported. }
  assert (Hbody : raises ((let* in_dict := lift (getitem ros topic) in
                           parse_message fs in_dict) h)).
  { apply raises_bind_k. intros h2 d2 _. by apply parse_message_unsupported. }
  destruct Hbody as (h1 & e & ->).
  destruct (decide (e = KeyError)) as [->|Hne]; [apply Hhandler|].
  exists h1, e. by destruct e.
Qed.

(** A field of a kind [parse_message] has no branch for (a string, a
    list, ...), at any depth of a record, makes it raise whatever table
    it is given; and a bag that holds such a record cannot be read:
    [parse_topics] raises and returns no table. *)
Theorem parse_topics_unsupported_field (bag : list bag_record) (topic : string)
    (fs : fields) (h : heap) :
  (topic, Ok fs) ∈ bag -> supported fs = false ->
  (forall in_dict h0, exists h1 e, parse_message fs in_dict h0 = (h1, Raise e)) /\
  exists h' e, parse_topics bag h = (h', Raise e).
Proof.
  intros Hin Hs. split; [intros in_dict h0; by apply parse_message_unsupported|].
  unfold parse_topics. generalize (@nil (string * pyobj)) as ros. revert h.
  induction bag as [|[tp decoded] rest IH]; intros h ros.
  { by apply elem_of_nil in Hin. }
  rewrite read_loop_cons. destruct decoded as [msg|e]; [|by exists h, e].
  apply elem_of_cons in Hin as [[= <- <-]|Hin].
  - destruct (accumulate_try_unsupported ros topic fs h Hs) as (h1 & e & ->).
    by exists h1, e.
  - destruct (accumulate_try ros tp msg h) as [h1 [val|e]]; [by apply IH|].
    by exists h1, e.
Qed.

Lemma parse_topics_unsupported_field_witness :
  exists h' e,
    parse_topics [("/odom", Ok (mk_msg [("a", FNumber 2)]));
                  ("/odom", Ok (mk_msg [("pose", FMessage failing_record)]))] []
    = (h', Raise e).
Proof.
  refine (proj2 (parse_topics_unsupported_field
    [("/odom", Ok (mk_msg [("a", FNumber 2)]));
     ("/odom", Ok (mk_msg [("pose", FMessage failing_record)]))]
    "/odom" (mk_msg [("pose", FMessage failing_record)]) [] _ eq_refl)).
  apply list_elem_of_further, list_elem_of_here.
Defined.

(** ** The shape of updated dictionaries *)

Module DictShape.
Section shape.
Context {V : Type}.
Implicit Types (d a b : list (string * V)) (k : string) (v : V).

Lemma set_fresh k v a : k ∉ Dict.keys a -> Dict.set k v a = a ++ [(k, v)].
Proof.
  unfold Dict.keys. induction a as [|[k' v'] a IH]; csimpl; [done|].
  intros [Hne Hk]%not_elem_of_cons.
  rewrite decide_False by done. by rewrite IH.
Qed.

Lemma set_middle k v w a b :
  k ∉ Dict.keys a -> Dict.set k v (a ++ (k, w) :: b) = a ++ (k, v) :: b.
Proof.
  unfold Dict.keys. induction a as [|[k' v'] a IH]; csimpl.
  - intros _. by rewrite decide_True.
  - intros [Hne Hk]%not_elem_of_cons.
    rewrite decide_False by done. by rewrite IH.
Qed.

Lemma set_same k v d : Dict.get k d = Some v -> Dict.set k v d = d.
Proof.
  induction d as [|[k' v'] d IH]; csimpl; [done|].
  destruct (decide (k' = k)) as [->|Hne]; [by intros [= ->]|].
  intros Hg. by rewrite IH.
Qed.

(** [a | b] puts the items of [b] after those of [a] when [b] brings only
    new keys. *)
Lemma union_app a b :
  NoDup (Dict.keys b) -> (forall k, k ∈ Dict.keys b -> k ∉ Dict.keys a) ->
  Dict.union a b = a ++ b.
Proof.
  unfold Dict.union, Dict.keys. revert a.
  induction b as [|[k v] b IH]; intros a Hnd Hdis; csimpl.
  - by rewrite app_nil_r.
  - csimpl in Hnd. apply NoDup_cons in Hnd as [Hk Hnd].
    rewrite set_fresh by (apply Hdis; csimpl; apply list_elem_of_here).
    rewrite IH; [by rewrite <- app_assoc | done |].
    intros k' Hk'. unfold Dict.keys. rewrite fmap_app, elem_of_app. csimpl.
    rewrite list_elem_of_singleton. intros [Hin| ->]; [|done].
    revert Hin. apply Hdis. csimpl. by apply list_elem_of_further.
Qed.

(** [a | b] is [a] when [a] already holds every item of [b]. *)
Lemma union_same a b :
  (forall k v, (k, v) ∈ b -> Dict.get k a = Some v) -> Dict.union a b = a.
Proof.
  unfold Dict.union. induction b as [|[k v] b IH]; intros Hall; csimpl; [done|].
  rewrite set_same by (apply Hall; apply list_elem_of_here).
  apply IH. intros k' v' Hin. apply Hall. by apply list_elem_of_further.
Qed.

End shape.
End DictShape.

(** ** Tables as values: the representation *)

Lemma tree_ind' (P : tree -> Prop) :
  P TNone -> (forall a, P (TArr a)) ->
  (forall es, Forall (fun kT => P kT.2) es -> P (TDict es)) ->
  forall T, P T.
Proof.
  intros HN HA HD. fix IH 1. intros [|a|es]; [done | done |].
  apply HD. induction es as [|[k T] es IHes]; constructor; [apply IH | apply IHes].
Qed.

Lemma repr_dict h es v fp :
  repr h (TDict es) v fp <->
  exists l t fpe,
    v = VDict l /\ h !! l = Some t /\ (l ∉ fpe) /\ fp = {[l]} ∪ fpe /\
    repr_entries h es t fpe.
Proof.
  assert (Hsame : forall t fpe,
    (fix entries (es : list (string * tree)) (t : list (string * pyobj))
         (fpe : gset nat) {struct es} : Prop :=
       match es, t with
       | [], [] => fpe = ∅
       | (k, T') :: es', (k', v') :: t' =>
           k' = k /\
           exists fp1 fp2,
             repr h T' v' fp1 /\ entries es' t' fp2 /\ fp1 ## fp2 /\ fpe = fp1 ∪ fp2
       | _, _ => False
       end) es t fpe <-> repr_entries h es t fpe).
  { induction es as [|[k T'] es IH]; intros [|[k' v'] t] fpe; simpl; try done.
    split; intros (Hk & fp1 & fp2 & H1 & H2 & Hd & Hfp); (split; [done|]);
      exists fp1, fp2; (split_and!; [done | by apply IH | done | done]). }
  simpl. split; intros (l & t & fpe & Hv & Hl & Hnl & Hfp & He);
    exists l, t, fpe; (split_and!; [done | done | done | done | by apply Hsame]).
Qed.

Lemma repr_entries_cons h k T es k' v t fpe :
  repr_entries h ((k, T) :: es) ((k', v) :: t) fpe <->
  k' = k /\ exists fp1 fp2,
    repr h T v fp1 /\ repr_entries h es t fp2 /\ fp1 ## fp2 /\ fpe = fp1 ∪ fp2.
Proof. done. Qed.

Lemma repr_obj h T v fp :
  repr h T v fp ->
  match v with
  | VNone => T = TNone /\ fp = ∅
  | VArr a => T = TArr a /\ fp = ∅
  | VDict l => exists es, T = TDict es
  end.
Proof.
  destruct T as [|a|es].
  - by intros [-> ->].
  - by intros [-> ->].
  - intros (l & t & fpe & -> & _)%repr_dict. by exists es.
Qed.

(** The tables that hold a value are tables of the heap. *)
Lemma repr_bound h T : forall v fp, repr h T v fp -> forall x, x ∈ fp -> x < length h.
Proof.
  induction T as [|a|es IH] using tree_ind'; intros v fp.
  - intros [_ ->] x Hx. set_solver.
  - intros [_ ->] x Hx. set_solver.
  - intros (l & t & fpe & -> & Hl & Hnl & -> & He)%repr_dict x Hx.
    apply elem_of_union in Hx as [->%elem_of_singleton|Hx];
      [by eapply lookup_lt_Some|].
    clear Hl Hnl. revert t fpe He Hx.
    induction IH as [|[k T] es HT _ IHes]; intros [|[k' v'] t] fpe; simpl; try done.
    + intros ->. set_solver.
    + intros (_ & fp1 & fp2 & H1 & H2 & _ & ->) [Hx|Hx]%elem_of_union.
      * by eapply HT.
      * by eapply IHes.
Qed.

Lemma repr_entries_bound h es t fpe :
  repr_entries h es t fpe -> forall x, x ∈ fpe -> x < length h.
Proof.
  revert t fpe. induction es as [|[k T] es IH]; intros [|[k' v'] t] fpe; simpl; try done.
  - intros ->. set_solver.
  - intros (_ & fp1 & fp2 & H1 & H2 & _ & ->) x [Hx|Hx]%elem_of_union.
    + by eapply repr_bound.
    + by eapply IH.
Qed.

(** A value stays where it is as long as its tables are left alone. *)
Lemma repr_frame h h' T : forall v fp,
  repr h T v fp -> (forall x, x ∈ fp -> h' !! x = h !! x) -> repr h' T v fp.
Proof.
  induction T as [|a|es IH] using tree_ind'; intros v fp; [done | done |].
  intros (l & t & fpe & -> & Hl & Hnl & -> & He)%repr_dict Hsame.
  apply repr_dict. exists l, t, fpe. split_and!; [done | | done | done |].
  { rewrite Hsame; [done | set_solver]. }
  assert (Hsame' : forall x, x ∈ fpe -> h' !! x = h !! x) by (intros x Hx; apply Hsame; set_solver).
  clear Hl Hnl Hsame. revert t fpe He Hsame'.
  induction IH as [|[k T] es HT _ IHes]; intros [|[k' v'] t] fpe; simpl; try done.
  intros (Hk & fp1 & fp2 & H1 & H2 & Hd & ->) Hsame. split; [done|].
  exists fp1, fp2. split_and!; [| | done | done].
  - apply HT; [done|]. intros x Hx. apply Hsame. set_solver.
  - apply IHes; [done|]. intros x Hx. apply Hsame. set_solver.
Qed.

Lemma repr_entries_frame h h' es t fpe :
  repr_entries h es t fpe -> (forall x, x ∈ fpe -> h' !! x = h !! x) ->
  repr_entries h' es t fpe.
Proof.
  revert t fpe. induction es as [|[k T] es IH]; intros [|[k' v'] t] fpe; simpl; try done.
  intros (Hk & fp1 & fp2 & H1 & H2 & Hd & ->) Hsame. split; [done|].
  exists fp1, fp2. split_and!; [| | done | done].
  - eapply repr_frame; [done|]. intros x Hx. apply Hsame. set_solver.
  - apply IH; [done|]. intros x Hx. apply Hsame. set_solver.
Qed.

Lemma repr_entries_keys h es t fpe :
  repr_entries h es t fpe -> Dict.keys t = Dict.keys es.
Proof.
  unfold Dict.keys. revert t fpe.
  induction es as [|[k T] es IH]; intros [|[k' v'] t] fpe; simpl; try done.
  intros (-> & fp1 & fp2 & _ & H2 & _). csimpl. f_equal. by eapply IH.
Qed.

(** The entry of one key set apart from the others: it can be replaced
    by any value whose tables are apart from theirs. *)
Lemma repr_entries_focus h es k : forall t fpe,
  repr_entries h es t fpe ->
  exists fpk fprest,
    fpe = fpk ∪ fprest /\ fpk ## fprest /\
    repr h (default TNone (Dict.get k es)) (default VNone (Dict.get k t)) fpk /\
    (Dict.get k t = None <-> Dict.get k es = None) /\
    forall h' T' v' fp',
      (forall x, x ∈ fprest -> h' !! x = h !! x) ->
      repr h' T' v' fp' -> fp' ## fprest ->
      repr_entries h' (Dict.set k T' es) (Dict.set k v' t) (fp' ∪ fprest).
Proof.
  induction es as [|[k0 T0] es IH]; intros [|[k0' v0] t] fpe; simpl; try done.
  - intros ->. exists ∅, ∅.
    split; [set_solver|]. split; [set_solver|]. split; [done|]. split; [done|].
    intros h' T' v' fp' _ Hr _. split; [done|]. exists fp', ∅.
    split_and!; [done | done | set_solver | done].
  - intros (-> & fp1 & fp2 & H1 & H2 & Hd & ->).
    destruct (decide (k0 = k)) as [->|Hne].
    + exists fp1, fp2.
      split; [done|]. split; [done|]. split; [done|]. split; [done|].
      intros h' T' v' fp' Hsame Hr Hdis. split; [done|]. exists fp', fp2.
      split_and!; [done | by eapply repr_entries_frame | done | done].
    + destruct (IH _ _ H2) as (fpk & fprest & -> & Hdk & Hrk & Hnone & Hset).
      exists fpk, (fp1 ∪ fprest).
      split; [clear -Hd; set_solver|]. split; [clear -Hd Hdk; set_solver|].
      split; [done|]. split; [done|].
      intros h' T' v' fp' Hsame Hr Hdis. split; [done|].
      exists fp1, (fp' ∪ fprest).
      split_and!; [| | clear -Hd Hdk Hdis; set_solver | clear; set_solver].
      * eapply repr_frame; [done|]. intros x Hx. apply Hsame. clear -Hx. set_solver.
      * apply Hset; [|done|clear -Hdis; set_solver].
        intros x Hx. apply Hsame. clear -Hx. set_solver.
Qed.

Lemma extends_refl h fp : extends h h fp fp.
Proof. split_and!; [done | by left | done]. Qed.

Lemma extends_trans h1 h2 h3 fp1 fp2 fp3 :
  extends h1 h2 fp1 fp2 -> extends h2 h3 fp2 fp3 -> extends h1 h3 fp1 fp3.
Proof.
  intros (Hl12 & Hfp12 & Hfr12) (Hl23 & Hfp23 & Hfr23). split_and!; [lia | |].
  - intros x Hx. destruct (Hfp23 x Hx) as [Hx2|?]; [|right; lia].
    destruct (Hfp12 x Hx2) as [?|?]; [by left | by right].
  - intros x Hlt Hx. rewrite Hfr23; [by apply Hfr12 | lia |].
    intros Hx2. destruct (Hfp12 x Hx2) as [?|?]; [done | lia].
Qed.

Lemma extends_subseteq h h' fp fp0 fp' :
  extends h h' fp fp' -> fp ⊆ fp0 -> extends h h' fp0 fp'.
Proof.
  intros (Hl & Hfp & Hfr) Hsub. split_and!; [done | |].
  - intros x Hx. destruct (Hfp x Hx) as [?|?]; [left; by apply Hsub | by right].
  - intros x Hlt Hx. apply Hfr; [done|]. intros Hin. apply Hx. by apply Hsub.
Qed.

(** ** Tables as values: the loop of the parser *)

(** The leaf parsers see of a prior table only that it is a table. *)
Lemma accumulate_as_obj x h T v fp :
  repr h T v fp -> accumulate x v = accumulate x (as_obj T).
Proof.
  intros Hr. apply repr_obj in Hr. destruct v as [|a|l].
  - by destruct Hr as [-> _].
  - by destruct Hr as [-> _].
  - destruct Hr as [es ->]. by destruct x.
Qed.

Lemma accumulate_not_dict x prior v :
  accumulate x prior = Ok v -> repr [] (of_obj v) v ∅ /\ forall l, v <> VDict l.
Proof.
  intros Hacc.
  assert (Hnd : forall l, v <> VDict l).
  { intros l. destruct x; simpl in Hacc; try done.
    - by eapply parse_scalar_not_dict.
    - by eapply parse_scalar_not_dict.
    - by eapply parse_array_not_dict.
    - by eapply parse_ndarray_not_dict. }
  split; [|done]. destruct v as [|a|l]; [done | done | by destruct (Hnd l)].
Qed.

Lemma tree_step_leaf x f es :
  is_leaf x = true ->
  tree_step x f es =
  tree_leaf (key_of f x)
    (accumulate x (as_obj (default TNone (Dict.get (key_of f x) es)))) es.
Proof. by destruct x. Qed.

Lemma field_step_leaf x f l h t :
  is_leaf x = true -> h !! l = Some t ->
  field_step x f (VDict l) h =
  match accumulate x (default VNone (Dict.get (key_of f x) t)) with
  | Ok v => (<[l := Dict.set (key_of f x) v t]> h, Ok tt)
  | Raise e => (h, Raise e)
  end.
Proof.
  intros Hleaf Hl. unfold field_step, bind at 1.
  rewrite (obj_get_table _ _ _ _ Hl). unfold bind at 1.
  rewrite (parse_field_leaf _ _ _ _ _ Hleaf Hl).
  destruct (accumulate x _) as [v|e]; simpl; [|done].
  by rewrite Hl.
Qed.

Lemma message_loop_cons f x rest d h :
  message_loop (FCons f x rest) d h =
  match field_step x f d h with
  | (h1, Ok _) => message_loop rest d h1
  | (h1, Raise e) => (h1, Raise e)
  end.
Proof.
  cbn [message_loop]. unfold field_step, bind.
  destruct (obj_get d f h) as [h0 [old|e]]; [|done].
  destruct (parse_field x f old d h0) as [h1 [[f' v]|e]]; [|done].
  by destruct (obj_set d f' v h1) as [h2 [[]|e]].
Qed.

Lemma step_refines_leaf x : is_leaf x = true -> step_refines x.
Proof.
  intros Hleaf f l h t es fpe h' r Hl He Hnl.
  rewrite (field_step_leaf _ _ _ _ _ Hleaf Hl), (tree_step_leaf _ _ _ Hleaf).
  destruct (repr_entries_focus h es (key_of f x) t fpe He)
    as (fpk & fprest & -> & Hdis & Hold & _ & Hset).
  rewrite (accumulate_as_obj x _ _ _ _ Hold).
  destruct (accumulate x (as_obj _)) as [v|e] eqn:Hacc; intros [= <- <-]; simpl.
  - destruct (accumulate_not_dict _ _ _ Hacc) as [Hv _].
    assert (Hlt : l < length h) by (by eapply lookup_lt_Some).
    exists (Dict.set (key_of f x) (of_obj v) es), (Dict.set (key_of f x) v t), (∅ ∪ fprest).
    split_and!.
    + done.
    + by apply list_lookup_insert_eq.
    + apply Hset; [| |set_solver].
      * intros y Hy. apply list_lookup_insert_ne. set_solver.
      * eapply repr_frame; [done|]. set_solver.
    + set_solver.
    + split_and!.
      * by rewrite length_insert.
      * intros y Hy. left. set_solver.
      * intros y _ Hy. apply list_lookup_insert_ne. set_solver.
  - exists es, t, (fpk ∪ fprest).
    split_and!; [done | done | done | done | apply extends_refl].
Qed.

Lemma step_refines_other : step_refines FOther.
Proof.
  intros f l h t es fpe h' r Hl He Hnl. unfold field_step, bind at 1.
  rewrite (obj_get_table _ _ _ _ Hl). cbn [parse_field]. unfold bind at 1 2.
  assert (Hlt : l < length h) by (by eapply lookup_lt_Some).
  destruct (default VNone (Dict.get f t)) as [|a|l2]; simpl; intros [= <- <-].
  - exists es, t, fpe. split_and!; [done | | | done |].
    + by rewrite lookup_app_l.
    + eapply repr_entries_frame; [done|]. intros x Hx. apply lookup_app_l.
      by eapply repr_entries_bound.
    + split_and!; [rewrite length_app; lia | by left |].
      intros x Hx _. by apply lookup_app_l.
  - exists es, t, fpe. split_and!; [done | done | done | done | apply extends_refl].
  - exists es, t, fpe. split_and!; [done | done | done | done | apply extends_refl].
Qed.

Lemma field_step_message m f l h t :
  h !! l = Some t ->
  field_step (FMessage m) f (VDict l) h =
  match init_dict (default VNone (Dict.get f t)) h with
  | (h0, Ok sub_dict) =>
      match message_loop m sub_dict h0 with
      | (h1, Ok val) => obj_set (VDict l) f val h1
      | (h1, Raise e) => (h1, Raise e)
      end
  | (h0, Raise e) => (h0, Raise e)
  end.
Proof.
  intros Hl. unfold field_step, bind at 1. rewrite (obj_get_table _ _ _ _ Hl).
  cbn [parse_field]. unfold bind.
  destruct (init_dict _ h) as [h0 [sub|e]]; [|done].
  by destruct (message_loop m sub h0) as [h1 [val|e]].
Qed.

Lemma default_Some {A} (d x : A) (o : option A) : default d o = x -> x <> d -> o = Some x.
Proof. destruct o; simpl; congruence. Qed.

Lemma step_refines_message m : loop_refines m -> step_refines (FMessage m).
Proof.
  intros IH f l h t es fpe h' r Hl He Hnl.
  rewrite (field_step_message _ _ _ _ _ Hl).
  destruct (repr_entries_focus h es f t fpe He)
    as (fpk & fprest & -> & Hdis & Hold & _ & Hset).
  assert (Hlt : l < length h) by (by eapply lookup_lt_Some).
  assert (Hbound : forall x, x ∈ fpk ∪ fprest -> x < length h).
  { by eapply repr_entries_bound. }
  cbn [tree_step].
  destruct (default VNone (Dict.get f t)) as [|a|l2] eqn:Hvold.
  - (* no prior entry: a new table *)
    apply repr_obj in Hold as [-> ->]. simpl init_dict. unfold new_dict.
    destruct (message_loop m (VDict (length h)) (h ++ [[]])) as [h1 r1] eqn:Hrun.
    assert (Hnew : repr (h ++ [[]]) (TDict []) (VDict (length h)) ({[length h]} ∪ ∅)).
    { apply repr_dict. exists (length h), [], ∅.
      split_and!; [done | by rewrite lookup_app_r, Nat.sub_diag | set_solver | done | done]. }
    destruct (IH _ _ _ _ _ _ Hnew Hrun) as (T' & fp' & r0 & Htree & -> & Hr' & Hlen & Hfp & Hfr).
    rewrite Htree. rewrite length_app in Hlen, Hfp, Hfr. simpl in Hlen, Hfp, Hfr.
    assert (Hkeep : forall x, x < length h -> h1 !! x = h !! x).
    { intros x Hx. rewrite Hfr; [by apply lookup_app_l | lia | set_solver by lia]. }
    assert (Hfresh : forall x, x ∈ fp' -> length h <= x).
    { intros x Hx. destruct (Hfp x Hx) as [Hin|?]; [set_solver by lia | lia]. }
    destruct r0 as [[]|e].
    + unfold obj_set. rewrite Hkeep, Hl by done. intros [= <- <-].
      exists (Dict.set f T' es), (Dict.set f (VDict (length h)) t), (fp' ∪ fprest).
      split_and!.
      * done.
      * apply list_lookup_insert_eq. lia.
      * apply Hset.
        -- intros x Hx. rewrite list_lookup_insert_ne by set_solver.
           apply Hkeep, Hbound. set_solver.
        -- eapply repr_frame; [done|]. intros x Hx.
           apply list_lookup_insert_ne. apply Hfresh in Hx. lia.
        -- intros x Hx1 Hx2. apply Hfresh in Hx1.
           assert (x < length h) by (apply Hbound; set_solver). lia.
      * intros [Hx|Hx]%elem_of_union; [apply Hfresh in Hx; lia | set_solver].
      * split_and!.
        -- rewrite length_insert. lia.
        -- intros x Hx.
           destruct (decide (x ∈ fp')) as [Hin|Hnin]; [right; by apply Hfresh|].
           left. set_solver.
        -- intros x Hx Hnx. rewrite list_lookup_insert_ne by set_solver.
           by apply Hkeep.
    + intros [= <- <-]. exists es, t, (∅ ∪ fprest).
      split_and!; [done | by rewrite Hkeep | | done |].
      * eapply repr_entries_frame; [done|]. intros x Hx. apply Hkeep, Hbound. done.
      * split_and!; [lia | by left |]. intros x Hx _. by apply Hkeep.
  - (* the prior entry is an array *)
    assert (Hget : Dict.get f t = Some (VArr a)) by (by apply (default_Some VNone)).
    apply repr_obj in Hold as Hshape. destruct Hshape as [HT ->]. rewrite HT in *.
    simpl init_dict. unfold ret.
    destruct (message_loop m (VArr a) h) as [h1 r1] eqn:Hrun.
    destruct (IH _ _ _ _ _ _ Hold Hrun) as (T' & fp' & r0 & Htree & -> & Hr' & Hlen & Hfp & Hfr).
    rewrite Htree.
    assert (Hkeep : forall x, x < length h -> h1 !! x = h !! x).
    { intros x Hx. apply Hfr; [done | set_solver]. }
    assert (Hfresh : forall x, x ∈ fp' -> length h <= x).
    { intros x Hx. destruct (Hfp x Hx) as [Hin|?]; [set_solver | lia]. }
    assert (Hentries : repr_entries h1 (Dict.set f T' es) t (fp' ∪ fprest)).
    { rewrite <- (DictShape.set_same f (VArr a) t Hget). apply Hset; [|done|].
      - intros x Hx. apply Hkeep, Hbound. set_solver.
      - intros x Hx1 Hx2. apply Hfresh in Hx1.
        assert (x < length h) by (apply Hbound; set_solver). lia. }
    assert (Hext : extends h h1 ({[l]} ∪ (∅ ∪ fprest)) ({[l]} ∪ (fp' ∪ fprest))).
    { split_and!; [done | |].
      - intros x Hx. destruct (decide (x ∈ fp')) as [Hin|Hnin]; [right; by apply Hfresh|].
        left. set_solver.
      - intros x Hx _. by apply Hkeep. }
    assert (Hnl' : l ∉ fp' ∪ fprest).
    { intros [Hx|Hx]%elem_of_union; [apply Hfresh in Hx; lia | set_solver]. }
    destruct r0 as [[]|e].
    + unfold obj_set. rewrite Hkeep, Hl by done. intros [= <- <-].
      rewrite (DictShape.set_same f (VArr a) t Hget).
      rewrite list_insert_id by (by rewrite Hkeep).
      exists (Dict.set f T' es), t, (fp' ∪ fprest).
      split_and!; [done | by rewrite Hkeep | done | done | done].
    + intros [= <- <-]. exists (Dict.set f T' es), t, (fp' ∪ fprest).
      split_and!; [done | by rewrite Hkeep | done | done | done].
  - (* the prior entry is a table *)
    assert (Hget : Dict.get f t = Some (VDict l2)) by (by apply (default_Some VNone)).
    apply repr_obj in Hold as Hshape. destruct Hshape as [sub HT]. rewrite HT in *.
    simpl init_dict. unfold ret.
    destruct (message_loop m (VDict l2) h) as [h1 r1] eqn:Hrun.
    destruct (IH _ _ _ _ _ _ Hold Hrun) as (T' & fp' & r0 & Htree & -> & Hr' & Hlen & Hfp & Hfr).
    rewrite Htree.
    assert (Hkeep : forall x, x < length h -> x ∉ fpk -> h1 !! x = h !! x).
    { intros x Hx Hnx. by apply Hfr. }
    assert (Hentries : repr_entries h1 (Dict.set f T' es) t (fp' ∪ fprest)).
    { rewrite <- (DictShape.set_same f (VDict l2) t Hget). apply Hset; [|done|].
      - intros x Hx. apply Hkeep; [apply Hbound|]; set_solver.
      - intros x Hx1 Hx2. destruct (Hfp x Hx1) as [Hin|Hge]; [set_solver|].
        assert (x < length h) by (apply Hbound; set_solver). lia. }
    assert (Hext : extends h h1 ({[l]} ∪ (fpk ∪ fprest)) ({[l]} ∪ (fp' ∪ fprest))).
    { split_and!; [done | |].
      - intros x Hx. destruct (decide (x ∈ fp')) as [Hin|Hnin].
        + destruct (Hfp x Hin) as [?|?]; [left; set_solver | by right].
        + left. set_solver.
      - intros x Hx Hnx. apply Hkeep; [done | set_solver]. }
    assert (Hnl' : l ∉ fp' ∪ fprest).
    { intros [Hx|Hx]%elem_of_union; [|set_solver].
      destruct (Hfp l Hx) as [?|?]; [set_solver | lia]. }
    assert (Hl1 : h1 !! l = Some t) by (rewrite Hkeep; [done | done | set_solver]).
    destruct r0 as [[]|e].
    + unfold obj_set. rewrite Hl1. intros [= <- <-].
      rewrite (DictShape.set_same f (VDict l2) t Hget).
      rewrite list_insert_id by done.
      exists (Dict.set f T' es), t, (fp' ∪ fprest).
      split_and!; [done | done | done | done | done].
    + intros [= <- <-]. exists (Dict.set f T' es), t, (fp' ∪ fprest).
      split_and!; [done | done | done | done | done].
Qed.

Lemma loop_refines_nil : loop_refines FNil.
Proof.
  intros d h T fp h' r Hr [= <- <-]. exists T, fp, (Ok tt).
  split_and!; [done | done | done | apply extends_refl].
Qed.

Lemma loop_refines_cons f x rest :
  step_refines x -> loop_refines rest -> loop_refines (FCons f x rest).
Proof.
  intros Hx Hrest d h T fp h' r Hr. rewrite message_loop_cons. cbn [tree_loop].
  destruct d as [|a|l].
  - apply repr_obj in Hr as Hshape. destruct Hshape as [-> ->].
    intros [= <- <-]. exists TNone, ∅, (Raise AttributeError).
    split_and!; [done | done | done | apply extends_refl].
  - apply repr_obj in Hr as Hshape. destruct Hshape as [-> ->].
    intros [= <- <-]. exists (TArr a), ∅, (Raise AttributeError).
    split_and!; [done | done | done | apply extends_refl].
  - apply repr_obj in Hr as Hshape. destruct Hshape as [es ->].
    apply repr_dict in Hr as (l0 & t & fpe & [= <-] & Hl & Hnl & -> & He).
    destruct (field_step x f (VDict l) h) as [h1 r1] eqn:Hstep.
    destruct (Hx _ _ _ _ _ _ _ _ Hl He Hnl Hstep)
      as (es1 & t1 & fpe1 & Htree & Hl1 & He1 & Hnl1 & Hext1).
    rewrite Htree. destruct r1 as [[]|e].
    + intros Hrun.
      assert (Hr1 : repr h1 (TDict es1) (VDict l) ({[l]} ∪ fpe1)).
      { apply repr_dict. by exists l, t1, fpe1. }
      destruct (Hrest _ _ _ _ _ _ Hr1 Hrun) as (T' & fp' & r0 & Htree' & -> & Hr' & Hext').
      exists T', fp', r0. split_and!; [done | done | done | by eapply extends_trans].
    + intros [= <- <-]. exists (TDict es1), ({[l]} ∪ fpe1), (Raise e).
      split_and!; [done | done | | done].
      apply repr_dict. by exists l, t1, fpe1.
Qed.

(** The loop of [parse_message] on a tree-shaped table does to the value
    of the table what [tree_loop] says, and it writes to no table that
    does not hold that value. *)
Lemma loop_refines_all fs : loop_refines fs.
Proof.
  induction fs using fields_mut with (P0 := step_refines).
  - apply loop_refines_nil.
  - by apply loop_refines_cons.
  - by apply step_refines_leaf.
  - by apply step_refines_leaf.
  - by apply step_refines_leaf.
  - by apply step_refines_leaf.
  - by apply step_refines_message.
  - apply step_refines_other.
Qed.

Lemma parse_message_refines fs l h es fp h' r :
  repr h (TDict es) (VDict l) fp ->
  parse_message fs (VDict l) h = (h', r) ->
  exists es' fp' r0,
    tree_loop fs (TDict es) = (TDict es', r0) /\ r = returned l r0 /\
    repr h' (TDict es') (VDict l) fp' /\ extends h h' fp fp'.
Proof.
  intros Hr Hrun.
  destruct (loop_refines_all fs _ _ _ _ _ _ Hr Hrun) as (T' & fp' & r0 & Htree & -> & Hr' & Hext).
  apply repr_obj in Hr' as Hshape. destruct Hshape as [es' ->].
  exists es', fp', r0. split_and!; [done | by destruct r0 | done | done].
Qed.

(** ** Tables as values: what a record does to a table *)

Lemma tree_loop_dict fs : forall es T' r,
  tree_loop fs (TDict es) = (T', r) -> exists es', T' = TDict es'.
Proof.
  induction fs as [|f x rest IH] using fields_ind; intros es T' r.
  - intros [= <- _]. by exists es.
  - cbn [tree_loop]. destruct (tree_step x f es) as [es1 [[]|e]].
    + apply IH.
    + intros [= <- _]. by exists es1.
Qed.

Lemma tree_loop_array fs a T' :
  tree_loop fs (TArr a) = (T', Ok tt) -> fs = FNil /\ T' = TArr a.
Proof. destruct fs; [by intros [= <-] | done]. Qed.

Lemma tree_step_other_keys x f es es' r k :
  tree_step x f es = (es', r) -> k <> key_of f x -> Dict.get k es' = Dict.get k es.
Proof.
  intros Hstep Hk.
  assert (Hleaf : forall key acc, key = key_of f x ->
    tree_leaf key acc es = (es', r) -> Dict.get k es' = Dict.get k es).
  { intros key [v|e] -> [= <- _]; [|done]. by apply DictFacts.get_set_ne. }
  destruct x; cbn [tree_step] in Hstep; try (by eapply Hleaf).
  - destruct (default TNone (Dict.get f es)) as [|a|sub].
    + destruct (tree_loop m (TDict [])) as [T [[]|e]]; injection Hstep as <- _; [|done].
      by apply DictFacts.get_set_ne.
    + destruct (tree_loop m (TArr a)) as [T [[]|e]]; injection Hstep as <- _;
        by apply DictFacts.get_set_ne.
    + destruct (tree_loop m (TDict sub)) as [T [[]|e]]; injection Hstep as <- _;
        by apply DictFacts.get_set_ne.
  - by injection Hstep as <- _.
Qed.

Lemma tree_step_keys x f es es' k :
  tree_step x f es = (es', Ok tt) ->
  k ∈ Dict.keys es' <-> k = key_of f x \/ k ∈ Dict.keys es.
Proof.
  intros Hstep.
  assert (Hleaf : forall key acc, key = key_of f x ->
    tree_leaf key acc es = (es', Ok tt) ->
    k ∈ Dict.keys es' <-> k = key_of f x \/ k ∈ Dict.keys es).
  { intros key [v|e] -> [= <-]. apply DictFacts.elem_of_keys_set. }
  destruct x; cbn [tree_step] in Hstep; try (exact (Hleaf _ _ eq_refl Hstep)); [|done].
  destruct (default TNone (Dict.get f es)) as [|a|sub].
  - destruct (tree_loop m (TDict [])) as [T [[]|e]]; [|done]. injection Hstep as <-.
    apply DictFacts.elem_of_keys_set.
  - destruct (tree_loop m (TArr a)) as [T [[]|e]]; [|done]. injection Hstep as <-.
    apply DictFacts.elem_of_keys_set.
  - destruct (tree_loop m (TDict sub)) as [T [[]|e]]; [|done]. injection Hstep as <-.
    apply DictFacts.elem_of_keys_set.
Qed.

(** What is said of a field looks at the two tables under the field's
    key only. *)
Lemma field_post_ext x f a a' b b' :
  Dict.get (key_of f x) a = Dict.get (key_of f x) b ->
  Dict.get (key_of f x) a' = Dict.get (key_of f x) b' ->
  field_post x f a a' -> field_post x f b b'.
Proof.
  intros Hab Hab'. destruct x; cbn [field_post key_of] in *;
    unfold prior_table; rewrite <- ?Hab, <- ?Hab'; done.
Qed.

Lemma each_field_ext fs a a' b b' :
  (forall k, k ∈ field_keys fs -> Dict.get k a = Dict.get k b) ->
  (forall k, k ∈ field_keys fs -> Dict.get k a' = Dict.get k b') ->
  each_field fs a a' -> each_field fs b b'.
Proof.
  induction fs as [|f x rest IH] using fields_ind; [done|].
  unfold field_keys. cbn [to_list each_field]. csimpl. intros Hab Hab' [Hx Hrest]. split.
  - eapply field_post_ext; [| |done]; [apply Hab | apply Hab']; apply list_elem_of_here.
  - apply IH; [| |done]; intros k Hk; [apply Hab | apply Hab'];
      by apply list_elem_of_further.
Qed.

Lemma step_post_leaf x : is_leaf x = true -> step_post x.
Proof.
  intros Hleaf f es es' _. rewrite (tree_step_leaf _ _ _ Hleaf).
  destruct (accumulate x _) as [v|e] eqn:Hacc; intros [= <-].
  assert (Hpost : exists v0,
    Dict.get (key_of f x) (Dict.set (key_of f x) (of_obj v) es) = Some (of_obj v0) /\
    accumulate x (as_obj (default TNone (Dict.get (key_of f x) es))) = Ok v0).
  { exists v. split; [apply DictFacts.get_set_eq | done]. }
  by destruct x.
Qed.

Lemma step_post_message m : loop_post m -> step_post (FMessage m).
Proof.
  intros IH f es es' [Hnd Hdist]. cbn [tree_step field_post]. unfold prior_table.
  destruct (Dict.get f es) as [[|a|sub]|] eqn:Hget; simpl.
  - destruct (tree_loop m (TDict [])) as [T [[]|e]] eqn:Hloop; [|done]. intros [= <-].
    destruct (IH _ _ Hnd Hdist Hloop) as (sub' & -> & Hk & Hc & He).
    exists sub'. split_and!; [apply DictFacts.get_set_eq | done | done | done].
  - destruct (tree_loop m (TArr a)) as [T [[]|e]] eqn:Hloop; [|done]. intros [= <-].
    apply tree_loop_array in Hloop as [_ ->]. apply DictFacts.get_set_eq.
  - destruct (tree_loop m (TDict sub)) as [T [[]|e]] eqn:Hloop; [|done]. intros [= <-].
    destruct (IH _ _ Hnd Hdist Hloop) as (sub' & -> & Hk & Hc & He).
    exists sub'. split_and!; [apply DictFacts.get_set_eq | done | done | done].
  - destruct (tree_loop m (TDict [])) as [T [[]|e]] eqn:Hloop; [|done]. intros [= <-].
    destruct (IH _ _ Hnd Hdist Hloop) as (sub' & -> & Hk & Hc & He).
    exists sub'. split_and!; [apply DictFacts.get_set_eq | done | done | done].
Qed.

Lemma loop_post_cons f x rest : step_post x -> loop_post rest -> loop_post (FCons f x rest).
Proof.
  intros Hx Hrest es T' Hnd [Hdx Hdrest]. cbn [tree_loop].
  unfold field_keys in Hnd. cbn [to_list] in Hnd. csimpl in Hnd.
  apply NoDup_cons in Hnd as [Hkey Hnd].
  destruct (tree_step x f es) as [es1 [[]|e]] eqn:Hstep; [|done]. intros Hloop.
  destruct (Hrest _ _ Hnd Hdrest Hloop) as (es' & -> & Hk & Hc & He).
  exists es'. split; [done|].
  assert (Hother : forall k, k <> key_of f x -> Dict.get k es1 = Dict.get k es).
  { intros k Hk0. by eapply tree_step_other_keys. }
  refine (conj _ (conj _ _)).
  - intros k. rewrite Hk, (tree_step_keys _ _ _ _ _ Hstep).
    unfold field_keys. cbn [to_list]. csimpl. rewrite elem_of_cons. tauto.
  - intros k Hnk. unfold field_keys in Hnk. cbn [to_list] in Hnk. csimpl in Hnk.
    apply not_elem_of_cons in Hnk as [Hne Hnk]. rewrite Hc by done. by apply Hother.
  - cbn [each_field]. split.
    + eapply (field_post_ext x f es es1); [done | | by apply Hx].
      symmetry. by apply Hc.
    + eapply (each_field_ext rest es1 es'); [| done | done].
      intros k Hkin. apply Hother. intros ->. done.
Qed.

(** A record whose keys are distinct at every level, when it is parsed
    without failure, has done to the table what [nested_post] says. *)
Lemma loop_post_all fs : loop_post fs.
Proof.
  induction fs using fields_mut with (P0 := step_post).
  - intros es T' _ _ [= <-]. exists es. split; [done|].
    refine (conj _ (conj _ I)); [|done].
    intros k. split; [by left | intros [?|Hk]; [done | by apply elem_of_nil in Hk]].
  - by apply loop_post_cons.
  - by apply step_post_leaf.
  - by apply step_post_leaf.
  - by apply step_post_leaf.
  - by apply step_post_leaf.
  - by apply step_post_message.
  - intros f es es' _ Hstep. done.
Qed.

Lemma mk_msg_to_list fs : mk_msg (to_list fs) = fs.
Proof. induction fs as [|f x rest IH] using fields_ind; [done|]. simpl. by rewrite IH. Qed.

Lemma to_list_mk_msg l : to_list (mk_msg l) = l.
Proof. induction l as [|[f x] l IH]; [done|]. simpl. by rewrite IH. Qed.

(** A loop that fails has done the fields before the first failing one,
    and then that field has failed. *)
Lemma tree_loop_split fs : forall es T' e,
  tree_loop fs (TDict es) = (T', Raise e) ->
  exists done f x rest es1 es',
    to_list fs = done ++ (f, x) :: rest /\
    tree_loop (mk_msg done) (TDict es) = (TDict es1, Ok tt) /\
    tree_step x f es1 = (es', Raise e) /\ T' = TDict es'.
Proof.
  induction fs as [|f x rest IH] using fields_ind; intros es T' e; [done|].
  cbn [tree_loop]. destruct (tree_step x f es) as [es1 [[]|e1]] eqn:Hstep.
  - intros Hloop.
    destruct (IH _ _ _ Hloop) as (done & f' & x' & rest' & es2 & es' & Hsplit & Hdone & Hfail & ->).
    exists ((f, x) :: done), f', x', rest', es2, es'.
    split_and!; [by simpl; rewrite Hsplit | | done | done].
    cbn [mk_msg tree_loop]. by rewrite Hstep.
  - intros [= <- <-]. by exists [], f, x, (to_list rest), es, es1.
Qed.

Lemma distinct_keys_prefix fs done rest :
  to_list fs = done ++ rest -> distinct_keys fs -> distinct_keys (mk_msg done).
Proof.
  intros Hsplit [Hnd Hdist]. split.
  - unfold field_keys in *. rewrite to_list_mk_msg. rewrite Hsplit, fmap_app in Hnd.
    by apply NoDup_app in Hnd as (? & _).
  - clear Hnd. revert fs Hsplit Hdist.
    induction done as [|[f x] done IH]; intros fs Hsplit Hdist; [done|].
    destruct fs as [|f0 x0 rest0]; [done|]. simpl in Hsplit.
    injection Hsplit as -> -> Hsplit. destruct Hdist as [Hx Hrest0].
    split; [done | by eapply IH].
Qed.

Lemma tree_step_leaf_fails x f es es' e :
  is_leaf x = true -> tree_step x f es = (es', Raise e) ->
  es' = es /\
  accumulate x (as_obj (default TNone (Dict.get (key_of f x) es))) = Raise e.
Proof.
  intros Hleaf. rewrite (tree_step_leaf _ _ _ Hleaf).
  destruct (accumulate x _) as [v|e0]; [done|]. by intros [= <- <-].
Qed.

(** ** Tables as values: the table after a call *)

Lemma repr_one_scalar_heap :
  repr one_scalar_heap (TDict one_scalar_value) (VDict 0) {[0]}.
Proof.
  apply repr_dict. exists 0, [("a", VArr (Np.array [1]%float))], ∅.
  split_and!; [done | done | set_solver | set_solver |].
  split; [done|]. exists ∅, ∅. split_and!; [done | done | set_solver | set_solver].
Qed.

Lemma repr_nested_heap :
  repr nested_heap (TDict nested_value) (VDict 0) {[0; 1]}.
Proof.
  apply repr_dict.
  exists 0, [("a", VArr (Np.array [1]%float)); ("pose", VDict 1)], {[1]}.
  split_and!; [done | done | set_solver | done |].
  split; [done|]. exists ∅, {[1]}. split_and!; [done | | set_solver | set_solver].
  split; [done|]. exists {[1]}, ∅. split_and!; [| done | set_solver | set_solver].
  apply repr_dict.
  exists 1, [("x", VArr (Np.array [5]%float)); ("y", VArr (Np.array [7]%float))], ∅.
  split_and!; [done | done | set_solver | set_solver |].
  split; [done|]. exists ∅, ∅. split_and!; [done | | set_solver | set_solver].
  split; [done|]. exists ∅, ∅. split_and!; [done | done | set_solver | set_solver].
Qed.

Lemma distinct_keys_pose_record : distinct_keys pose_record.
Proof.
  unfold distinct_keys, field_keys. simpl. split_and!; try done;
    repeat constructor; rewrite ?elem_of_cons, ?elem_of_nil; intuition discriminate.
Qed.

Lemma distinct_keys_failing_record : distinct_keys failing_record.
Proof.
  unfold distinct_keys, field_keys. simpl. split_and!; try done;
    repeat constructor; rewrite ?elem_of_cons, ?elem_of_nil; intuition discriminate.
Qed.

(** Without any assumption on the keys of the record: the keys of the
    table after a successful loop are the prior keys and the keys of the
    fields, and the entries under other keys are kept. *)
Lemma tree_loop_keys fs : forall es es',
  tree_loop fs (TDict es) = (TDict es', Ok tt) ->
  (forall k, k ∈ Dict.keys es' <-> k ∈ Dict.keys es \/ k ∈ field_keys fs) /\
  (forall k, k ∉ field_keys fs -> Dict.get k es' = Dict.get k es).
Proof.
  induction fs as [|f x rest IH] using fields_ind; intros es es'.
  - intros [= <-]. split; [|done].
    intros k. split; [by left | intros [?|Hk]; [done | by apply elem_of_nil in Hk]].
  - cbn [tree_loop]. destruct (tree_step x f es) as [es1 [[]|e]] eqn:Hstep; [|done].
    intros Hloop. destruct (IH _ _ Hloop) as [Hk Hc].
    unfold field_keys in *. cbn [to_list]. csimpl. split.
    + intros k. rewrite Hk, (tree_step_keys _ _ _ _ _ Hstep), elem_of_cons. tauto.
    + intros k Hnk. apply not_elem_of_cons in Hnk as [Hne Hnk]. rewrite Hc by done.
      by eapply tree_step_other_keys.
Qed.

(** The new table that [parse_message] makes for [None] is tree-shaped
    and stands for the empty table. *)
Lemma repr_empty_table (h : heap) :
  repr (h ++ [[]]) (TDict []) (VDict (length h)) {[length h]}.
Proof.
  apply repr_dict. exists (length h), [], ∅.
  split_and!; [done | | set_solver | set_solver | done].
  by rewrite lookup_app_r, Nat.sub_diag by lia.
Qed.

Lemma parse_message_none (fs : fields) (h : heap) :
  parse_message fs VNone h = parse_message fs (VDict (length h)) (h ++ [[]]).
Proof. done. Qed.

(** C1 (amended): [parse_message] returns a nested table, not a flat
    one.  For every record and every prior table that is tree-shaped
    (no table is held twice, none holds itself), a successful call
    returns the table it was given, and that table is tree-shaped again
    and stands for the value that the loop over the fields computes from
    the prior value.  Its keys are the prior keys and one key per field
    of the record (the field's own name, [stamp_s] for a header), so no
    key is composed from a path; the prior entries under other keys are
    carried over, with all that is nested in them.  When the keys of the
    record are distinct at every level of nesting, the entry of each
    field is described too: a leaf's entry is the accumulation of its
    value onto the prior entry of its key, and a nested record is stored
    under its bare field name as a table, which is the prior table under
    that name (an empty one when there is none) to which the nested
    record has done the same, level by level: its leaves accumulated
    onto the prior nested entries, the other prior nested entries kept;
    only a prior entry that is an array stays as it is.
    No table outside the prior value is written, and a call without a
    prior table is a call with a new empty table, which is tree-shaped. *)
Theorem parse_message_nested_table (fs : fields) (l : loc) (h h' : heap)
    (es : list (string * tree)) (fp : gset nat) (v : pyobj) :
  repr h (TDict es) (VDict l) fp ->
  parse_message fs (VDict l) h = (h', Ok v) ->
  v = VDict l /\
  (exists es' fp',
     repr h' (TDict es') (VDict l) fp' /\
     tree_loop fs (TDict es) = (TDict es', Ok tt) /\
     (forall k, k ∈ Dict.keys es' <-> k ∈ Dict.keys es \/ k ∈ field_keys fs) /\
     (forall k, k ∉ field_keys fs -> Dict.get k es' = Dict.get k es) /\
     (distinct_keys fs -> each_field fs es es')) /\
  (forall x, x < length h -> x ∉ fp -> h' !! x = h !! x) /\
  parse_message fs VNone h = parse_message fs (VDict (length h)) (h ++ [[]]) /\
  repr (h ++ [[]]) (TDict []) (VDict (length h)) {[length h]}.
Proof.
  intros Hr Hrun.
  destruct (parse_message_refines _ _ _ _ _ _ _ Hr Hrun)
    as (es' & fp' & r0 & Htree & Hret & Hr' & _ & _ & Hfr).
  destruct r0 as [[]|e]; [|done]. injection Hret as ->.
  destruct (tree_loop_keys _ _ _ Htree) as [Hk Hc].
  split_and!; [done | | done | done | apply repr_empty_table].
  exists es', fp'. split_and!; [done | done | done | done |].
  intros [Hnd Hdist].
  by destruct (loop_post_all fs _ _ Hnd Hdist Htree) as (es0 & [= <-] & _ & _ & He).
Qed.

Lemma parse_message_nested_table_witness :
  exists es' fp',
    repr [[("a", VArr (Np.array [1; 2]%float)); ("pose", VDict 1)];
          [("x", VArr (Np.array [5; 1]%float)); ("y", VArr (Np.array [7]%float))]]
         (TDict es') (VDict 0) fp' /\
    tree_loop pose_record (TDict nested_value) = (TDict es', Ok tt) /\
    each_field pose_record nested_value es'.
Proof.
  destruct (parse_message_nested_table pose_record 0 nested_heap
              [[("a", VArr (Np.array [1; 2]%float)); ("pose", VDict 1)];
               [("x", VArr (Np.array [5; 1]%float)); ("y", VArr (Np.array [7]%float))]]
              nested_value {[0; 1]} (VDict 0)
              repr_nested_heap eq_refl)
    as (_ & (es' & fp' & Hr' & Hloop & _ & _ & He) & _).
  exists es', fp'.
  split; [exact Hr' | split; [exact Hloop | exact (He distinct_keys_pose_record)]].
Defined.

(** C7 (amended): [parse_message] works on the table it is given and
    returns that same table; only for [None] does it make a new one.
    For every record and every prior table that is tree-shaped, the
    fields are done to that table one after the other.  A successful
    call has done all of them.  A call that fails has done the fields
    [done] that come before the first failing field [(f, x)], and that
    field, applied to the table they left, has failed with the exception
    of the call.  After the failure the caller's table is not what it
    was before the call: it holds what the fields before the failing one
    have put in it.  Its keys are the prior keys and the keys of those
    fields, the prior entries under other keys are kept, and, when the
    keys of the record are distinct at every level, each of those fields
    has its leaf accumulated onto the prior entry, its nested record
    accumulated into the prior nested table.  The failing field changes
    no entry under another key than its own, a failing leaf changes no
    entry at all, and a failing nested record leaves in its prior table
    what its own fields had done before it failed.  No table outside the
    prior value is written. *)
Theorem parse_message_in_place (fs : fields) (l : loc) (h h' : heap)
    (es : list (string * tree)) (fp : gset nat) (r : result pyobj) :
  repr h (TDict es) (VDict l) fp ->
  parse_message fs (VDict l) h = (h', r) ->
  (exists es' fp' done rest es1,
     to_list fs = done ++ rest /\
     tree_loop (mk_msg done) (TDict es) = (TDict es1, Ok tt) /\
     repr h' (TDict es') (VDict l) fp' /\
     (forall k, k ∈ Dict.keys es1 <-> k ∈ Dict.keys es \/ k ∈ keys_of done) /\
     (forall k, k ∉ keys_of done -> Dict.get k es1 = Dict.get k es) /\
     (distinct_keys fs -> each_field (mk_msg done) es es1) /\
     match r with
     | Ok v => v = VDict l /\ rest = [] /\ es' = es1
     | Raise e =>
         exists f x rest',
           rest = (f, x) :: rest' /\
           tree_step x f es1 = (es', Raise e) /\
           (forall k, k <> key_of f x -> Dict.get k es' = Dict.get k es1) /\
           (is_leaf x = true ->
              es' = es1 /\
              accumulate x (as_obj (default TNone (Dict.get (key_of f x) es1)))
              = Raise e) /\
           (forall m sub, x = FMessage m -> Dict.get f es1 = Some (TDict sub) ->
              exists sub', tree_loop m (TDict sub) = (TDict sub', Raise e) /\
                           es' = Dict.set f (TDict sub') es1)
     end) /\
  (forall x, x < length h -> x ∉ fp -> h' !! x = h !! x) /\
  parse_message fs VNone h = parse_message fs (VDict (length h)) (h ++ [[]]).
Proof.
  intros Hr Hrun.
  destruct (parse_message_refines _ _ _ _ _ _ _ Hr Hrun)
    as (es' & fp' & r0 & Htree & -> & Hr' & _ & _ & Hfr).
  assert (Hkeys : forall done, field_keys (mk_msg done) = keys_of done).
  { intros done. unfold field_keys. by rewrite to_list_mk_msg. }
  split_and!; [| done | done].
  destruct r0 as [[]|e].
  - destruct (tree_loop_keys _ _ _ Htree) as [Hk Hc].
    exists es', fp', (to_list fs), [], es'.
    rewrite mk_msg_to_list.
    split_and!; [by rewrite app_nil_r | done | done | done | done | | done].
    intros [Hnd Hdist].
    by destruct (loop_post_all fs _ _ Hnd Hdist Htree) as (es0 & [= <-] & _ & _ & He).
  - destruct (tree_loop_split _ _ _ _ Htree)
      as (done & f & x & rest' & es1 & es2 & Hsplit & Hdone & Hfail & [= <-]).
    destruct (tree_loop_keys _ _ _ Hdone) as [Hk Hc]. rewrite Hkeys in Hk, Hc.
    exists es', fp', done, ((f, x) :: rest'), es1.
    split_and!; [done | done | done | done | done | |].
    + intros Hdk. destruct (distinct_keys_prefix _ _ _ Hsplit Hdk) as [Hnd1 Hdist1].
      by destruct (loop_post_all _ _ _ Hnd1 Hdist1 Hdone) as (es0 & [= <-] & _ & _ & He).
    + exists f, x, rest'. split_and!; [done | done | | |].
      * intros k Hk0. by eapply tree_step_other_keys.
      * intros Hleaf. by apply tree_step_leaf_fails.
      * intros m sub -> Hget. cbn [tree_step] in Hfail. rewrite Hget in Hfail.
        simpl in Hfail.
        destruct (tree_loop m (TDict sub)) as [T [[]|e0]] eqn:Hloop; [done|].
        injection Hfail as <- <-.
        destruct (tree_loop_dict _ _ _ _ Hloop) as [sub' ->]. by exists sub'.
Qed.

Lemma parse_message_in_place_witness :
  exists es' fp' done rest es1,
    to_list failing_record = done ++ rest /\
    tree_loop (mk_msg done) (TDict one_scalar_value) = (TDict es1, Ok tt) /\
    repr [[("a", VArr (Np.array [1; 2]%float))]; []] (TDict es') (VDict 0) fp' /\
    exists f x rest',
      rest = (f, x) :: rest' /\ tree_step x f es1 = (es', Raise AttributeError).
Proof.
  destruct (parse_message_in_place failing_record 0 one_scalar_heap
              [[("a", VArr (Np.array [1; 2]%float))]; []]
              one_scalar_value {[0]} (Raise AttributeError)
              repr_one_scalar_heap eq_refl)
    as ((es' & fp' & done & rest & es1 & Hsplit & Hdone & Hr' & _ & _ & _ & Hfail) & _).
  destruct Hfail as (f & x & rest' & Hrest & Hstep & _).
  exists es', fp', done, rest, es1.
  split; [exact Hsplit | split; [exact Hdone | split; [exact Hr' |]]].
  exists f, x, rest'. split; [exact Hrest | exact Hstep].
Defined.

(** ** Squeezed tables *)

Lemma squeeze_squeeze a : Np.squeeze (Np.squeeze a) = Np.squeeze a.
Proof.
  unfold Np.squeeze. simpl. f_equal.
  induction (shape a) as [|d s IH]; [done|].
  rewrite filter_cons. case_decide; [|done].
  rewrite filter_cons, decide_True by done. by rewrite IH.
Qed.

Lemma keys_array_table arrays : Dict.keys (array_table arrays) = Dict.keys arrays.
Proof.
  unfold Dict.keys, array_table. rewrite <- list_fmap_compose.
  by apply list_fmap_ext.
Qed.

(** The loop squeezes the arrays it meets, in place, up to the first
    item that is no array. *)
Lemma squeeze_loop_prefix arrays items l : forall before h,
  h !! l = Some (before ++ array_table arrays ++ items) ->
  NoDup (Dict.keys (before ++ array_table arrays ++ items)) ->
  squeeze_loop (array_table arrays ++ items) (VDict l) h =
  squeeze_loop items (VDict l)
    (<[l := before ++ array_table ((fun kv => (kv.1, Np.squeeze kv.2)) <$> arrays)
                   ++ items]> h).
Proof.
  induction arrays as [|[k a] arrays IH]; intros before h Hl Hnd.
  - simpl. by rewrite list_insert_id.
  - simpl in *. unfold bind at 1, lift. unfold bind at 1.
    rewrite (obj_set_table _ _ _ _ _ Hl).
    assert (Hk : k ∉ Dict.keys before).
    { unfold Dict.keys in *. rewrite fmap_app in Hnd.
      apply NoDup_app in Hnd as (_ & Hdis & _). intros Hin.
      apply (Hdis _ Hin). csimpl. apply list_elem_of_here. }
    rewrite DictShape.set_middle by done.
    rewrite (IH (before ++ [(k, VArr (Np.squeeze a))])).
    + rewrite list_insert_insert_eq. by rewrite <- !app_assoc.
    + rewrite list_lookup_insert_eq by (by eapply lookup_lt_Some).
      by rewrite <- app_assoc.
    + rewrite <- app_assoc. simpl.
      unfold Dict.keys in *. rewrite fmap_app in *. by csimpl in *.
Qed.

(** On a table all of whose entries are arrays, [squeeze_numpy_fields]
    replaces every array by its squeezed form, in the table it was given
    and without changing the keys or their order, and returns that table;
    a second call changes nothing. *)
Theorem squeeze_numpy_fields_arrays (l : loc) (h : heap)
    (arrays : list (string * ndarray)) :
  h !! l = Some (array_table arrays) ->
  NoDup (Dict.keys arrays) ->
  let squeezed := array_table ((fun kv => (kv.1, Np.squeeze kv.2)) <$> arrays) in
  squeeze_numpy_fields (VDict l) h = (<[l := squeezed]> h, Ok (VDict l)) /\
  Dict.keys squeezed = Dict.keys arrays /\
  squeeze_numpy_fields (VDict l) (<[l := squeezed]> h)
  = (<[l := squeezed]> h, Ok (VDict l)).
Proof.
  intros Hl Hnd squeezed.
  assert (Hrun : forall h0 arrs, h0 !! l = Some (array_table arrs) ->
    NoDup (Dict.keys arrs) ->
    squeeze_numpy_fields (VDict l) h0 =
    (<[l := array_table ((fun kv => (kv.1, Np.squeeze kv.2)) <$> arrs)]> h0,
     Ok (VDict l))).
  { intros h0 arrs Hl0 Hnd0. unfold squeeze_numpy_fields, bind at 1, obj_items.
    rewrite Hl0. unfold bind at 1.
    pose proof (squeeze_loop_prefix arrs [] l [] h0) as Hloop.
    simpl in Hloop. rewrite !app_nil_r in Hloop.
    rewrite Hloop; [done | done | by rewrite keys_array_table]. }
  assert (Hkeys : Dict.keys squeezed = Dict.keys arrays).
  { unfold squeezed. rewrite keys_array_table. unfold Dict.keys.
    rewrite <- list_fmap_compose. by apply list_fmap_ext. }
  split_and!; [by apply Hrun | done |].
  rewrite (Hrun (<[l := squeezed]> h)
             ((fun kv => (kv.1, Np.squeeze kv.2)) <$> arrays)).
  - rewrite list_insert_insert_eq. do 2 f_equal. unfold squeezed. f_equal.
    rewrite <- list_fmap_compose. apply list_fmap_ext. intros i [k a] _. simpl.
    by rewrite squeeze_squeeze.
  - apply list_lookup_insert_eq. by eapply lookup_lt_Some.
  - rewrite <- keys_array_table. fold squeezed. by rewrite Hkeys.
Qed.

Lemma squeeze_numpy_fields_arrays_witness :
  squeeze_numpy_fields (VDict 0)
    [[("speed", VArr (mk_ndarray [1; 3] [1; 2; 3]%float));
      ("scan", VArr (mk_ndarray [2; 1; 2] [1; 2; 3; 4]%float))]]
  = ([[("speed", VArr (mk_ndarray [3] [1; 2; 3]%float));
       ("scan", VArr (mk_ndarray [2; 2] [1; 2; 3; 4]%float))]],
     Ok (VDict 0)).
Proof.
  refine (proj1 (squeeze_numpy_fields_arrays 0
    [[("speed", VArr (mk_ndarray [1; 3] [1; 2; 3]%float));
      ("scan", VArr (mk_ndarray [2; 1; 2] [1; 2; 3; 4]%float))]]
    [("speed", mk_ndarray [1; 3] [1; 2; 3]%float);
     ("scan", mk_ndarray [2; 1; 2] [1; 2; 3; 4]%float)] eq_refl _)).
  unfold Dict.keys. simpl. repeat constructor;
    rewrite ?elem_of_cons, ?elem_of_nil; intuition discriminate.
Defined.

(** On a table with an entry that is no array (an absent leaf, or the
    table of a nested record), [squeeze_numpy_fields] raises
    [AttributeError]; the arrays that come before that entry have
    already been squeezed in the caller's table. *)
Theorem squeeze_numpy_fields_not_array (l : loc) (h : heap)
    (arrays : list (string * ndarray)) (key : string) (value : pyobj)
    (rest : list (string * pyobj)) :
  h !! l = Some (array_table arrays ++ (key, value) :: rest) ->
  NoDup (Dict.keys (array_table arrays ++ (key, value) :: rest)) ->
  (forall a, value <> VArr a) ->
  squeeze_numpy_fields (VDict l) h =
  (<[l := array_table ((fun kv => (kv.1, Np.squeeze kv.2)) <$> arrays)
          ++ (key, value) :: rest]> h,
   Raise AttributeError).
Proof.
  intros Hl Hnd Hval. unfold squeeze_numpy_fields, bind at 1, obj_items.
  rewrite Hl. unfold bind at 1.
  rewrite (squeeze_loop_prefix arrays ((key, value) :: rest) l [] h) by done.
  simpl. destruct value as [|a|l']; [done | by destruct (Hval a) | done].
Qed.

Lemma squeeze_numpy_fields_not_array_witness :
  squeeze_numpy_fields (VDict 0)
    [[("a", VArr (mk_ndarray [1; 2] [1; 2]%float)); ("pose", VDict 1)];
     [("x", VArr (mk_ndarray [1] [1]%float))]]
  = ([[("a", VArr (mk_ndarray [2] [1; 2]%float)); ("pose", VDict 1)];
      [("x", VArr (mk_ndarray [1] [1]%float))]],
     Raise AttributeError).
Proof.
  refine (squeeze_numpy_fields_not_array 0
    [[("a", VArr (mk_ndarray [1; 2] [1; 2]%float)); ("pose", VDict 1)];
     [("x", VArr (mk_ndarray [1] [1]%float))]]
    [("a", mk_ndarray [1; 2] [1; 2]%float)] "pose" (VDict 1) [] eq_refl _ _).
  - unfold Dict.keys. simpl. repeat constructor;
      rewrite ?elem_of_cons, ?elem_of_nil; intuition discriminate.
  - discriminate.
Defined.

(** ** The enumeration-based conversions *)

(** The string conversion multiplies by the factor of the last token it
    finds in the name, which is what [si_prefix_to_base] does with that
    member of the enumeration; and every member is the last token of its
    own lowercase name, which the string conversion strips to nothing. *)
Theorem si_prefix_to_base_agrees (name : string) (item : SI_PREFIX) (value : ndarray) :
  last_match name = Some item ->
  si_prefix_to_base (Member item) value
  = Ok (si_prefix_to_base_from_str name value).1 /\
  si_prefix_to_base_from_str (name_lower item) value
  = (Np.scale value (prefix_value item), "").
Proof.
  intros Hlast. split.
  - by rewrite si_prefix_scan, Hlast.
  - by destruct item.
Qed.

Lemma si_prefix_to_base_agrees_witness :
  si_prefix_to_base (Member MILI) (Np.array [1500]%float)
  = Ok (si_prefix_to_base_from_str "accel_mili_g" (Np.array [1500]%float)).1.
Proof.
  exact (proj1 (si_prefix_to_base_agrees "accel_mili_g" MILI (Np.array [1500]%float)
                  eq_refl)).
Defined.

(** Converting to base units and back keeps the shape of an array, but it
    is not the identity on binary64 values: for every member there is a
    value that the round trip changes. *)
Theorem si_round_trip_not_exact (item : SI_PREFIX) :
  (forall value, exists base back,
     si_prefix_to_base (Member item) value = Ok base /\
     si_base_to_prefix (Member item) base = Ok back /\
     shape back = shape value /\ length (data back) = length (data value)) /\
  (exists x,
     rbind (si_prefix_to_base (Member item) (Np.array [x]))
           (si_base_to_prefix (Member item))
     <> Ok (Np.array [x])).
Proof.
  split.
  - intros value. eexists _, _. split_and!; [done | done | done |].
    simpl. by rewrite !length_map.
  - assert (Hne : forall x y : float,
      PrimFloat.eqb x x = true -> PrimFloat.eqb y x = false ->
      Ok (mk_ndarray [1] [y]) <> Ok (mk_ndarray [1] [x])).
    { intros x y Hx Hy [= ->]. congruence. }
    destruct item.
    + exists 0x1.392630542e166p+0%float. by apply Hne.
    + exists 0x1.1738f7d1a22dep+0%float. by apply Hne.
    + exists 0x1.930d6ea99ba40p+0%float. by apply Hne.
    + exists 0x1.892f9023031d0p+0%float. by apply Hne.
    + exists 0x1.b2f14c98f45d4p+0%float. by apply Hne.
    + exists 0x1.52e6b43e54e9cp+0%float. by apply Hne.
    + exists 0x1.f29d0da1fac62p+0%float. by apply Hne.
    + exists 0x1.f9ebdac7131a3p+0%float. by apply Hne.
    + exists 0x1.f9ebdac7131a3p+0%float. by apply Hne.
    + exists 0x1.e25a760c2c934p+0%float. by apply Hne.
Qed.

(** ** Synthesized entries *)

Section synthesized.
Variable conv : string * ndarray -> option (string * ndarray).

Lemma synthesized_snoc out_dict data kv :
  synthesized conv out_dict (data ++ [kv]) =
  match conv kv with
  | Some (k, v) => Dict.set k v (synthesized conv out_dict data)
  | None => synthesized conv out_dict data
  end.
Proof. unfold synthesized. by rewrite foldl_app. Qed.

Lemma synthesized_keys data : forall out_dict k,
  k ∈ Dict.keys (synthesized conv out_dict data) <->
  k ∈ Dict.keys out_dict \/ exists kv v, kv ∈ data /\ conv kv = Some (k, v).
Proof.
  induction data as [|kv0 data IH]; intros out_dict k.
  { split; [auto | intros [?|(kv & v & Hin & _)]; [done | by apply elem_of_nil in Hin]]. }
  change (synthesized conv out_dict (kv0 :: data))
    with (synthesized conv
            match conv kv0 with
            | Some (k, v) => Dict.set k v out_dict
            | None => out_dict
            end data).
  rewrite IH. destruct (conv kv0) as [[k0 v0]|] eqn:Hc.
  - rewrite DictFacts.elem_of_keys_set. split.
    + intros [[->|?]|(kv & v & Hin & Hkv)]; [|by left|].
      * right. exists kv0, v0. split; [apply list_elem_of_here | done].
      * right. exists kv, v. split; [by apply list_elem_of_further | done].
    + intros [?|(kv & v & [->|Hin]%elem_of_cons & Hkv)]; [by left; right | |].
      * left; left. congruence.
      * right. by exists kv, v.
  - split.
    + intros [?|(kv & v & Hin & Hkv)]; [by left|].
      right. exists kv, v. split; [by apply list_elem_of_further | done].
    + intros [?|(kv & v & [->|Hin]%elem_of_cons & Hkv)]; [by left | congruence |].
      right. by exists kv, v.
Qed.

Lemma NoDup_keys_synthesized data : forall out_dict,
  NoDup (Dict.keys out_dict) -> NoDup (Dict.keys (synthesized conv out_dict data)).
Proof.
  induction data as [|kv0 data IH]; intros out_dict Hnd; [done|].
  simpl. apply IH. destruct (conv kv0) as [[k0 v0]|]; [|done].
  by apply DictFacts.NoDup_keys_set.
Qed.

(** The entry synthesized under a name is the one of the last item that
    gives this name. *)
Lemma synthesized_get data : forall out_dict kv n v,
  kv ∈ data -> conv kv = Some (n, v) ->
  (forall kv' v', kv' ∈ data -> conv kv' = Some (n, v') -> v' = v) ->
  Dict.get n (synthesized conv out_dict data) = Some v.
Proof.
  induction data as [|kv1 data IH] using rev_ind; intros out_dict kv n v Hin Hkv Huniq.
  { by apply elem_of_nil in Hin. }
  rewrite synthesized_snoc.
  assert (Hrest : kv ∈ data ->
    Dict.get n (synthesized conv out_dict data) = Some v).
  { intros Hin'. apply (IH _ kv); [done | done |].
    intros kv' v' Hin'' Hkv'. apply (Huniq kv'); [|done].
    apply elem_of_app. by left. }
  destruct (conv kv1) as [[k1 v1]|] eqn:Hc1.
  - rewrite DictFacts.get_set. case_decide as Hk1.
    + subst k1. f_equal. apply (Huniq kv1); [|done].
      apply elem_of_app. right. apply list_elem_of_here.
    + apply Hrest. apply elem_of_app in Hin as [?|Heq]; [done|].
      apply list_elem_of_singleton in Heq as ->. congruence.
  - apply Hrest. apply elem_of_app in Hin as [?|Heq]; [done|].
    apply list_elem_of_singleton in Heq as ->. congruence.
Qed.

Lemma synthesized_none data out_dict :
  (forall kv, kv ∈ data -> conv kv = None) -> synthesized conv out_dict data = out_dict.
Proof.
  revert out_dict. induction data as [|kv0 data IH]; intros out_dict Hall; [done|].
  simpl. rewrite (Hall kv0) by apply list_elem_of_here.
  apply IH. intros kv Hin. apply Hall. by apply list_elem_of_further.
Qed.

Lemma synthesized_same data out_dict :
  (forall kv, kv ∈ data -> conv kv = Some kv) ->
  synthesized conv out_dict data = Dict.union out_dict data.
Proof.
  revert out_dict. induction data as [|[k0 v0] data IH]; intros out_dict Hall; [done|].
  simpl. rewrite (Hall (k0, v0)) by apply list_elem_of_here.
  unfold Dict.union. simpl. apply IH.
  intros kv Hin. apply Hall. by apply list_elem_of_further.
Qed.

(** What [out_dict | data] holds when [out_dict] is synthesized from
    [data]: the original entries, which win, and the synthesized ones. *)
Lemma synthesized_union data :
  NoDup (Dict.keys data) ->
  let out := Dict.union (synthesized conv [] data) data in
  (forall k v, Dict.get k data = Some v -> Dict.get k out = Some v) /\
  (forall k, k ∈ Dict.keys out <->
     k ∈ Dict.keys data \/ exists kv v, kv ∈ data /\ conv kv = Some (k, v)) /\
  (forall kv n v, kv ∈ data -> conv kv = Some (n, v) -> n ∉ Dict.keys data ->
     (forall kv' v', kv' ∈ data -> conv kv' = Some (n, v') -> v' = v) ->
     Dict.get n out = Some v) /\
  NoDup (Dict.keys out).
Proof.
  intros Hnd out. split_and!.
  - intros k v Hget. unfold out. rewrite DictFacts.get_union by done. by rewrite Hget.
  - intros k. unfold out. rewrite DictFacts.elem_of_keys_union, synthesized_keys.
    split; [intros [[Hk|?]|?]; [by apply elem_of_nil in Hk | by right | by left]
           | intros [?|?]; [by right | by left; right]].
  - intros kv n v Hin Hkv Hfresh Huniq. unfold out.
    rewrite DictFacts.get_union by done.
    apply DictFacts.get_None in Hfresh. rewrite Hfresh.
    by eapply synthesized_get.
  - apply DictFacts.NoDup_keys_union, NoDup_keys_synthesized, NoDup_nil_2.
Qed.

End synthesized.

Lemma add_deg_keys_from_rad_synthesized data :
  add_deg_keys_from_rad data = Dict.union (synthesized deg_entry [] data) data.
Proof.
  unfold add_deg_keys_from_rad, synthesized. f_equal.
  generalize (@nil (string * ndarray)).
  induction data as [|kv data IH]; intros acc; [done|].
  simpl. rewrite IH. f_equal. unfold deg_entry.
  by destruct (Str.contains _RAD_STR kv.1).
Qed.

Lemma add_si_base_keys_to_dict_synthesized data :
  add_si_base_keys_to_dict data = Dict.union (synthesized si_entry [] data) data.
Proof.
  unfold add_si_base_keys_to_dict, synthesized. f_equal.
  generalize (@nil (string * ndarray)).
  induction data as [|kv data IH]; intros acc; [done|].
  simpl. rewrite IH. f_equal. unfold si_entry.
  by destruct (si_prefix_to_base_from_str kv.1 kv.2).
Qed.

Lemma elem_of_keys {V} k (d : list (string * V)) :
  k ∈ Dict.keys d <-> exists v, (k, v) ∈ d.
Proof.
  unfold Dict.keys. rewrite list_elem_of_fmap. split.
  - intros ([k' v] & -> & Hin). by exists v.
  - intros (v & Hin). by exists (k, v).
Qed.

(** ** Degree entries *)

(** [add_deg_keys_from_rad] keeps every original entry, also where a
    synthesized entry has the same key; its keys are the original ones
    and the degree names of the keys that contain ["_rad"]; and the entry
    under a degree name that is no original key is the conversion of the
    radian entry, when no other radian key gives the same name. *)
Theorem add_deg_keys_from_rad_entries (data : list (string * ndarray)) :
  NoDup (Dict.keys data) ->
  let out := add_deg_keys_from_rad data in
  (forall k v, Dict.get k data = Some v -> Dict.get k out = Some v) /\
  (forall k, k ∈ Dict.keys out <->
     k ∈ Dict.keys data \/
     exists k0, k0 ∈ Dict.keys data /\ Str.contains _RAD_STR k0 = true /\
       k = Str.replace k0 _RAD_STR _DEG_STR) /\
  (forall k0 v, Dict.get k0 data = Some v -> Str.contains _RAD_STR k0 = true ->
     Str.replace k0 _RAD_STR _DEG_STR ∉ Dict.keys data ->
     (forall k1, k1 ∈ Dict.keys data -> Str.contains _RAD_STR k1 = true ->
        Str.replace k1 _RAD_STR _DEG_STR = Str.replace k0 _RAD_STR _DEG_STR ->
        k1 = k0) ->
     Dict.get (Str.replace k0 _RAD_STR _DEG_STR) out = Some (Np.degrees v)) /\
  NoDup (Dict.keys out).
Proof.
  intros Hnd out. unfold out. rewrite add_deg_keys_from_rad_synthesized.
  destruct (synthesized_union deg_entry data Hnd) as (Hkeep & Hkeys & Hnew & Hnd').
  split_and!; [done | | | done].
  - intros k. rewrite Hkeys. apply or_iff_compat_l. split.
    + intros ([k0 v0] & v & Hin & Hc). unfold deg_entry in Hc. simpl in Hc.
      destruct (Str.contains _RAD_STR k0) eqn:Hrad; [|done].
      injection Hc as <- _. exists k0. split_and!; [|done|done].
      apply elem_of_keys. by exists v0.
    + intros (k0 & [v0 Hin]%elem_of_keys & Hrad & ->).
      exists (k0, v0), (Np.degrees v0). split; [done|].
      unfold deg_entry. simpl. by rewrite Hrad.
  - intros k0 v Hget Hrad Hfresh Huniq.
    apply (Hnew (k0, v)); [by apply DictFacts.get_Some_in | | done |].
    + unfold deg_entry. simpl. by rewrite Hrad.
    + intros [k1 v1] v' Hin Hc. unfold deg_entry in Hc. simpl in Hc.
      destruct (Str.contains _RAD_STR k1) eqn:Hrad1; [|done].
      injection Hc as Hname <-.
      assert (k1 = k0) as ->.
      { apply Huniq; [|done|done]. apply elem_of_keys. by exists v1. }
      apply (DictFacts.in_get_Some _ _ _ Hnd) in Hin. congruence.
Qed.

Lemma add_deg_keys_from_rad_entries_witness :
  Dict.get "yaw_rad" (add_deg_keys_from_rad kilo_table)
  = Some (mk_ndarray [1; 1] [1]%float).
Proof.
  refine (proj1 (add_deg_keys_from_rad_entries kilo_table _) "yaw_rad" _ eq_refl).
  unfold Dict.keys. simpl. repeat constructor;
    rewrite ?elem_of_cons, ?elem_of_nil; intuition discriminate.
Defined.

(** A table with no radian key comes back as it is. *)
Theorem add_deg_keys_from_rad_no_radians (data : list (string * ndarray)) :
  NoDup (Dict.keys data) ->
  (forall k, k ∈ Dict.keys data -> Str.contains _RAD_STR k = false) ->
  add_deg_keys_from_rad data = data.
Proof.
  intros Hnd Hno. rewrite add_deg_keys_from_rad_synthesized, synthesized_none.
  - rewrite DictShape.union_app; [done | done |].
    intros k _ Hk. by apply elem_of_nil in Hk.
  - intros [k v] Hin. unfold deg_entry. simpl. rewrite Hno; [done|].
    apply elem_of_keys. by exists v.
Qed.

Lemma add_deg_keys_from_rad_no_radians_witness :
  add_deg_keys_from_rad [("speed", two_rows); ("yaw_deg", two_rows)]
  = [("speed", two_rows); ("yaw_deg", two_rows)].
Proof.
  apply add_deg_keys_from_rad_no_radians.
  - unfold Dict.keys. simpl. repeat constructor;
      rewrite ?elem_of_cons, ?elem_of_nil; intuition discriminate.
  - intros k Hk. unfold Dict.keys in Hk. simpl in Hk.
    rewrite !elem_of_cons, elem_of_nil in Hk. by destruct Hk as [->|[->|[]]].
Defined.

(** ** SI-base entries *)

Lemma si_entry_scan k v :
  si_entry (k, v) =
  Some match last_match k with
       | None => (k, v)
       | Some item => (Str.replace k (name_lower item) "", Np.scale v (prefix_value item))
       end.
Proof. unfold si_entry. simpl. rewrite si_prefix_scan. by destruct (last_match k). Qed.

Lemma last_match_None name :
  (forall item, Str.contains (name_lower item) name = false) -> last_match name = None.
Proof.
  intros Hno. unfold last_match, matching, SI_PREFIX_members.
  by rewrite !filter_cons_False by (by rewrite Hno).
Qed.

(** [add_si_base_keys_to_dict] keeps every original entry, also where a
    synthesized entry has the same key; its keys are the original ones
    and the stripped names of the keys that contain a prefix token; and
    the entry under a stripped name that is no original key is the
    original array multiplied by the token's factor, when no other key
    gives the same name. *)
Theorem add_si_base_keys_to_dict_entries (data : list (string * ndarray)) :
  NoDup (Dict.keys data) ->
  let out := add_si_base_keys_to_dict data in
  (forall k v, Dict.get k data = Some v -> Dict.get k out = Some v) /\
  (forall k, k ∈ Dict.keys out <->
     k ∈ Dict.keys data \/
     exists k0 item, k0 ∈ Dict.keys data /\ last_match k0 = Some item /\
       k = Str.replace k0 (name_lower item) "") /\
  (forall k0 v item, Dict.get k0 data = Some v -> last_match k0 = Some item ->
     Str.replace k0 (name_lower item) "" ∉ Dict.keys data ->
     (forall k1 item1, k1 ∈ Dict.keys data -> last_match k1 = Some item1 ->
        Str.replace k1 (name_lower item1) "" = Str.replace k0 (name_lower item) "" ->
        k1 = k0) ->
     Dict.get (Str.replace k0 (name_lower item) "") out
     = Some (Np.scale v (prefix_value item))) /\
  NoDup (Dict.keys out).
Proof.
  intros Hnd out. unfold out. rewrite add_si_base_keys_to_dict_synthesized.
  destruct (synthesized_union si_entry data Hnd) as (Hkeep & Hkeys & Hnew & Hnd').
  split_and!; [done | | | done].
  - intros k. rewrite Hkeys. split.
    + intros [?|([k0 v0] & v & Hin & Hc)]; [by left|].
      rewrite si_entry_scan in Hc.
      assert (Hk0 : k0 ∈ Dict.keys data) by (apply elem_of_keys; by exists v0).
      destruct (last_match k0) as [item|] eqn:Hlast.
      * right. exists k0, item. injection Hc as <- _. done.
      * left. by injection Hc as <- _.
    + intros [?|(k0 & item & [v0 Hin]%elem_of_keys & Hlast & ->)]; [by left|].
      right. exists (k0, v0), (Np.scale v0 (prefix_value item)). split; [done|].
      by rewrite si_entry_scan, Hlast.
  - intros k0 v item Hget Hlast Hfresh Huniq.
    apply (Hnew (k0, v)); [by apply DictFacts.get_Some_in | | done |].
    + by rewrite si_entry_scan, Hlast.
    + intros [k1 v1] v' Hin Hc. rewrite si_entry_scan in Hc.
      assert (Hk1 : k1 ∈ Dict.keys data) by (apply elem_of_keys; by exists v1).
      destruct (last_match k1) as [item1|] eqn:Hlast1.
      * injection Hc as Hname <-.
        assert (k1 = k0) as -> by (by eapply Huniq).
        apply (DictFacts.in_get_Some _ _ _ Hnd) in Hin. congruence.
      * injection Hc as Hname _. by rewrite <- Hname in Hfresh.
Qed.

Lemma add_si_base_keys_to_dict_entries_witness :
  Dict.get "kilo_x" (add_si_base_keys_to_dict kilo_table)
  = Some (mk_ndarray [1; 2] [1; 2]%float).
Proof.
  refine (proj1 (add_si_base_keys_to_dict_entries kilo_table _) "kilo_x" _ eq_refl).
  unfold Dict.keys. simpl. repeat constructor;
    rewrite ?elem_of_cons, ?elem_of_nil; intuition discriminate.
Defined.

(** A table none of whose keys contains a prefix token comes back as it
    is. *)
Theorem add_si_base_keys_to_dict_no_prefix (data : list (string * ndarray)) :
  NoDup (Dict.keys data) ->
  (forall k item, k ∈ Dict.keys data -> Str.contains (name_lower item) k = false) ->
  add_si_base_keys_to_dict data = data.
Proof.
  intros Hnd Hno. rewrite add_si_base_keys_to_dict_synthesized, synthesized_same.
  - rewrite (DictShape.union_app [] data); [|done|].
    + apply DictShape.union_same. intros k v Hin. by apply DictFacts.in_get_Some.
    + intros k _ Hk. by apply elem_of_nil in Hk.
  - intros [k v] Hin. rewrite si_entry_scan, last_match_None; [done|].
    intros item. apply Hno. apply elem_of_keys. by exists v.
Qed.

Lemma add_si_base_keys_to_dict_no_prefix_witness :
  add_si_base_keys_to_dict [("speed", two_rows); ("yaw_rad", two_rows)]
  = [("speed", two_rows); ("yaw_rad", two_rows)].
Proof.
  apply add_si_base_keys_to_dict_no_prefix.
  - unfold Dict.keys. simpl. repeat constructor;
      rewrite ?elem_of_cons, ?elem_of_nil; intuition discriminate.
  - intros k item Hk. unfold Dict.keys in Hk. simpl in Hk.
    rewrite !elem_of_cons, elem_of_nil in Hk.
    by destruct Hk as [->|[->|[]]]; destruct item.
Defined.

(** ** When the first values cannot be added *)

Lemma column0_ok v :
  is_ok (Np.column0 v) = true <->
  exists d0 d1 rest, shape v = d0 :: d1 :: rest /\ d1 <> 0.
Proof.
  unfold Np.column0. destruct (shape v) as [|d0 [|d1 rest]].
  - split; [done | by intros (? & ? & ? & ? & _)].
  - split; [done | by intros (? & ? & ? & ? & _)].
  - case_decide as Hd1.
    + split; [done | intros (? & ? & ? & [= _ <- _] & ?); done].
    + split; [by exists d0, d1, rest | done].
Qed.

Lemma column0_raise v e : Np.column0 v = Raise e -> e = IndexError.
Proof.
  unfold Np.column0. destruct (shape v) as [|d0 [|d1 rest]]; [congruence..|].
  case_decide; congruence.
Qed.

Lemma first_name_separators key name : first_name key = Ok name -> separators key <= 1.
Proof. intros [[-> _]|[-> _]]%first_name_shape; lia. Qed.

Lemma first_timestamps_loop_ok items : forall out_dict,
  is_ok (first_timestamps_loop items out_dict) = true ->
  forall k v, (k, v) ∈ items -> separators k <= 1 /\ is_ok (Np.column0 v) = true.
Proof.
  induction items as [|[k0 v0] rest IH]; intros out_dict Hok k v Hin.
  { by apply elem_of_nil in Hin. }
  rewrite first_timestamps_loop_cons in Hok.
  destruct (first_name k0) as [name|] eqn:Hname; [|done].
  destruct (Np.column0 v0) as [col|] eqn:Hcol; [|done]. simpl in Hok.
  apply elem_of_cons in Hin as [[= -> ->]|Hin].
  - split; [by eapply first_name_separators | by rewrite Hcol].
  - by eapply IH.
Qed.

Lemma first_timestamps_loop_index items : forall out_dict,
  (forall k v, (k, v) ∈ items -> separators k <= 1) ->
  (exists k v, (k, v) ∈ items /\ is_ok (Np.column0 v) = false) ->
  first_timestamps_loop items out_dict = Raise IndexError.
Proof.
  induction items as [|[k0 v0] rest IH]; intros out_dict Hsep (k & v & Hin & Hbad).
  { by apply elem_of_nil in Hin. }
  rewrite first_timestamps_loop_cons.
  pose proof (first_name_ok k0 (Hsep k0 v0 (list_elem_of_here _ _))) as Hname.
  destruct (first_name k0) as [name|]; [|done]. simpl.
  destruct (Np.column0 v0) as [col|e] eqn:Hcol; simpl.
  - apply IH.
    + intros k' v' Hin'. apply (Hsep k' v'). by apply list_elem_of_further.
    + apply elem_of_cons in Hin as [[= -> ->]|Hin]; [by rewrite Hcol in Hbad|].
      by exists k, v.
  - by apply column0_raise in Hcol as ->.
Qed.

(** [add_first_timestamps] returns a table exactly when every key has at
    most one separator and every array has a second axis that is not
    empty; with such keys, an array without such an axis (a series of
    scalars, as [parse_scalar] builds it) makes it raise [IndexError]. *)
Theorem add_first_timestamps_failures (data : list (string * ndarray)) :
  (is_ok (add_first_timestamps data) = true <->
   forall k v, (k, v) ∈ data ->
     separators k <= 1 /\ exists d0 d1 rest, shape v = d0 :: d1 :: rest /\ d1 <> 0) /\
  ((forall k v, (k, v) ∈ data -> separators k <= 1) ->
   (exists k v, (k, v) ∈ data /\ Np.ndim v < 2) ->
   add_first_timestamps data = Raise IndexError) /\
  (forall value in_array out,
     parse_scalar value in_array = Ok (VArr out) -> Np.ndim out = 1).
Proof.
  unfold add_first_timestamps. split_and!.
  - split.
    + intros Hok k v Hin.
      assert (Hloop : is_ok (first_timestamps_loop data []) = true).
      { by destruct (first_timestamps_loop data []). }
      destruct (first_timestamps_loop_ok data [] Hloop k v Hin) as [Hsep Hcol].
      split; [done | by apply column0_ok].
    + intros Hall.
      pose proof (first_timestamps_loop_total data []) as Htot.
      destruct (first_timestamps_loop data []) as [s|]; [done|].
      apply Htot. intros k v Hin. destruct (Hall k v Hin) as [Hsep Hshape].
      split; [done | by apply column0_ok].
  - intros Hsep (k & v & Hin & Hdim).
    rewrite first_timestamps_loop_index; [done | done |].
    exists k, v. split; [done|].
    destruct (is_ok (Np.column0 v)) eqn:Hcol; [|done].
    apply column0_ok in Hcol as (d0 & d1 & rest & Hshape & _).
    unfold Np.ndim in Hdim. rewrite Hshape in Hdim. simpl in Hdim. lia.
  - intros value in_array out. by destruct in_array; intros [= <-].
Qed.

(** ** The layout of the table with first values *)

Lemma first_entries_source (data firsts : list (string * ndarray)) n :
  Forall2 (fun kv nf =>
             first_name kv.1 = Ok nf.1 /\
             rbind (Np.column0 kv.2) (fun col => Ok (Np.reshape_col col)) = Ok nf.2)
          data firsts ->
  n ∈ Dict.keys firsts -> exists k, k ∈ Dict.keys data /\ first_name k = Ok n.
Proof.
  unfold Dict.keys. induction 1 as [|[k v] [n0 f0] data firsts [Hname _] _ IH]; csimpl.
  - intros Hn. by apply elem_of_nil in Hn.
  - intros [->|Hn]%elem_of_cons.
    + exists k. split; [apply list_elem_of_here | done].
    + destruct (IH Hn) as (k' & Hk' & Hname'). exists k'.
      split; [by apply list_elem_of_further | done].
Qed.

Lemma first_entries_NoDup (data firsts : list (string * ndarray)) :
  Forall2 (fun kv nf =>
             first_name kv.1 = Ok nf.1 /\
             rbind (Np.column0 kv.2) (fun col => Ok (Np.reshape_col col)) = Ok nf.2)
          data firsts ->
  NoDup (Dict.keys data) -> NoDup (Dict.keys firsts).
Proof.
  induction 1 as [|[k v] [n0 f0] data firsts [Hname Hcol] Hall IH].
  - intros _. apply NoDup_nil_2.
  - unfold Dict.keys in *. csimpl. intros [Hk Hnd]%NoDup_cons.
    apply NoDup_cons. split; [|by apply IH].
    intros Hin. destruct (first_entries_source _ _ _ Hall Hin) as (k' & Hk' & Hname').
    simpl in Hname. by rewrite (FirstName.inj _ _ _ Hname Hname') in Hk.
Qed.

Lemma first_timestamps_loop_layout (data firsts : list (string * ndarray)) :
  Forall2 (fun kv nf =>
             first_name kv.1 = Ok nf.1 /\
             rbind (Np.column0 kv.2) (fun col => Ok (Np.reshape_col col)) = Ok nf.2)
          data firsts ->
  forall out_dict,
  NoDup (Dict.keys firsts) ->
  (forall n, n ∈ Dict.keys firsts -> n ∉ Dict.keys out_dict) ->
  first_timestamps_loop data out_dict = Ok (out_dict ++ firsts).
Proof.
  induction 1 as [|[k v] [n0 f0] data firsts [Hname Hcol] Hall IH];
    intros out_dict Hnd Hfresh.
  - simpl. by rewrite app_nil_r.
  - simpl in Hname, Hcol. rewrite first_timestamps_loop_cons, Hname. simpl.
    apply rbind_ok in Hcol as (col & -> & [= <-]). simpl.
    unfold Dict.keys in Hnd. csimpl in Hnd. apply NoDup_cons in Hnd as [Hn0 Hnd].
    rewrite DictShape.set_fresh
      by (apply Hfresh; unfold Dict.keys; csimpl; apply list_elem_of_here).
    rewrite IH; [by rewrite <- app_assoc | done |].
    intros n Hn. unfold Dict.keys. rewrite fmap_app, elem_of_app. csimpl.
    rewrite list_elem_of_singleton. intros [Hin|Heq].
    + revert Hin. apply Hfresh. unfold Dict.keys. csimpl. by apply list_elem_of_further.
    + subst n. done.
Qed.

(** When no synthesized name is an original key, [add_first_timestamps]
    returns the first-value entries, one per original entry and in the
    same order, followed by the original table: no first-value entry
    replaces another one, since different keys give different names. *)
Theorem add_first_timestamps_layout (data firsts : list (string * ndarray)) :
  NoDup (Dict.keys data) ->
  Forall2 (fun kv nf =>
             first_name kv.1 = Ok nf.1 /\
             rbind (Np.column0 kv.2) (fun col => Ok (Np.reshape_col col)) = Ok nf.2)
          data firsts ->
  (forall n, n ∈ Dict.keys firsts -> n ∉ Dict.keys data) ->
  add_first_timestamps data = Ok (firsts ++ data) /\
  forall k1 k2 n, first_name k1 = Ok n -> first_name k2 = Ok n -> k1 = k2.
Proof.
  intros Hnd Hall Hfresh. split; [|apply FirstName.inj].
  unfold add_first_timestamps.
  rewrite (first_timestamps_loop_layout data firsts Hall []).
  - simpl. f_equal. apply DictShape.union_app; [done|].
    intros k Hk Hin. by apply (Hfresh k).
  - by apply (first_entries_NoDup data).
  - intros n _ Hn. by apply elem_of_nil in Hn.
Qed.

Lemma add_first_timestamps_layout_witness :
  add_first_timestamps [("vel", two_rows); ("vel__left", two_rows)]
  = Ok ([("vel0", mk_ndarray [2; 1] [1; 3]%float);
         ("vel0__left", mk_ndarray [2; 1] [1; 3]%float)]
        ++ [("vel", two_rows); ("vel__left", two_rows)]).
Proof.
  refine (proj1 (add_first_timestamps_layout
    [("vel", two_rows); ("vel__left", two_rows)]
    [("vel0", mk_ndarray [2; 1] [1; 3]%float);
     ("vel0__left", mk_ndarray [2; 1] [1; 3]%float)] _ _ _)).
  - unfold Dict.keys. simpl. repeat constructor;
      rewrite ?elem_of_cons, ?elem_of_nil; intuition discriminate.
  - apply Forall2_cons. split; [by split|].
    apply Forall2_cons. split; [by split | apply Forall2_nil_2].
  - intros n Hn Hin. unfold Dict.keys in Hn, Hin. simpl in Hn, Hin.
    rewrite !elem_of_cons, elem_of_nil in Hn, Hin.
    destruct Hn as [->|[->|[]]]; destruct Hin as [?|[?|[]]]; discriminate.
Defined.

(** ** Merging a generator *)

(** A generator of tables is used up by the key check: when the tables
    share no key the loop that should merge them finds nothing left and
    the result is the empty table; the merged table is never returned. *)
Theorem merge_dictionaries_generator (d : list (string * ndarray))
    (ds : list (list (string * ndarray))) :
  (pairwise_disjoint (d :: ds) -> merge_dictionaries (Generator (d :: ds)) = Ok []) /\
  (~ pairwise_disjoint (d :: ds) ->
   merge_dictionaries (Generator (d :: ds)) = Raise SharedKeyError) /\
  merge_dictionaries (Generator []) = Raise TypeError.
Proof.
  split_and!; [| |done].
  all: unfold merge_dictionaries; cbn [iterate set_union_star map rbind];
    rewrite foldl_union_list;
    pose proof (size_union_list_eq (d :: ds)) as Hiff;
    change (map (fun elem => list_to_set (Dict.keys elem)) ds) with (key_set <$> ds);
    change (list_to_set (Dict.keys d)) with (key_set d);
    change (map (fun elem : gset string => size elem) (key_set d :: (key_set <$> ds)))
      with (size <$> (key_set <$> (d :: ds)));
    change (key_set d ∪ ⋃ (key_set <$> ds)) with (⋃ (key_set <$> (d :: ds)));
    intros Hd.
  - rewrite bool_decide_eq_true_2; [done | by apply Hiff].
  - rewrite bool_decide_eq_false_2; [done | by rewrite Hiff].
Qed.

(** ** The order of a merge *)

Lemma merged_layout (ds : list (list (string * ndarray))) : forall acc,
  NoDup (Dict.keys acc) ->
  (forall d k, d ∈ ds -> k ∈ Dict.keys d -> k ∉ Dict.keys acc) ->
  pairwise_disjoint ds -> (forall d, d ∈ ds -> NoDup (Dict.keys d)) ->
  foldl (fun out_dict elem => Dict.union out_dict elem) acc ds = acc ++ concat ds.
Proof.
  induction ds as [|d ds IH]; intros acc Hacc Hfresh Hdis Hnd.
  - simpl. by rewrite app_nil_r.
  - destruct Hdis as [Hd Hdis]. simpl.
    assert (Hnd_d : NoDup (Dict.keys d)) by (apply Hnd, list_elem_of_here).
    assert (Hfresh_d : forall k, k ∈ Dict.keys d -> k ∉ Dict.keys acc).
    { intros k. apply Hfresh, list_elem_of_here. }
    rewrite DictShape.union_app by done.
    rewrite IH; [by rewrite <- app_assoc | | | done |].
    + unfold Dict.keys in *. rewrite fmap_app. apply NoDup_app.
      split_and!; [done | | done]. intros k Hk Hk'. by apply (Hfresh_d k).
    + intros d' k Hd' Hk. unfold Dict.keys. rewrite fmap_app, elem_of_app.
      intros [Hin|Hin].
      * revert Hin. apply (Hfresh d'); [by apply list_elem_of_further | done].
      * by apply (Hd d' k).
    + intros d' Hd'. apply Hnd. by apply list_elem_of_further.
Qed.

(** The merge of a tuple or list of tables that share no key holds the
    items of the tables one table after the other, each table's items in
    their own order. *)
Theorem merge_dictionaries_layout (d : list (string * ndarray))
    (ds : list (list (string * ndarray))) :
  (forall d', d' ∈ d :: ds -> NoDup (Dict.keys d')) ->
  pairwise_disjoint (d :: ds) ->
  merge_dictionaries (Sequence (d :: ds)) = Ok (concat (d :: ds)).
Proof.
  intros Hnd Hdis. rewrite (proj1 (merge_check d ds) Hdis). f_equal.
  rewrite (merged_layout (d :: ds) []); [done | apply NoDup_nil_2 | | done | done].
  intros d' k _ _ Hk. by apply elem_of_nil in Hk.
Qed.

Lemma merge_dictionaries_layout_witness :
  merge_dictionaries (Sequence [table_b; table_a]) = Ok (concat [table_b; table_a]).
Proof.
  apply merge_dictionaries_layout.
  - intros d' Hd'. rewrite !elem_of_cons, elem_of_nil in Hd'.
    destruct Hd' as [->|[->|[]]]; unfold Dict.keys; simpl; repeat constructor;
      rewrite ?elem_of_nil; intuition.
  - simpl. split; [|split; [|exact I]].
    + intros d' k Hd' Hk Hk'. rewrite elem_of_cons, elem_of_nil in Hd'.
      destruct Hd' as [->|[]]. unfold Dict.keys in Hk, Hk'. simpl in Hk, Hk'.
      rewrite elem_of_cons, elem_of_nil in Hk, Hk'.
      destruct Hk as [->|[]]. by destruct Hk' as [?|[]].
    + intros d' k Hd'. by apply elem_of_nil in Hd'.
Defined.

(** ** Tables stacked into one array *)

Lemma length_transpose a : length (data (Np.transpose a)) = foldr Nat.mul 1 (rev (shape a)).
Proof. unfold Np.transpose. simpl. by rewrite length_map, length_seq. Qed.

Lemma val_list_fmap (results : list (string * ndarray)) : forall val_list,
  foldl (fun val_list kv => val_list ++ [Np.expand_dims0 (Np.transpose kv.2)])
        val_list results
  = val_list ++ ((fun kv => Np.expand_dims0 (Np.transpose kv.2)) <$> results).
Proof.
  induction results as [|kv results IH]; intros val_list; simpl.
  - by rewrite app_nil_r.
  - rewrite IH. by rewrite <- app_assoc.
Qed.

Lemma concatenate_raise (bs : list ndarray) e :
  foldl (fun acc b => rbind acc (fun x => Np.concatenate0 x b)) (Raise e) bs = Raise e.
Proof. induction bs as [|b bs IH]; [done | apply IH]. Qed.

Lemma concatenate_same (bs : list ndarray) : forall acc m t,
  shape acc = m :: t -> Forall (fun b => shape b = 1 :: t) bs ->
  foldl (fun acc b => rbind acc (fun x => Np.concatenate0 x b)) (Ok acc) bs
  = Ok (mk_ndarray (m + length bs :: t) (data acc ++ concat (data <$> bs))).
Proof.
  induction bs as [|b bs IH]; intros acc m t Hacc Hall.
  - simpl. rewrite Nat.add_0_r, app_nil_r. destruct acc. simpl in *. by subst.
  - apply Forall_cons in Hall as [Hb Hall]. simpl.
    unfold Np.concatenate0 at 2. rewrite Hacc, Hb. rewrite decide_True by done.
    rewrite (IH _ (m + 1) t) by done. simpl.
    rewrite <- app_assoc. by replace (m + 1 + length bs) with (m + S (length bs)) by lia.
Qed.

Lemma concatenate_differ (bs : list ndarray) : forall acc m t,
  shape acc = m :: t ->
  Forall (fun b => exists t', shape b = 1 :: t') bs ->
  Exists (fun b => shape b <> 1 :: t) bs ->
  foldl (fun acc b => rbind acc (fun x => Np.concatenate0 x b)) (Ok acc) bs
  = Raise ValueError.
Proof.
  induction bs as [|b bs IH]; intros acc m t Hacc Hall Hex.
  - by apply Exists_nil in Hex.
  - apply Forall_cons in Hall as [[t' Hb] Hall]. simpl.
    unfold Np.concatenate0 at 2. rewrite Hacc, Hb.
    destruct (decide (t = t')) as [<-|Hne]; [|apply concatenate_raise].
    apply Exists_cons in Hex as [Hbad|Hex]; [done|].
    by apply (IH _ (m + 1) t).
Qed.

Lemma length_concat_blocks {A} (blocks : list (list A)) n :
  Forall (fun b => length b = n) blocks -> length (concat blocks) = length blocks * n.
Proof.
  induction 1 as [|b blocks Hb _ IH]; [done|].
  simpl. rewrite length_app, IH, Hb. lia.
Qed.

Lemma nth_concat_blocks {A} (blocks : list (list A)) n d : forall i b j,
  Forall (fun b => length b = n) blocks ->
  blocks !! i = Some b -> j < n ->
  nth (i * n + j) (concat blocks) d = nth j b d.
Proof.
  induction blocks as [|b0 blocks IH]; intros i b j Hall Hi Hj; [done|].
  apply Forall_cons in Hall as [Hb0 Hall]. simpl.
  destruct i as [|i]; simpl in *.
  - injection Hi as ->. rewrite app_nth1; [done | lia].
  - rewrite app_nth2 by lia.
    replace (n + i * n + j - length b0) with (i * n + j) by lia.
    by apply IH.
Qed.

Lemma dict_to_3d_array_same k v (rest : list (string * ndarray)) :
  Forall (fun kv => shape kv.2 = shape v) rest ->
  dict_to_3d_array ((k, v) :: rest)
  = Ok (mk_ndarray (S (length rest) :: rev (shape v))
          (concat ((fun kv => data (Np.transpose kv.2)) <$> (k, v) :: rest))).
Proof.
  intros Hall. unfold dict_to_3d_array. rewrite val_list_fmap. simpl.
  rewrite (concatenate_same _ _ 1 (rev (shape v))); [|done|].
  - rewrite length_fmap. simpl. do 3 f_equal.
    rewrite <- list_fmap_compose. done.
  - apply Forall_fmap. eapply Forall_impl; [done|].
    intros [k' v'] Hs. simpl in *. by rewrite Hs.
Qed.

(** [dict_to_3d_array] needs a table that is not empty and whose arrays
    all have one shape; for a table of [d] arrays of that one shape it
    returns an array whose first axis has length [d] and whose other axes
    are those of the arrays in reverse order, [(d, n, m)] for arrays of
    shape [(m, n)]; the data are those of the transposed arrays one
    after the other, in the order of the table. *)
Theorem dict_to_3d_array_shape (k : string) (v : ndarray)
    (rest : list (string * ndarray)) :
  dict_to_3d_array [] = Raise ValueError /\
  (Forall (fun kv => shape kv.2 = shape v) rest ->
   exists out,
     dict_to_3d_array ((k, v) :: rest) = Ok out /\
     shape out = S (length rest) :: rev (shape v) /\
     Np.well_formed out /\
     data out = concat ((fun kv => data (Np.transpose kv.2)) <$> (k, v) :: rest)) /\
  (Exists (fun kv => shape kv.2 <> shape v) rest ->
   dict_to_3d_array ((k, v) :: rest) = Raise ValueError).
Proof.
  split_and!; [done | |].
  - intros Hall. eexists. split; [by apply dict_to_3d_array_same|].
    split_and!; [done | | done].
    unfold Np.well_formed, Np.size. cbn [data shape foldr].
    rewrite (length_concat_blocks _ (foldr Nat.mul 1 (rev (shape v)))).
    + by rewrite length_fmap.
    + apply Forall_fmap, Forall_cons. split; [apply length_transpose|].
      eapply Forall_impl; [done|]. intros [k' v'] Hs. simpl in Hs.
      unfold compose. cbn [snd]. by rewrite length_transpose, Hs.
  - intros Hex. unfold dict_to_3d_array. rewrite val_list_fmap. simpl.
    apply (concatenate_differ _ _ 1 (rev (shape v))); [done | |].
    + apply Forall_fmap, Forall_true. intros [k' v']. by eexists.
    + apply Exists_fmap. eapply Exists_impl; [done|].
      intros [k' v'] Hs [= Hrev]. simpl in *. apply Hs.
      by rewrite <- (rev_involutive (shape v')), Hrev, rev_involutive.
Qed.

Lemma nth_map_seq {A} (f : nat -> A) n j d : j < n -> nth j (map f (seq 0 n)) d = f j.
Proof.
  intros Hj. rewrite nth_lookup. change (map f (seq 0 n)) with (f <$> seq 0 n).
  by rewrite list_lookup_fmap, lookup_seq_lt.
Qed.

(** The transpose of a matrix holds at row [c], column [r] what the
    matrix holds at row [r], column [c]. *)
Lemma transpose_matrix a m n r c :
  shape a = [m; n] -> r < m -> c < n ->
  nth (c * m + r) (data (Np.transpose a)) 0%float = nth (r * n + c) (data a) 0%float.
Proof.
  intros Hshape Hr Hc. unfold Np.transpose. rewrite Hshape.
  cbn [rev app foldr data]. rewrite nth_map_seq by nia.
  cbn [Np.unravel Np.ravel rev app foldr]. f_equal.
  rewrite !Nat.mul_1_r, !Nat.div_1_r, Nat.add_0_r.
  rewrite Nat.div_add_l by lia. rewrite (Nat.div_small r m) by lia.
  rewrite (Nat.add_comm (c * m) r), Nat.Div0.mod_add, Nat.mod_small by lia.
  lia.
Qed.

(** For a table of [d] matrices of shape [(m, n)] the result has shape
    [(d, n, m)], not the [(d, m, n)] the docstring announces: the entry
    at [(i, c, r)] is the entry at [(r, c)] of the [i]-th matrix of the
    table. *)
Theorem dict_to_3d_array_elements (k : string) (v : ndarray)
    (rest : list (string * ndarray)) (m n : nat) :
  Forall (fun kv => shape kv.2 = [m; n]) ((k, v) :: rest) ->
  exists out,
    dict_to_3d_array ((k, v) :: rest) = Ok out /\
    shape out = [S (length rest); n; m] /\
    forall i ki a r c, ((k, v) :: rest) !! i = Some (ki, a) -> r < m -> c < n ->
      nth (Np.ravel (shape out) [i; c; r]) (data out) 0%float
      = nth (Np.ravel (shape a) [r; c]) (data a) 0%float.
Proof.
  intros [Hv Hall]%Forall_cons. simpl in Hv.
  eexists. split; [apply dict_to_3d_array_same|]; cbn [shape data].
  { eapply Forall_impl; [done|]. intros kv Hs. simpl in Hs. congruence. }
  rewrite Hv. split; [done|].
  intros i ki a r c Hi Hr Hc.
  assert (Ha : shape a = [m; n]).
  { apply list_elem_of_lookup_2 in Hi.
    apply elem_of_cons in Hi as [[= _ ->]|Hi]; [done|].
    by apply (proj1 (Forall_forall _ _) Hall _ Hi). }
  rewrite Ha. cbn [Np.ravel rev app foldr].
  rewrite !Nat.mul_1_r, !Nat.add_0_r.
  rewrite (nth_concat_blocks _ (n * m) _ i (data (Np.transpose a)) (c * m + r)).
  - by apply transpose_matrix.
  - apply Forall_fmap, Forall_forall. intros [k' v'] Hin. unfold compose. cbn [snd].
    rewrite length_transpose.
    assert (shape v' = [m; n]) as ->.
    { apply elem_of_cons in Hin as [[= _ ->]|Hin]; [done|].
      by apply (proj1 (Forall_forall _ _) Hall _ Hin). }
    simpl. lia.
  - by rewrite list_lookup_fmap, Hi.
  - nia.
Qed.

Lemma dict_to_3d_array_elements_witness :
  exists out,
    dict_to_3d_array
      [("x", mk_ndarray [2; 3] [1; 2; 3; 4; 5; 6]%float);
       ("u", mk_ndarray [2; 3] [7; 8; 9; 10; 11; 12]%float)] = Ok out /\
    shape out = [2; 3; 2].
Proof.
  destruct (dict_to_3d_array_elements "x" (mk_ndarray [2; 3] [1; 2; 3; 4; 5; 6]%float)
              [("u", mk_ndarray [2; 3] [7; 8; 9; 10; 11; 12]%float)] 2 3)
    as (out & Hout & Hshape & _).
  - apply Forall_cons. split; [done|].
    apply Forall_cons. split; [done | apply Forall_nil_2].
  - exists out. split; [exact Hout | exact Hshape].
Defined.

Example dict_to_3d_array_transposes :
  dict_to_3d_array [("x", mk_ndarray [2; 3] [1; 2; 3; 4; 5; 6]%float)]
  = Ok (mk_ndarray [1; 3; 2] [1; 4; 2; 5; 3; 6]%float).
Proof. reflexivity. Qed.
